(** * hubot-ms-teams: the MsTeamsAdapter routing and normalisation layer

    A shallow embedding of [MsTeamsAdapter] (the adapter class of the
    repository) and the properties its specification states about it.

    - JavaScript strings are sequences of UTF-16 code units: [list N].
    - The two engine services the adapter relies on but does not define,
      Unicode upper-casing (used by case-insensitive regular expressions)
      and [JSON.parse], are interfaces ([UnicodeCase], [JsonParser]); every
      general theorem holds for all their implementations, and reference
      implementations are supplied to evaluate concrete scenarios.
    - The Bot Framework SDK (turn contexts, [sendActivity],
      [createConversationAsync], [continueConversation], [process]) is an
      interface too ([Platform]): a deterministic environment whose answers
      may depend on the whole history of calls made so far.
    - The adapter's methods are state-passing functions over a [World]
      (conversation-reference cache, platform call history, log, emitted
      events, HTTP responses) that either complete normally or throw.
    - The activity normaliser reads the payload through the message
      activity of the Teams library, an interface as well ([TeamsApi]),
      and the robot's alias through the engine's loose equality
      ([LooseEquality]).
    - Of the bootstrap command, the name normaliser and the file helpers
      are embedded, over the engine's lower-casing ([UnicodeLower]) and a
      file system with the laws the helpers rely on ([FileSystem]). *)

From Stdlib Require Import NArith List String Ascii Bool Lia.
From stdpp Require Import base option list gmap.
Import ListNotations.
Set Warnings "-register-all".

(** ** JavaScript strings *)

Abbreviation jsstring := (list N).

(** ASCII text as code units, for literals. *)
Definition js (s : string) : jsstring :=
  List.map N_of_ascii (list_ascii_of_string s).

(** [undefined], [null] or a string: the values [text] and [robotName]
    take in [#ensureMentionPrefix]. *)
Inductive value :=
| VUndefined
| VNull
| VStr (s : jsstring).

Definition truthy (v : value) : bool :=
  match v with
  | VStr (_ :: _) => true
  | _ => false
  end.

Definition unit_in (c lo hi : N) : bool := ((lo <=? c) && (c <=? hi))%N.

(** ECMAScript LineTerminator code points. *)
Definition isLineTerminator (c : N) : bool :=
  ((c =? 0x0A) || (c =? 0x0D) || (c =? 0x2028) || (c =? 0x2029))%N.

(** ECMAScript WhiteSpace code points (TAB, VT, FF, ZWNBSP and the Unicode
    space separators). *)
Definition isWhiteSpace (c : N) : bool :=
  ((c =? 0x09) || (c =? 0x0B) || (c =? 0x0C) || (c =? 0x20) || (c =? 0xA0)
   || (c =? 0x1680) || unit_in c 0x2000 0x200A || (c =? 0x202F)
   || (c =? 0x205F) || (c =? 0x3000) || (c =? 0xFEFF))%N.

(** What [String.prototype.trim] strips. *)
Definition isTrimmable (c : N) : bool := isWhiteSpace c || isLineTerminator c.

Fixpoint trimStart (s : jsstring) : jsstring :=
  match s with
  | c :: s' => if isTrimmable c then trimStart s' else s
  | [] => []
  end.

Definition trimEnd (s : jsstring) : jsstring :=
  reverse (trimStart (reverse s)).

Definition trim (s : jsstring) : jsstring := trimEnd (trimStart s).

Definition newline : string := String (ascii_of_nat 10) EmptyString.

Fixpoint join (sep : jsstring) (l : list jsstring) : jsstring :=
  match l with
  | [] => []
  | [s] => s
  | s :: l' => s ++ sep ++ join sep l'
  end.

(** ** Regular expressions

    The fragment of ECMAScript patterns that the dispatcher and the
    mention normaliser use: literal characters, [.], a greedy star on one
    of those, the assertions [^] and [\b], and capture parentheses.
    Captures are delimited but not recorded: no caller reads one. *)

Inductive Atom :=
| AChar (c : N)
| ADot.

Inductive Term :=
| TAssertStart
| TWordBoundary
| TAtom (a : Atom)
| TStar (a : Atom)
| TGroupOpen
| TGroupClose.

Record RegExp := mkRegExp { terms : list Term; ignoreCase : bool }.

(** [\w] without the unicode flag. *)
Definition isWordChar (c : N) : bool :=
  unit_in c 48 57 || unit_in c 65 90 || unit_in c 97 122 || (c =? 95)%N.

Definition asciiUpper (c : N) : N :=
  if unit_in c 97 122 then (c - 32)%N else c.

(** Unicode upper-casing of one code unit: [Some u] when the upper-case form
    is the single code unit [u], [None] when it is longer. Only its ASCII
    part is fixed here. *)
Class UnicodeCase := {
  toUpperCase_unit : N -> option N;
  toUpperCase_ascii :
    forall c, (c < 128)%N -> toUpperCase_unit c = Some (asciiUpper c)
}.

(** SyntaxCharacter of the pattern grammar; also the class
    [[.*+?^${}()|[\]\\]] of [#escapeRegex]. *)
Definition syntaxCharacters : jsstring := js ".*+?^${}()|[]\".

Definition isSyntaxCharacter (c : N) : bool :=
  existsb (N.eqb c) syntaxCharacters.

Section Engine.
Context {U : UnicodeCase}.

(** Canonicalize of the ECMAScript pattern semantics, for a pattern with
    the [i] flag and without the [u] flag. *)
Definition Canonicalize (c : N) : N :=
  match toUpperCase_unit c with
  | None => c
  | Some cu => if (128 <=? c)%N && (cu <? 128)%N then c else cu
  end.

Definition atomMatches (ic : bool) (a : Atom) (c : N) : bool :=
  match a with
  | AChar p => if ic then (Canonicalize p =? Canonicalize c)%N else (p =? c)%N
  | ADot => negb (isLineTerminator c)
  end.

Definition wordBefore (prev : option N) : bool :=
  match prev with Some p => isWordChar p | None => false end.

Definition wordAfter (input : jsstring) : bool :=
  match input with c :: _ => isWordChar c | [] => false end.

(** Match [ts] at the current position: [prev] is the code unit before the
    position ([None] at index 0), [input] what follows. Returns the matched
    text and the rest. A star first tries to take one more character. *)
Fixpoint matchHere (ic : bool) (ts : list Term) (prev : option N)
    (input : jsstring) {struct ts} : option (jsstring * jsstring) :=
  match ts with
  | [] => Some ([], input)
  | TAssertStart :: ts' =>
      match prev with
      | None => matchHere ic ts' prev input
      | Some _ => None
      end
  | TWordBoundary :: ts' =>
      if xorb (wordBefore prev) (wordAfter input)
      then matchHere ic ts' prev input else None
  | TAtom a :: ts' =>
      match input with
      | c :: rest =>
          if atomMatches ic a c
          then match matchHere ic ts' (Some c) rest with
               | Some (m, r) => Some (c :: m, r)
               | None => None
               end
          else None
      | [] => None
      end
  | TStar a :: ts' =>
      (fix star (prev : option N) (input : jsstring) {struct input} :=
         match input with
         | c :: rest =>
             if atomMatches ic a c
             then match star (Some c) rest with
                  | Some (m, r) => Some (c :: m, r)
                  | None => matchHere ic ts' prev input
                  end
             else matchHere ic ts' prev input
         | [] => matchHere ic ts' prev input
         end) prev input
  | TGroupOpen :: ts' => matchHere ic ts' prev input
  | TGroupClose :: ts' => matchHere ic ts' prev input
  end.

(** The leftmost match: text before it (reversed in [before]), the match,
    the text after it. *)
Fixpoint searchFrom (re : RegExp) (before : jsstring) (prev : option N)
    (input : jsstring) : option (jsstring * jsstring * jsstring) :=
  match matchHere (ignoreCase re) (terms re) prev input with
  | Some (m, r) => Some (reverse before, m, r)
  | None =>
      match input with
      | c :: rest => searchFrom re (c :: before) (Some c) rest
      | [] => None
      end
  end.

Definition RegExp_exec (re : RegExp) (s : jsstring) :
    option (jsstring * jsstring * jsstring) :=
  searchFrom re [] None s.

(** [re.test(s)] *)
Definition RegExp_test (re : RegExp) (s : jsstring) : bool :=
  match RegExp_exec re s with Some _ => true | None => false end.

(** GetSubstitution for a match of a pattern without capture groups: [$$],
    [$&], [$`] and [$'] are expanded, any other [$] stays as it is (a
    reference to a group that does not exist is kept literally). *)
Fixpoint getSubstitution (matched before after template : jsstring)
    : jsstring :=
  match template with
  | [] => []
  | c :: t' =>
      if (c =? 36)%N then
        match t' with
        | d :: t'' =>
            if (d =? 36)%N then 36%N :: getSubstitution matched before after t''
            else if (d =? 38)%N
            then matched ++ getSubstitution matched before after t''
            else if (d =? 96)%N
            then before ++ getSubstitution matched before after t''
            else if (d =? 39)%N
            then after ++ getSubstitution matched before after t''
            else c :: getSubstitution matched before after t'
        | [] => [c]
        end
      else c :: getSubstitution matched before after t'
  end.

(** [s.replace(re, template)] for a pattern without the [g] flag. *)
Definition String_replace (s : jsstring) (re : RegExp) (template : jsstring)
    : jsstring :=
  match RegExp_exec re s with
  | Some (before, matched, after) =>
      before ++ getSubstitution matched before after template ++ after
  | None => s
  end.

End Engine.

(** Reading a pattern source, as [new RegExp(source, 'i')] does, for
    sources made of [^], [\b], escaped syntax characters and ordinary
    characters. [None]: the source is outside that fragment. *)
Fixpoint parsePattern (src : jsstring) : option (list Term) :=
  match src with
  | [] => Some []
  | c :: src' =>
      if (c =? 92)%N then
        match src' with
        | d :: src'' =>
            if (d =? 98)%N then cons TWordBoundary <$> parsePattern src''
            else if isSyntaxCharacter d
            then cons (TAtom (AChar d)) <$> parsePattern src''
            else None
        | [] => None
        end
      else if (c =? 94)%N then cons TAssertStart <$> parsePattern src'
      else if isSyntaxCharacter c then None
      else cons (TAtom (AChar c)) <$> parsePattern src'
  end.

Definition RegExp_new (src : jsstring) (ic : bool) : option RegExp :=
  (fun ts => mkRegExp ts ic) <$> parsePattern src.

(** ** The mention normaliser *)

(** [#escapeRegex]: [value.replace(/[.*+?^${}()|[\]\\]/g, '\\$&')], every
    syntax character gets a backslash in front. *)
Fixpoint escapeRegex (value : jsstring) : jsstring :=
  match value with
  | [] => []
  | c :: value' =>
      if isSyntaxCharacter c then 92%N :: c :: escapeRegex value'
      else c :: escapeRegex value'
  end.

Section MentionNormalizer.
Context {U : UnicodeCase}.

(** [#ensureMentionPrefix(text, robotName)]. [None] only if a pattern it
    builds were outside the fragment of [parsePattern]. *)
Definition ensureMentionPrefix (text robotName : value) : option value :=
  match robotName with
  | VStr ((_ :: _) as name) =>
      let trimmed := trim (match text with VStr t => t | _ => [] end) in
      match trimmed with
      | [] => Some (VStr (js "@" ++ name))
      | _ :: _ =>
          mentionPattern ← RegExp_new (js "^@" ++ escapeRegex name ++ js "\b") true;
          if RegExp_test mentionPattern trimmed
          then Some (VStr (String_replace trimmed mentionPattern (js "@" ++ name)))
          else
            barePattern ← RegExp_new (js "^" ++ escapeRegex name ++ js "\b") true;
            if RegExp_test barePattern trimmed
            then Some (VStr (String_replace trimmed barePattern (js "@" ++ name)))
            else Some (VStr (js "@" ++ name ++ js " " ++ trimmed))
      end
  | _ =>
      Some (match text with
            | VStr t => VStr (trim t)
            | _ => text
            end)
  end.

End MentionNormalizer.

(** Reference upper-casing: exact on ASCII, no case outside it. *)
Definition asciiCase_upper (c : N) : option N :=
  Some (if (c <? 128)%N then asciiUpper c else c).

#[export, refine] Instance asciiCase : UnicodeCase :=
  {| toUpperCase_unit := asciiCase_upper |}.
Proof.
  intros c Hc. unfold asciiCase_upper.
  destruct (N.ltb_spec c 128) as [_|Hge]; [reflexivity | lia].
Defined.


(** ** JSON *)

(** A parsed JSON text. Numbers keep their lexeme. *)
Inductive JSON :=
| JNull
| JBool (b : bool)
| JNumber (lexeme : jsstring)
| JString (s : jsstring)
| JArray (items : list JSON)
| JObject (members : list (jsstring * JSON)).

(** [JSON.parse]: [None] when it throws a SyntaxError. *)
Class JsonParser := { JSON_parse : jsstring -> option JSON }.

(** ** Bot Framework data *)

Inductive TextFormatTypes := Markdown | Xml.

(** The message activity [MessageFactory.text(text, speak)] builds, with
    the [textFormat] the adapter assigns afterwards. *)
Record MessageActivity := mkMessage {
  text : jsstring;
  speak : option jsstring;
  textFormat : option TextFormatTypes
}.

(** [if (speak) { msg.speak = speak }] *)
Definition truthySpeak (s : option jsstring) : option jsstring :=
  match s with
  | Some (_ :: _) => s
  | _ => None
  end.

Definition MessageFactory_text (t : jsstring) (s : option jsstring)
    : MessageActivity :=
  {| text := t; speak := truthySpeak s; textFormat := None |}.

Definition set_textFormat (f : TextFormatTypes) (m : MessageActivity)
    : MessageActivity :=
  {| text := text m; speak := speak m; textFormat := Some f |}.

Record Attachment := mkAttachment {
  contentType : jsstring;
  content : JSON
}.

(** [CardFactory.adaptiveCard(card)] *)
Definition adaptiveCard (card : JSON) : Attachment :=
  {| contentType := js "application/vnd.microsoft.card.adaptive";
     content := card |}.

(** What the adapter hands to [sendActivity]: a message activity, an object
    with only [attachments], or a bare string. *)
Inductive Outgoing :=
| OutMessage (m : MessageActivity)
| OutAttachments (attachments : list Attachment)
| OutString (s : jsstring).

Record ConversationAccount := mkConversation {
  conversation_id : jsstring;
  conversationType : option jsstring
}.

(** The inbound activity of a turn (the fields the adapter reads). *)
Record Activity := mkActivity {
  activity_id : jsstring;
  conversation : ConversationAccount;
  activity_serviceUrl : jsstring
}.

(** A turn context: an identity and its activity. *)
Record TurnContext := mkTurnContext {
  turn : N;
  activity : Activity
}.

Record ConversationReference := mkReference {
  reference_activityId : jsstring;
  reference_conversation : ConversationAccount;
  reference_serviceUrl : jsstring
}.

(** What a read of [conversationReferences] yields when it is truthy. The
    ingress path stores a conversation reference, the creation callback of
    [sendToRoom] stores the conversation account of the new conversation.
    A read can also yield a value that was never stored: a built-in that
    every object inherits from [Object.prototype] (for the key [__proto__],
    that prototype itself), or the member [key] of the stored object that
    an assignment under [__proto__] has made the prototype of the cache. *)
Inductive CacheEntry :=
| EntryReference (r : ConversationReference)
| EntryConversation (c : ConversationAccount)
| EntryBuiltin (key : jsstring)
| EntryMember (object : CacheEntry) (key : jsstring).

Record ResourceResponse := mkResponse { response_id : jsstring }.

Record Error := mkError {
  statusCode : option N;
  description : jsstring
}.

(** Reading a property of [undefined]. *)
Definition TypeError : Error :=
  {| statusCode := None; description := js "TypeError" |}.

Inductive Completion (A : Type) :=
| Normal (a : A)
| Throw (e : Error).
Arguments Normal {A} a.
Arguments Throw {A} e.

Record Channel := mkChannel { channel_id : jsstring }.
Record ChannelData := mkChannelData { channel : Channel }.
(** A room descriptor: [room.channelData.channel.id]. *)
Record Room := mkRoom { channelData : ChannelData }.

Record User := mkUser { message : option TurnContext }.

Record Envelope := mkEnvelope {
  room : option Room;
  user : option User
}.

Record ConversationParameters := mkParameters {
  isGroup : bool;
  bot_id : option jsstring;
  bot_name : jsstring;
  parameters_serviceUrl : jsstring;
  parameters_channelData : ChannelData;
  parameters_activity : MessageActivity;
  tenantId : option jsstring
}.

Record Request := mkRequest {
  url : jsstring;
  body : JSON
}.

(** How an SDK entry point that takes a turn callback behaves: it returns
    or throws without running the callback, or it runs the callback once on
    a turn context and then settles, given how the callback completed. *)
Inductive SdkCall :=
| NoTurn (result : Completion unit)
| InTurn (context : TurnContext) (settle : Completion unit -> Completion unit).

(** The calls made to the platform, oldest first. *)
Inductive PlatformCall :=
| CallSendActivity (context : TurnContext) (payload : Outgoing)
    (outcome : Completion (option ResourceResponse))
| CallCreateConversation (botAppId : option jsstring) (channelId : jsstring)
    (serviceUrl : jsstring) (parameters : ConversationParameters)
| CallContinueConversation (reference : CacheEntry)
| CallProcess (req : Request).

(** The platform: each answer may depend on the calls made before. *)
Class Platform := {
  sendActivity_outcome :
    list PlatformCall -> TurnContext -> Outgoing ->
    Completion (option ResourceResponse);
  createConversationAsync_outcome :
    list PlatformCall -> ConversationParameters -> SdkCall;
  continueConversation_outcome :
    list PlatformCall -> CacheEntry -> SdkCall;
  process_outcome : list PlatformCall -> Request -> SdkCall;
  getConversationReference : Activity -> ConversationReference;
  (** Whether [object[key]] is truthy, for a stored object: the
      properties the platform gave it, and those it inherits. *)
  member_truthy : CacheEntry -> jsstring -> bool
}.

(** ** The adapter's world *)

Inductive LogEntry :=
| ErrorNoConversationReference (id : jsstring)
| DebugCreatedConversation (r : Room)
| DebugNotACard (message : jsstring)
| ErrorUnauthorized (robotName : jsstring)
| ErrorSendFailed (robotName : jsstring) (e : Error)
| ErrorService (e : Error).

Inductive Event :=
| EventSend (envelope : Envelope) (responses : list ResourceResponse)
| EventReply (envelope : Envelope) (responses : list ResourceResponse).

(** The state the adapter's methods run in. [conversationReferences] is the
    object, made by [{}], that is used as a map from conversation ids to
    cached entries. The map holds its own properties and, under the key
    [__proto__], the object that an assignment under that key has made its
    prototype: such an assignment adds no property. A read goes through
    the prototype chain, see [readReference]. *)
Record World := mkWorld {
  conversationReferences : gmap jsstring CacheEntry;
  calls : list PlatformCall;
  logged : list LogEntry;
  emitted : list Event;
  responded : list (N * jsstring)
}.

Definition emptyWorld : World :=
  {| conversationReferences := ∅; calls := []; logged := [];
     emitted := []; responded := [] |}.

(** A statement sequence: runs in a world, completes normally or throws. *)
Definition Action (A : Type) : Type := World -> Completion A * World.

Definition ret {A} (a : A) : Action A := fun w => (Normal a, w).

Definition throw {A} (e : Error) : Action A := fun w => (Throw e, w).

Definition bind {A B} (m : Action A) (k : A -> Action B) : Action B :=
  fun w =>
    match m w with
    | (Normal a, w') => k a w'
    | (Throw e, w') => (Throw e, w')
    end.

(** [try { body } catch (e) { handler }] *)
Definition tryCatch {A} (body : Action A) (handler : Error -> Action A)
    : Action A :=
  fun w =>
    match body w with
    | (Normal a, w') => (Normal a, w')
    | (Throw e, w') => handler e w'
    end.

Declare Scope action_scope.
Delimit Scope action_scope with action.
Notation "x <- m ;; k" := (bind m (fun x => k))
  (at level 100, m at next level, k at level 200, right associativity)
  : action_scope.
Notation "m ;; k" := (bind m (fun _ => k))
  (at level 100, k at level 200, right associativity) : action_scope.

Definition log (e : LogEntry) : Action unit :=
  fun w =>
    (Normal tt,
     {| conversationReferences := conversationReferences w;
        calls := calls w; logged := logged w ++ [e];
        emitted := emitted w; responded := responded w |}).

Definition emit (e : Event) : Action unit :=
  fun w =>
    (Normal tt,
     {| conversationReferences := conversationReferences w;
        calls := calls w; logged := logged w;
        emitted := emitted w ++ [e]; responded := responded w |}).

(** [res.status(code).send(text)] *)
Definition respond (code : N) (t : jsstring) : Action unit :=
  fun w =>
    (Normal tt,
     {| conversationReferences := conversationReferences w;
        calls := calls w; logged := logged w;
        emitted := emitted w; responded := responded w ++ [(code, t)] |}).

(** [this.conversationReferences[key] = entry]: a property of its own,
    or, under the key [__proto__], the prototype. *)
Definition storeReference (key : jsstring) (entry : CacheEntry) : Action unit :=
  fun w =>
    (Normal tt,
     {| conversationReferences := <[key := entry]> (conversationReferences w);
        calls := calls w; logged := logged w;
        emitted := emitted w; responded := responded w |}).

Definition record (c : PlatformCall) (w : World) : World :=
  {| conversationReferences := conversationReferences w;
     calls := calls w ++ [c]; logged := logged w;
     emitted := emitted w; responded := responded w |}.

(** [process.env] *)
Record Env := mkEnv {
  TEAMS_BOT_SERVICE_URL : option jsstring;
  TEAMS_BOT_TENANT_ID : option jsstring;
  TEAMS_BOT_APP_ID : option jsstring
}.

Record Robot := mkRobot { robot_name : jsstring }.

(** ** The outbound dispatcher *)

(** The pattern literal of the closing-tag test: [<], [/], a capture group
    holding a greedy run of [.], then [>]; no flags. *)
Definition closingTagPattern : RegExp :=
  mkRegExp [TAtom (AChar 60); TAtom (AChar 47); TGroupOpen; TStar ADot;
            TGroupClose; TAtom (AChar 62)] false.

(** The property names of [Object.prototype], which an object made by
    [{}] inherits. *)
Definition objectPrototypeKeys : list jsstring :=
  [js "constructor"; js "__defineGetter__"; js "__defineSetter__";
   js "hasOwnProperty"; js "__lookupGetter__"; js "__lookupSetter__";
   js "isPrototypeOf"; js "propertyIsEnumerable"; js "toString";
   js "valueOf"; js "__proto__"; js "toLocaleString"].

Definition isObjectPrototypeKey (key : jsstring) : bool :=
  existsb (fun k => bool_decide (k = key)) objectPrototypeKeys.

Section Adapter.
Context {U : UnicodeCase} {J : JsonParser} {P : Platform}.
Variable robot : Robot.
Variable env : Env.

Local Open Scope action_scope.

(** [this.conversationReferences[key]], [None] when the value read is
    falsy. An own property wins (under [__proto__], the prototype that was
    assigned); otherwise the read goes to the prototype: the object
    assigned under [__proto__] if there is one, [Object.prototype] if
    not. *)
Definition readReference (cache : gmap jsstring CacheEntry) (key : jsstring)
    : option CacheEntry :=
  match cache !! key with
  | Some entry => Some entry
  | None =>
      match cache !! js "__proto__" with
      | Some prototype =>
          if member_truthy prototype key
          then Some (EntryMember prototype key) else None
      | None =>
          if isObjectPrototypeKey key then Some (EntryBuiltin key) else None
      end
  end.

(** [context.sendActivity(payload)] on a turn context. *)
Definition TurnContext_sendActivity (context : TurnContext) (payload : Outgoing)
    : Action (option ResourceResponse) :=
  fun w =>
    let outcome := sendActivity_outcome (calls w) context payload in
    (outcome, record (CallSendActivity context payload outcome) w).

(** [delegate.sendActivity(payload)], where [delegate] may be [undefined]. *)
Definition delegate_sendActivity (delegate : option TurnContext)
    (payload : Outgoing) : Action (option ResourceResponse) :=
  match delegate with
  | Some context => TurnContext_sendActivity context payload
  | None => throw TypeError
  end.

(** The [catch] block of a failed delivery. *)
Definition logSendFailure (e : Error) : Action unit :=
  match statusCode e with
  | Some code =>
      if (code =? 401)%N then log (ErrorUnauthorized (robot_name robot))
      else log (ErrorSendFailed (robot_name robot) e)
  | None => log (ErrorSendFailed (robot_name robot) e)
  end.

(** The loop of [sendWithDelegate]: both of its statements that can fail
    sit in a [try], so an iteration always completes; [responses] is the
    array being filled. *)
Fixpoint sendWithDelegate_loop (delegate : option TurnContext)
    (strings : list jsstring) (responses : list ResourceResponse) (w : World)
    : list ResourceResponse * World :=
  match strings with
  | [] => (responses, w)
  | message :: strings' =>
      let teamsMessage :=
        set_textFormat Markdown (MessageFactory_text message (Some message)) in
      let teamsMessage :=
        if RegExp_test closingTagPattern message
        then set_textFormat Xml teamsMessage else teamsMessage in
      let '(payload, w) :=
        match JSON_parse message with
        | Some card => (OutAttachments [adaptiveCard card], w)
        | None => (OutMessage teamsMessage, snd (log (DebugNotACard message) w))
        end in
      match delegate_sendActivity delegate payload w with
      | (Normal (Some response), w) =>
          sendWithDelegate_loop delegate strings' (responses ++ [response]) w
      | (Normal None, w) =>
          sendWithDelegate_loop delegate strings' responses w
      | (Throw e, w) =>
          sendWithDelegate_loop delegate strings' responses
            (snd (logSendFailure e w))
      end
  end.

Definition sendWithDelegate (delegate : option TurnContext)
    (envelope : Envelope) (strings : list jsstring)
    : Action (list ResourceResponse) :=
  fun w =>
    let '(responses, w) := sendWithDelegate_loop delegate strings [] w in
    (Normal responses, w).

(** The loop inside the [continueConversation] callback of [sendToRoom]. *)
Fixpoint sendToRoom_loop (context : TurnContext)
    (strings : list jsstring) (responses : list ResourceResponse) (w : World)
    : list ResourceResponse * World :=
  match strings with
  | [] => (responses, w)
  | message :: strings' =>
      let teamsMessage :=
        set_textFormat Markdown (MessageFactory_text message (Some message)) in
      let teamsMessage :=
        if RegExp_test closingTagPattern message
        then set_textFormat Xml teamsMessage else teamsMessage in
      let '(payload, w) :=
        match JSON_parse message with
        | Some card => (OutAttachments [adaptiveCard card], w)
        | None => (OutMessage teamsMessage, snd (log (DebugNotACard message) w))
        end in
      match TurnContext_sendActivity context payload w with
      | (Normal (Some response), w) =>
          sendToRoom_loop context strings' (responses ++ [response]) w
      | (Normal None, w) =>
          sendToRoom_loop context strings' responses w
      | (Throw e, w) =>
          sendToRoom_loop context strings' responses (snd (logSendFailure e w))
      end
  end.

(** [process.env.TEAMS_BOT_SERVICE_URL || `https://.../amer/${tenant}/`] *)
Definition serviceUrl : jsstring :=
  match TEAMS_BOT_SERVICE_URL env with
  | Some ((_ :: _) as u) => u
  | _ =>
      js "https://smba.trafficmanager.net/amer/"
      ++ match TEAMS_BOT_TENANT_ID env with
         | Some t => t
         | None => js "undefined"
         end
      ++ js "/"
  end.

Definition conversationParametersFor (r : Room) (strings : list jsstring)
    : ConversationParameters :=
  {| isGroup := true;
     bot_id := TEAMS_BOT_APP_ID env;
     bot_name := robot_name robot;
     parameters_serviceUrl := serviceUrl;
     parameters_channelData := channelData r;
     parameters_activity := MessageFactory_text (join (js newline) strings) None;
     tenantId := TEAMS_BOT_TENANT_ID env |}.

(** The callback handed to [createConversationAsync]. *)
Definition onConversationCreated (strings : list jsstring)
    (turnContext : TurnContext) : Action unit :=
  storeReference (conversation_id (conversation (activity turnContext)))
    (EntryConversation (conversation (activity turnContext))) ;;
  TurnContext_sendActivity turnContext (OutString (join (js newline) strings)) ;;
  ret tt.

(** Awaiting an SDK entry point that was given the callback [logic]. *)
Definition awaitSdk (call : SdkCall) (logic : TurnContext -> Action unit)
    : Action unit :=
  match call with
  | NoTurn result => fun w => (result, w)
  | InTurn context settle =>
      fun w => let '(c, w) := logic context w in (settle c, w)
  end.

(** [await client.createConversationAsync(botAppId, channelId, serviceUrl,
    null, parameters, logic)] *)
Definition client_createConversationAsync (botAppId : option jsstring)
    (channelId serviceUrl : jsstring) (parameters : ConversationParameters)
    (logic : TurnContext -> Action unit) : Action unit :=
  fun w =>
    awaitSdk (createConversationAsync_outcome (calls w) parameters) logic
      (record (CallCreateConversation botAppId channelId serviceUrl parameters)
         w).

(** [await client.process(req, res, logic)] *)
Definition client_process (req : Request)
    (logic : TurnContext -> Action unit) : Action unit :=
  fun w =>
    awaitSdk (process_outcome (calls w) req) logic (record (CallProcess req) w).

Definition sendToRoom (r : Room) (strings : list jsstring)
    : Action (list ResourceResponse) :=
  fun w =>
    let id := channel_id (channel (channelData r)) in
    match readReference (conversationReferences w) id with
    | None =>
        (log (ErrorNoConversationReference id) ;;
         let conversationParameters := conversationParametersFor r strings in
         client_createConversationAsync (TEAMS_BOT_APP_ID env) (js "msteams")
           serviceUrl conversationParameters (onConversationCreated strings) ;;
         log (DebugCreatedConversation r) ;;
         ret []) w
    | Some conversationReference =>
        (* [await client.continueConversation(reference, callback)]: the
           callback fills [responses], which the caller then returns. *)
        let w1 := record (CallContinueConversation conversationReference) w in
        match continueConversation_outcome (calls w) conversationReference with
        | NoTurn (Normal _) =>
            (emit (EventSend {| room := Some r; user := None |} []) ;;
             ret []) w1
        | NoTurn (Throw e) => (Throw e, w1)
        | InTurn context settle =>
            let '(responses, w2) := sendToRoom_loop context strings [] w1 in
            match settle (Normal tt) with
            | Normal _ =>
                (emit (EventSend {| room := Some r; user := None |} responses) ;;
                 ret responses) w2
            | Throw e => (Throw e, w2)
            end
        end
    end.

(** [envelope.user.message]: a TypeError when [envelope.user] is absent. *)
Definition envelope_user_message (envelope : Envelope)
    : Action (option TurnContext) :=
  match user envelope with
  | Some u => ret (message u)
  | None => throw TypeError
  end.

Definition send (envelope : Envelope) (strings : list jsstring)
    : Action (list ResourceResponse) :=
  match room envelope, user envelope with
  | Some r, None => sendToRoom r strings
  | _, _ =>
      delegate <- envelope_user_message envelope ;;
      responses <- sendWithDelegate delegate envelope strings ;;
      emit (EventSend envelope responses) ;;
      ret responses
  end.

Definition reply (envelope : Envelope) (strings : list jsstring)
    : Action (list ResourceResponse) :=
  delegate <- envelope_user_message envelope ;;
  responses <- sendWithDelegate delegate envelope strings ;;
  emit (EventReply envelope responses) ;;
  ret responses.

(** ** The ingress endpoint *)

(** [#normalizeIncomingActivity] rewrites the text of the request body
    before the guarded region of the endpoint. The rewritten text plays no
    part in the routing properties stated below, so the rewrite is kept
    abstract here; it may throw. *)
Variable normalizeIncomingActivity : JSON -> Completion JSON.

(** The turn callback handed to [process] by the POST route. *)
Definition onTurn (activityHandler : TurnContext -> Action unit)
    (context : TurnContext) : Action unit :=
  let conversationReference := getConversationReference (activity context) in
  storeReference (conversation_id (conversation (activity context)))
    (EntryReference conversationReference) ;;
  activityHandler context ;;
  respond 200 (js "ok").

(** The handler of [router.post(['/', '/api/messages'], ...)] in [run]. *)
Definition postMessages (activityHandler : TurnContext -> Action unit)
    (req : Request) : Action unit :=
  body' <- (fun w => (normalizeIncomingActivity (body req), w)) ;;
  let req := {| url := url req; body := body' |} in
  tryCatch
    (client_process req (onTurn activityHandler))
    (fun e => log (ErrorService e) ;; respond 500 (js "service error")).

End Adapter.

(** ** Reference implementations of the interfaces *)

(** A JSON reader after ECMA-404, as [JSON.parse] accepts it. *)

Definition isJsonWhitespace (c : N) : bool :=
  ((c =? 9) || (c =? 10) || (c =? 13) || (c =? 32))%N.

Fixpoint skipWhitespace (s : jsstring) : jsstring :=
  match s with
  | c :: s' => if isJsonWhitespace c then skipWhitespace s' else s
  | [] => []
  end.

Definition isDigit (c : N) : bool := unit_in c 48 57.

Fixpoint takeDigits (s : jsstring) : jsstring * jsstring :=
  match s with
  | c :: s' =>
      if isDigit c then let '(ds, r) := takeDigits s' in (c :: ds, r)
      else ([], s)
  | [] => ([], [])
  end.

Fixpoint stripPrefix (p s : jsstring) : option jsstring :=
  match p, s with
  | [], _ => Some s
  | a :: p', b :: s' => if (a =? b)%N then stripPrefix p' s' else None
  | _ :: _, [] => None
  end.

Definition hexValue (c : N) : option N :=
  if unit_in c 48 57 then Some (c - 48)%N
  else if unit_in c 65 70 then Some (c - 55)%N
  else if unit_in c 97 102 then Some (c - 87)%N
  else None.

Definition simpleEscape (c : N) : option N :=
  if (c =? 34)%N then Some 34%N
  else if (c =? 92)%N then Some 92%N
  else if (c =? 47)%N then Some 47%N
  else if (c =? 98)%N then Some 8%N
  else if (c =? 102)%N then Some 12%N
  else if (c =? 110)%N then Some 10%N
  else if (c =? 114)%N then Some 13%N
  else if (c =? 116)%N then Some 9%N
  else None.

Definition consFst (c : N) (r : option (jsstring * jsstring))
    : option (jsstring * jsstring) :=
  match r with
  | Some (t, rest) => Some (c :: t, rest)
  | None => None
  end.

(** The characters of a string after its opening quote. *)
Fixpoint parseStringBody (s : jsstring) : option (jsstring * jsstring) :=
  match s with
  | [] => None
  | c :: s' =>
      if (c =? 34)%N then Some ([], s')
      else if (c <? 32)%N then None
      else if (c =? 92)%N then
        match s' with
        | e :: s'' =>
            if (e =? 117)%N then
              match s'' with
              | h1 :: h2 :: h3 :: h4 :: rest =>
                  match hexValue h1, hexValue h2, hexValue h3, hexValue h4 with
                  | Some a, Some b, Some c3, Some d =>
                      consFst (a * 4096 + b * 256 + c3 * 16 + d)%N
                        (parseStringBody rest)
                  | _, _, _, _ => None
                  end
              | _ => None
              end
            else
              match simpleEscape e with
              | Some x => consFst x (parseStringBody s'')
              | None => None
              end
        | [] => None
        end
      else consFst c (parseStringBody s')
  end.

Definition parseNumber (s : jsstring) : option (jsstring * jsstring) :=
  let '(sign, s1) :=
    match s with
    | c :: s' => if (c =? 45)%N then ([c], s') else ([], s)
    | [] => ([], s)
    end in
  let '(int, s2) :=
    match s1 with
    | c :: s' => if (c =? 48)%N then ([c], s') else takeDigits s1
    | [] => ([], s1)
    end in
  match int with
  | [] => None
  | _ :: _ =>
      let frac :=
        match s2 with
        | c :: s' =>
            if (c =? 46)%N then
              let '(ds, r) := takeDigits s' in
              match ds with [] => None | _ :: _ => Some (c :: ds, r) end
            else Some ([], s2)
        | [] => Some ([], s2)
        end in
      match frac with
      | None => None
      | Some (fr, s3) =>
          let expo :=
            match s3 with
            | c :: s' =>
                if ((c =? 101) || (c =? 69))%N then
                  let '(sg, s'') :=
                    match s' with
                    | d :: t => if ((d =? 43) || (d =? 45))%N
                                then ([d], t) else ([], s')
                    | [] => ([], s')
                    end in
                  let '(ds, r) := takeDigits s'' in
                  match ds with
                  | [] => None
                  | _ :: _ => Some (c :: sg ++ ds, r)
                  end
                else Some ([], s3)
            | [] => Some ([], s3)
            end in
          match expo with
          | None => None
          | Some (ex, s4) => Some (sign ++ int ++ fr ++ ex, s4)
          end
      end
  end.

(** One value, with the text left after it. [fuel] bounds the nesting and
    the number of items in a row; a text of length [n] needs less than
    [n + 1]. *)
Fixpoint parseValue (fuel : nat) (s : jsstring) : option (JSON * jsstring) :=
  match fuel with
  | O => None
  | S fuel' =>
      match skipWhitespace s with
      | [] => None
      | c :: s' =>
          if (c =? 34)%N then
            match parseStringBody s' with
            | Some (t, r) => Some (JString t, r)
            | None => None
            end
          else if (c =? 91)%N then
            match skipWhitespace s' with
            | d :: r => if (d =? 93)%N then Some (JArray [], r)
                        else parseElements fuel' s' []
            | [] => None
            end
          else if (c =? 123)%N then
            match skipWhitespace s' with
            | d :: r => if (d =? 125)%N then Some (JObject [], r)
                        else parseMembers fuel' s' []
            | [] => None
            end
          else if (c =? 110)%N then
            (fun r => (JNull, r)) <$> stripPrefix (js "null") (c :: s')
          else if (c =? 116)%N then
            (fun r => (JBool true, r)) <$> stripPrefix (js "true") (c :: s')
          else if (c =? 102)%N then
            (fun r => (JBool false, r)) <$> stripPrefix (js "false") (c :: s')
          else
            match parseNumber (c :: s') with
            | Some (n, r) => Some (JNumber n, r)
            | None => None
            end
      end
  end
with parseElements (fuel : nat) (s : jsstring) (acc : list JSON)
    : option (JSON * jsstring) :=
  match fuel with
  | O => None
  | S fuel' =>
      match parseValue fuel' s with
      | Some (v, r) =>
          match skipWhitespace r with
          | d :: r' =>
              if (d =? 44)%N then parseElements fuel' r' (v :: acc)
              else if (d =? 93)%N then Some (JArray (reverse (v :: acc)), r')
              else None
          | [] => None
          end
      | None => None
      end
  end
with parseMembers (fuel : nat) (s : jsstring) (acc : list (jsstring * JSON))
    : option (JSON * jsstring) :=
  match fuel with
  | O => None
  | S fuel' =>
      match skipWhitespace s with
      | q :: s1 =>
          if (q =? 34)%N then
            match parseStringBody s1 with
            | Some (k, s2) =>
                match skipWhitespace s2 with
                | colon :: s3 =>
                    if (colon =? 58)%N then
                      match parseValue fuel' s3 with
                      | Some (v, r) =>
                          match skipWhitespace r with
                          | d :: r' =>
                              if (d =? 44)%N
                              then parseMembers fuel' r' ((k, v) :: acc)
                              else if (d =? 125)%N
                              then Some (JObject (reverse ((k, v) :: acc)), r')
                              else None
                          | [] => None
                          end
                      | None => None
                      end
                    else None
                | [] => None
                end
            | None => None
            end
          else None
      | [] => None
      end
  end.

Definition parseJson (s : jsstring) : option JSON :=
  match parseValue (2 + 2 * length s) s with
  | Some (v, r) =>
      match skipWhitespace r with
      | [] => Some v
      | _ :: _ => None
      end
  | None => None
  end.

#[export] Instance referenceJson : JsonParser := {| JSON_parse := parseJson |}.

(** A double-quoted piece of text. *)
Definition quoted (s : jsstring) : jsstring := [34%N] ++ s ++ [34%N].

Fixpoint JSON_member (key : jsstring) (members : list (jsstring * JSON))
    : option JSON :=
  match members with
  | [] => None
  | (k, v) :: members' =>
      if decide (k = key) then Some v else JSON_member key members'
  end.

(** The conversation id of an activity payload, [body.conversation.id]. *)
Definition payloadConversationId (payload : JSON) : jsstring :=
  match payload with
  | JObject ms =>
      match JSON_member (js "conversation") ms with
      | Some (JObject cs) =>
          match JSON_member (js "id") cs with
          | Some (JString id) => id
          | _ => []
          end
      | _ => []
      end
  | _ => []
  end.

Definition isSendActivity (c : PlatformCall) : bool :=
  match c with
  | CallSendActivity _ _ _ => true
  | _ => false
  end.

Definition turnOn (n : N) (what : string) (c : ConversationAccount)
    : TurnContext :=
  {| turn := n;
     activity := {| activity_id := js what; conversation := c;
                    activity_serviceUrl := js "https://service.example/" |} |}.

(** The members of the stored objects, as far as the records hold them:
    those of a reference or of a conversation account that are not empty,
    and the built-ins both inherit. *)
Definition storedMember (object : CacheEntry) (key : jsstring) : bool :=
  isObjectPrototypeKey key
  || match object with
     | EntryReference r =>
         bool_decide (key = js "conversation")
         || bool_decide (key = js "activityId")
            && negb (bool_decide (reference_activityId r = []))
         || bool_decide (key = js "serviceUrl")
            && negb (bool_decide (reference_serviceUrl r = []))
     | EntryConversation c =>
         bool_decide (key = js "id")
         && negb (bool_decide (conversation_id c = []))
         || bool_decide (key = js "conversationType")
            && match conversationType c with
               | Some (_ :: _) => true
               | _ => false
               end
     | EntryBuiltin _ | EntryMember _ _ => false
     end.

(** A scripted platform. Sends are numbered from 0 as they happen: those
    listed in [failing] throw with [failure], those in [silent] resolve to
    [undefined], the others resolve to a response named after their number.
    A created conversation gets the id [created]; a resumed one keeps the
    conversation of its reference, and a value that is no stored entry
    makes the platform throw; [process] runs the turn of the posted
    activity. Every entry point runs its callback and settles as the
    callback completed. *)
Definition scriptedPlatform (failing silent : list nat) (failure : Error)
    (created : jsstring) : Platform :=
  {| sendActivity_outcome := fun history _ _ =>
       let n := length (List.filter isSendActivity history) in
       if existsb (Nat.eqb n) failing then Throw failure
       else if existsb (Nat.eqb n) silent then Normal None
       else Normal (Some {| response_id := js "response-" ++ [(48 + N.of_nat n)%N] |});
     createConversationAsync_outcome := fun _ _ =>
       InTurn (turnOn 1 "created"
                 {| conversation_id := created;
                    conversationType := Some (js "channel") |})
         (fun c => c);
     continueConversation_outcome := fun _ entry =>
       match entry with
       | EntryReference r =>
           InTurn (turnOn 2 "resumed" (reference_conversation r)) (fun c => c)
       | EntryConversation c => InTurn (turnOn 2 "resumed" c) (fun c => c)
       | EntryBuiltin _ | EntryMember _ _ => NoTurn (Throw TypeError)
       end;
     process_outcome := fun _ req =>
       InTurn (turnOn 3 "inbound"
                 {| conversation_id := payloadConversationId (body req);
                    conversationType := Some (js "channel") |})
         (fun c => c);
     getConversationReference := fun a =>
       {| reference_activityId := activity_id a;
          reference_conversation := conversation a;
          reference_serviceUrl := activity_serviceUrl a |};
     member_truthy := storedMember |}.

(** A platform whose entry points return without running a turn. *)
Definition idlePlatform : Platform :=
  {| sendActivity_outcome := fun _ _ _ => Normal None;
     createConversationAsync_outcome := fun _ _ => NoTurn (Normal tt);
     continueConversation_outcome := fun _ _ => NoTurn (Normal tt);
     process_outcome := fun _ _ => NoTurn (Normal tt);
     getConversationReference := fun a =>
       {| reference_activityId := activity_id a;
          reference_conversation := conversation a;
          reference_serviceUrl := activity_serviceUrl a |};
     member_truthy := storedMember |}.

Definition hubot : Robot := {| robot_name := js "hubot" |}.

Definition noEnv : Env :=
  {| TEAMS_BOT_SERVICE_URL := None; TEAMS_BOT_TENANT_ID := None;
     TEAMS_BOT_APP_ID := None |}.

Definition roomOf (id : string) : Room :=
  {| channelData := {| channel := {| channel_id := js id |} |} |}.

(** ** Vocabulary of the statements *)

(** The payloads of the [sendActivity] calls in a history, in order. *)
Definition payloads (cs : list PlatformCall) : list Outgoing :=
  omap (fun c => match c with
                 | CallSendActivity _ p _ => Some p
                 | _ => None
                 end) cs.

(** The responses the platform gave to the sends of a history: what each
    successful send resolved to, when it resolved to a response. *)
Definition acceptedResponses (cs : list PlatformCall) : list ResourceResponse :=
  omap (fun c => match c with
                 | CallSendActivity _ _ (Normal (Some r)) => Some r
                 | _ => None
                 end) cs.

(** [new], made after [history], consists of sends on [context], each
    recorded with the answer the platform gave at that point. *)
Definition answered {P : Platform} (context : TurnContext)
    (history new : list PlatformCall) : Prop :=
  forall pre c post,
    new = pre ++ c :: post ->
    exists p,
      c = CallSendActivity context p
            (sendActivity_outcome (history ++ pre) context p).

(** The errors of the sends of a history that threw. *)
Definition thrownErrors (cs : list PlatformCall) : list Error :=
  omap (fun c => match c with
                 | CallSendActivity _ _ (Throw e) => Some e
                 | _ => None
                 end) cs.

(** The entry the [catch] block of a delivery logs for [e]. *)
Definition failureEntry (robot : Robot) (e : Error) : LogEntry :=
  match statusCode e with
  | Some code =>
      if (code =? 401)%N then ErrorUnauthorized (robot_name robot)
      else ErrorSendFailed (robot_name robot) e
  | None => ErrorSendFailed (robot_name robot) e
  end.

Definition isFailureEntry (entry : LogEntry) : bool :=
  match entry with
  | ErrorUnauthorized _ | ErrorSendFailed _ _ => true
  | _ => false
  end.

(** The calls an action adds to the history of [w]. *)
Definition newCalls {A} (m : Action A) (w : World) : list PlatformCall :=
  drop (length (calls w)) (calls (snd (m w))).

Definition textPayload (message : jsstring) (f : TextFormatTypes) : Outgoing :=
  OutMessage {| text := message; speak := truthySpeak (Some message);
                textFormat := Some f |}.

Definition cardPayload (card : JSON) : Outgoing :=
  OutAttachments [adaptiveCard card].

(** [s] has a substring [</], characters other than line terminators, [>]. *)
Definition hasClosingTag (s : jsstring) : Prop :=
  exists pre mid post,
    s = pre ++ js "</" ++ mid ++ js ">" ++ post
    /\ Forall (fun c => isLineTerminator c = false) mid.

(** A replacement template free of [$$], [$&], [$`] and [$']. *)
Fixpoint plainTemplate (t : jsstring) : bool :=
  match t with
  | [] => true
  | c :: t' =>
      match t' with
      | d :: _ =>
          negb ((c =? 36)%N
                && ((d =? 36) || (d =? 38) || (d =? 96) || (d =? 39))%N)
          && plainTemplate t'
      | [] => true
      end
  end.

Definition lastIsWord (s : jsstring) : bool :=
  match last s with
  | Some c => isWordChar c
  | None => false
  end.

(** A robot name that ends in a word character and is a plain template. *)
Definition wordName (r : jsstring) : Prop :=
  lastIsWord r = true /\ plainTemplate r = true.

(** A word boundary between the end of [before] and the start of [after]. *)
Definition boundaryBetween (before after : jsstring) : bool :=
  xorb (lastIsWord before) (match after with
                            | c :: _ => isWordChar c
                            | [] => false
                            end).

(** The pattern terms of a literal text. *)
Definition literal (p : jsstring) : list Term :=
  map (fun c => TAtom (AChar c)) p.

Section Vocabulary.
Context {U : UnicodeCase}.

(** Splitting [input] after a prefix that equals [p] up to case. *)
Fixpoint literalPrefix (p input : jsstring) : option (jsstring * jsstring) :=
  match p, input with
  | [], _ => Some ([], input)
  | a :: p', c :: rest =>
      if (Canonicalize a =? Canonicalize c)%N
      then consFst c (literalPrefix p' rest) else None
  | _ :: _, [] => None
  end.

(** The same, when a word boundary follows the prefix. *)
Definition prefixMatch (p s : jsstring) : option (jsstring * jsstring) :=
  match literalPrefix p s with
  | Some (m, rest) => if boundaryBetween m rest then Some (m, rest) else None
  | None => None
  end.

(** Equal up to the case folding of an [i] pattern. *)
Definition sameIgnoringCase (a b : jsstring) : Prop :=
  Forall2 (fun x y => Canonicalize x = Canonicalize y) a b.

(** The per-string rule as the specification words it: a text that parses
    as JSON is a card; any other text is XML when it has something like a
    closing tag and Markdown otherwise. *)
Definition classify {J : JsonParser} (s : jsstring) : Outgoing :=
  match JSON_parse s with
  | Some card => cardPayload card
  | None =>
      textPayload s (if RegExp_test closingTagPattern s then Xml else Markdown)
  end.

End Vocabulary.

(** What the POST route still does once the activity handler has returned
    [r]: answer 200 if the handler completed, let the platform settle the
    turn, and answer 500 if the turn then throws. *)
Definition finishTurn (settle : Completion unit -> Completion unit)
    (r : Completion unit * World) : Completion unit * World :=
  let '(turnLogic, w) :=
    match r with
    | (Normal _, w) => respond 200 (js "ok") w
    | (Throw e, w) => (Throw e, w)
    end in
  match settle turnLogic with
  | Normal _ => (Normal tt, w)
  | Throw e => bind (log (ErrorService e))
                 (fun _ => respond 500 (js "service error")) w
  end.

(** Free of leading and trailing characters that [trim] strips. *)
Definition clean (s : jsstring) : Prop :=
  (forall c, head s = Some c -> isTrimmable c = false)
  /\ (forall c, last s = Some c -> isTrimmable c = false).

Definition textOf (v : value) : jsstring :=
  match v with VStr t => t | _ => [] end.

(** ** Scenarios *)

(** The JSON text of an object whose member type is AdaptiveCard, and its
    value. *)
Definition cardText : jsstring :=
  js "{" ++ quoted (js "type") ++ js ":" ++ quoted (js "AdaptiveCard") ++ js "}".

Definition cardValue : JSON :=
  JObject [(js "type", JString (js "AdaptiveCard"))].

Definition roomConversation : ConversationAccount :=
  {| conversation_id := js "19:room"; conversationType := Some (js "channel") |}.

(** A live turn in the conversation [19:room]. *)
Definition liveTurn : TurnContext := turnOn 7 "live" roomConversation.

Definition serverError : Error :=
  {| statusCode := Some 500%N; description := js "send failed" |}.

(** A platform that accepts every send and names a new conversation after
    the channel it was created in. *)
Definition channelPlatform : Platform :=
  scriptedPlatform [] [] serverError (js "19:room").

(** A platform that accepts every send and gives a new conversation an id
    of its own, the channel id followed by a message id. *)
Definition threadPlatform : Platform :=
  scriptedPlatform [] [] serverError (js "19:room;messageid=1").

(** A platform on which the second send throws. *)
Definition flakyPlatform : Platform :=
  scriptedPlatform [1%nat] [] serverError (js "19:room").


(** A world whose cache knows the conversation [19:room]. *)
Definition cachedWorld : World :=
  {| conversationReferences := {[ js "19:room" := EntryConversation roomConversation ]};
     calls := []; logged := []; emitted := []; responded := [] |}.

Definition liveEnvelope : Envelope :=
  {| room := None; user := Some {| message := Some liveTurn |} |}.

Definition roomOnlyEnvelope : Envelope :=
  {| room := Some (roomOf "19:room"); user := None |}.

Definition emptyEnvelope : Envelope := {| room := None; user := None |}.

(** An envelope whose user carries no turn handle. *)
Definition staleEnvelope : Envelope :=
  {| room := None; user := Some {| message := None |} |}.

(** The world after a first push of [hi] into the room [19:room], on the
    platform that gives the new conversation an id of its own. *)
Definition afterFirstPush : World :=
  snd (sendToRoom (P := threadPlatform) hubot noEnv (roomOf "19:room")
         [js "hi"] emptyWorld).

(** A posted activity of the conversation [19:room]. *)
Definition postedActivity : Request :=
  {| url := js "/api/messages";
     body := JObject [(js "conversation", JObject [(js "id", JString (js "19:room"))])] |}.

Definition keepBody (payload : JSON) : Completion JSON := Normal payload.

Definition quietHandler (context : TurnContext) : Action unit := ret tt.


(** ** The activity normaliser *)

(** [robot.alias]: [false] (the default), absent, or a string. *)
Inductive Alias :=
| AliasFalse
| AliasAbsent
| AliasString (s : jsstring).

(** [s == false] for a string [s]: whether [s] converts to the number
    zero, as the empty string does. The conversion is the engine's. *)
Class LooseEquality := {
  String_equalsFalse : jsstring -> bool;
  String_equalsFalse_empty : String_equalsFalse [] = true
}.

(** The [text] of a message activity: absent or [null], a string, or a
    value of another type, of which only the truthiness is read. *)
Inductive TextField :=
| TextNullish
| TextString (s : jsstring)
| TextOther (truthy : bool).

Definition TextField_truthy (t : TextField) : bool :=
  match t with
  | TextNullish => false
  | TextString s => match s with [] => false | _ :: _ => true end
  | TextOther b => b
  end.

(** [MessageActivity] of the Teams library, as far as the normaliser uses
    it: the object built from a payload, its [recipient?.id] ([None] when
    falsy), its [text], and the two methods called on it.
    [stripMentionsText] takes the [accountId] option ([tagOnly] is always
    set) and updates the object; [getAccountMention] is read for its
    truthiness only. The calls are taken to return. *)
Class TeamsApi := {
  TeamsMessageActivity : Type;
  AccountId : Type;
  MessageActivity_from : JSON -> TeamsMessageActivity;
  recipient_id : TeamsMessageActivity -> option AccountId;
  message_text : TeamsMessageActivity -> TextField;
  stripMentionsText :
    option AccountId -> TeamsMessageActivity -> TeamsMessageActivity;
  getAccountMention : AccountId -> TeamsMessageActivity -> bool
}.

(** [s.replace(/^\r?\n/, '')]: one leading line feed, or carriage return
    and line feed, is dropped. *)
Definition dropLeadingLineBreak (s : jsstring) : jsstring :=
  match s with
  | c :: s' =>
      if (c =? 10)%N then s'
      else if (c =? 13)%N then
        match s' with
        | d :: s'' => if (d =? 10)%N then s'' else s
        | [] => s
        end
      else s
  | [] => s
  end.

(** [s.replace(/\\n$/, '')]: a backslash followed by the letter [n] is
    dropped when it ends the text. *)
Definition dropTrailingEscapedN (s : jsstring) : jsstring :=
  match reverse s with
  | n :: b :: s' => if ((n =? 110) && (b =? 92))%N then reverse s' else s
  | _ => s
  end.

(** [s.includes(needle)] *)
Fixpoint includes (s needle : jsstring) : bool :=
  match stripPrefix needle s with
  | Some _ => true
  | None =>
      match s with
      | _ :: s' => includes s' needle
      | [] => false
      end
  end.

(** [object.key = v] on the members of an object. *)
Fixpoint JSON_set (key : jsstring) (v : JSON)
    (members : list (jsstring * JSON)) : list (jsstring * JSON) :=
  match members with
  | [] => [(key, v)]
  | (k, x) :: members' =>
      if decide (k = key) then (k, v) :: members'
      else (k, x) :: JSON_set key v members'
  end.

(** [activity?.conversation?.conversationType === 'personal'] *)
Definition isPersonalConversation (activity : JSON) : bool :=
  match activity with
  | JObject members =>
      match JSON_member (js "conversation") members with
      | Some (JObject account) =>
          match JSON_member (js "conversationType") account with
          | Some (JString t) => bool_decide (t = js "personal")
          | _ => false
          end
      | _ => false
      end
  | _ => false
  end.

Section ActivityNormalizer.
Context {U : UnicodeCase} {L : LooseEquality} {T : TeamsApi}.
Variable robot : Robot.
Variable alias : Alias.

(** The lazy run of the tag pattern: the shortest run of characters other
    than line terminators that is followed by [closing], compared up to
    case; the run, and what follows [closing]. *)
Fixpoint lazyUntil (closing input : jsstring)
    : option (jsstring * jsstring) :=
  match literalPrefix closing input with
  | Some (_, rest) => Some ([], rest)
  | None =>
      match input with
      | c :: input' =>
          if isLineTerminator c then None
          else consFst c (lazyUntil closing input')
      | [] => None
      end
  end.

(** A match of [/<at>(.*?)<\/at>/i] at the start of [s]: the capture and
    what follows the match. *)
Definition atTagAt (s : jsstring) : option (jsstring * jsstring) :=
  match literalPrefix (js "<at>") s with
  | Some (_, afterOpen) => lazyUntil (js "</at>") afterOpen
  | None => None
  end.

(** The scan of a global replace: at each position the match, if there is
    one, is replaced by its capture and the scan goes on behind it.
    [fuel] bounds the positions still to visit. *)
Fixpoint collapseFrom (fuel : nat) (s : jsstring) : jsstring :=
  match fuel, s with
  | S fuel', c :: s' =>
      match atTagAt s with
      | Some (name, rest) => name ++ collapseFrom fuel' rest
      | None => c :: collapseFrom fuel' s'
      end
  | _, _ => []
  end.

(** [s.replace(/<at>(.*?)<\/at>/gi, '$1')] *)
Definition collapseAtTags (s : jsstring) : jsstring :=
  collapseFrom (length s) s.

(** [(robot.alias == false ? undefined : robot.alias) ?? robot.name] *)
Definition robotName : jsstring :=
  match alias with
  | AliasString s => if String_equalsFalse s then robot_name robot else s
  | AliasFalse | AliasAbsent => robot_name robot
  end.

(** [#normalizeIncomingActivity(activity)]. [None]: the payload is an
    array, whose [text] property a JSON value cannot hold, or a pattern of
    the mention prefix were outside the fragment of [parsePattern]. *)
Definition normalizeIncomingActivity (activity : JSON)
    : option (Completion JSON) :=
  match activity with
  | JNull | JBool _ | JNumber _ | JString _ => Some (Normal activity)
  | JArray _ => None
  | JObject members =>
      let messageActivity := MessageActivity_from activity in
      let botAccountId := recipient_id messageActivity in
      let messageActivity :=
        if TextField_truthy (message_text messageActivity)
        then stripMentionsText botAccountId messageActivity
        else messageActivity in
      match message_text messageActivity with
      | TextOther _ => Some (Throw TypeError)
      | (TextNullish | TextString _) as t =>
          let normalizedText :=
            trim (dropTrailingEscapedN
                    (dropLeadingLineBreak
                       match t with TextString s => s | _ => [] end)) in
          let mentionDetected := includes normalizedText (js "<at>") in
          let normalizedText :=
            if mentionDetected then collapseAtTags normalizedText
            else normalizedText in
          let isPersonal := isPersonalConversation activity in
          let botMention :=
            match botAccountId with
            | Some id => getAccountMention id messageActivity
            | None => false
            end in
          let mentionDetected := mentionDetected || botMention in
          normalizedText ←
            (if (isPersonal || mentionDetected) && truthy (VStr robotName)
                && (0 <? length normalizedText)
             then
               match ensureMentionPrefix (VStr normalizedText) (VStr robotName) with
               | Some (VStr prefixed) => Some prefixed
               | _ => None
               end
             else Some normalizedText);
          Some (Normal (JObject (JSON_set (js "text") (JString normalizedText)
                                   members)))
      end
  end.

End ActivityNormalizer.

(** ** The bootstrap command

    The helpers of the command that prepares a project: the name it
    derives for the resource group, and the files it writes. *)

(** The class [[a-zA-Z0-9]] *)
Definition isAlphanumeric (c : N) : bool :=
  unit_in c 97 122 || unit_in c 65 90 || unit_in c 48 57.

Definition asciiLower (c : N) : N :=
  if unit_in c 65 90 then (c + 32)%N else c.

(** [String.prototype.toLowerCase]; only its effect on ASCII text is
    fixed here. *)
Class UnicodeLower := {
  toLowerCase : jsstring -> jsstring;
  toLowerCase_ascii :
    forall s, Forall (fun c => (c < 128)%N) s -> toLowerCase s = map asciiLower s
}.

(** [s.replace(/[^a-zA-Z0-9]+/g, '-')]: every maximal run of characters
    outside the class becomes one dash. [inRun]: the character before
    belongs to a run that has its dash already. *)
Fixpoint dashRuns (inRun : bool) (s : jsstring) : jsstring :=
  match s with
  | [] => []
  | c :: s' =>
      if isAlphanumeric c then c :: dashRuns false s'
      else if inRun then dashRuns true s'
      else 45%N :: dashRuns true s'
  end.

Fixpoint dropDashes (s : jsstring) : jsstring :=
  match s with
  | c :: s' => if (c =? 45)%N then dropDashes s' else s
  | [] => []
  end.

(** [s.replace(/^-+|-+$/g, '')]: the dashes that start the text and those
    that end it are dropped. *)
Definition stripDashes (s : jsstring) : jsstring :=
  reverse (dropDashes (reverse (dropDashes s))).

(** [normalizeName(name)] *)
Definition normalizeName {C : UnicodeLower} (name : jsstring) : jsstring :=
  toLowerCase (stripDashes (dashRuns false name)).

(** The file system calls of the command ([fs-extra], [node:path]), taken
    to succeed, with what the command relies on: a file holds what was
    last written to it, writing a file or changing a mode leaves the other
    files alone, and creating the directory of a file neither creates nor
    changes a file. *)
Class FileSystem := {
  Disk : Type;
  path_join : jsstring -> jsstring -> jsstring;
  path_dirname : jsstring -> jsstring;
  pathExists : jsstring -> Disk -> bool;
  readFile : jsstring -> Disk -> jsstring;
  fileMode : jsstring -> Disk -> N;
  ensureDir : jsstring -> Disk -> Disk;
  writeFile : jsstring -> jsstring -> Disk -> Disk;
  chmod : jsstring -> N -> Disk -> Disk;
  readFile_writeFile :
    forall p c d, readFile p (writeFile p c d) = c;
  pathExists_writeFile :
    forall p c d, pathExists p (writeFile p c d) = true;
  readFile_writeFile_other :
    forall p q c d, q <> p -> readFile q (writeFile p c d) = readFile q d;
  readFile_ensureDir :
    forall q dir d, readFile q (ensureDir dir d) = readFile q d;
  pathExists_ensureDir :
    forall p d, pathExists p (ensureDir (path_dirname p) d) = pathExists p d;
  readFile_chmod :
    forall p q m d, readFile q (chmod p m d) = readFile q d;
  pathExists_chmod :
    forall p q m d, pathExists q (chmod p m d) = pathExists q d;
  fileMode_chmod :
    forall p m d, pathExists p d = true -> fileMode p (chmod p m d) = m
}.

Section Bootstrap.
Context {F : FileSystem}.

(** The mode [0o755]. *)
Definition executable : N := 493.

(** [writeTextFile(filePath, content, { makeExecutable })]: the result
    tells whether the file was written. *)
Definition writeTextFile (filePath content : jsstring) (makeExecutable : bool)
    (disk : Disk) : bool * Disk :=
  let disk := ensureDir (path_dirname filePath) disk in
  let written :=
    let disk := writeFile filePath content disk in
    (true, if makeExecutable then chmod filePath executable disk else disk) in
  if pathExists filePath disk then
    let existing := readFile filePath disk in
    if decide (existing = content)
    then (false, if makeExecutable then chmod filePath executable disk else disk)
    else written
  else written.

(** [content.endsWith('\n')] *)
Definition endsWithLineFeed (s : jsstring) : bool :=
  match last s with
  | Some c => (c =? 10)%N
  | None => false
  end.

Definition gitIgnoreBlock : jsstring :=
  js "# Agent Toolkit environment files" ++ js newline
  ++ js ".env*" ++ js newline.

(** [ensureGitIgnore({ projectRoot, changes })], on the disk and the
    [changes] array. *)
Definition ensureGitIgnore (projectRoot : jsstring)
    (state : Disk * list jsstring) : Disk * list jsstring :=
  let '(disk, changes) := state in
  let gitignorePath := path_join projectRoot (js ".gitignore") in
  let content :=
    if pathExists gitignorePath disk then readFile gitignorePath disk
    else [] in
  if negb (includes content (js ".env")) then
    let suffix :=
      if endsWithLineFeed content || (length content =? 0) then []
      else js newline in
    let content := content ++ suffix ++ gitIgnoreBlock in
    (writeFile gitignorePath content disk,
     changes ++ [js "Updated .gitignore to ignore env files"])
  else (disk, changes).

End Bootstrap.

(** ** Vocabulary of the normaliser and of the bootstrap *)

Section NormalizerVocabulary.
Context {T : TeamsApi}.

(** The message activity of a payload once its mentions were stripped,
    which happens when its text is truthy. *)
Definition strippedMessage (activity : JSON) : TeamsMessageActivity :=
  let messageActivity := MessageActivity_from activity in
  if TextField_truthy (message_text messageActivity)
  then stripMentionsText (recipient_id messageActivity) messageActivity
  else messageActivity.

(** The text the normaliser works on: the stripped text without one
    leading line break and one trailing escaped [n], trimmed. *)
Definition cleanedText (activity : JSON) : jsstring :=
  trim (dropTrailingEscapedN
          (dropLeadingLineBreak
             match message_text (strippedMessage activity) with
             | TextString s => s
             | _ => []
             end)).

(** The payload has a recipient id and mentions that account. *)
Definition botMentioned (activity : JSON) : bool :=
  match recipient_id (MessageActivity_from activity) with
  | Some id => getAccountMention id (strippedMessage activity)
  | None => false
  end.

End NormalizerVocabulary.

(** A piece of a text: plain text, or a name between an opening and a
    closing tag. *)
Inductive Piece :=
| Plain (s : jsstring)
| Tagged (opening name closing : jsstring).

Definition render (p : Piece) : jsstring :=
  match p with
  | Plain s => s
  | Tagged opening name closing => opening ++ name ++ closing
  end.

Definition unwrapped (p : Piece) : jsstring :=
  match p with
  | Plain s => s
  | Tagged _ name _ => name
  end.

(** Plain text without [<]; a name without [<] and on one line, between
    [<at>] and [</at>] in any casing. *)
Definition wellFormed {U : UnicodeCase} (p : Piece) : Prop :=
  match p with
  | Plain s => Forall (fun c => c <> 60%N) s
  | Tagged opening name closing =>
      sameIgnoringCase (js "<at>") opening
      /\ sameIgnoringCase (js "</at>") closing
      /\ Forall (fun c => c <> 60%N /\ isLineTerminator c = false) name
  end.

(** Lower-case letters, digits and the dash. *)
Definition isNameChar (c : N) : bool :=
  unit_in c 97 122 || unit_in c 48 57 || (c =? 45)%N.

Fixpoint singleDashes (s : jsstring) : bool :=
  match s with
  | a :: s' =>
      match s' with
      | b :: _ => negb ((a =? 45) && (b =? 45))%N && singleDashes s'
      | [] => true
      end
  | [] => true
  end.

(** A name in normal form: made of lower-case letters, digits and single
    dashes, with no dash at either end. *)
Definition normalName (s : jsstring) : Prop :=
  Forall (fun c => isNameChar c = true) s
  /\ singleDashes s = true
  /\ head s <> Some 45%N
  /\ last s <> Some 45%N.

(** What [.gitignore] holds, the empty text when it does not exist. *)
Definition gitIgnoreContent {F : FileSystem} (projectRoot : jsstring)
    (disk : Disk) : jsstring :=
  let gitignorePath := path_join projectRoot (js ".gitignore") in
  if pathExists gitignorePath disk then readFile gitignorePath disk else [].

(** ** Reference implementations, continued *)

(** Lower-casing that is exact on ASCII and leaves the rest alone. *)
Definition asciiLowerCase (s : jsstring) : jsstring :=
  map (fun c => if (c <? 128)%N then asciiLower c else c) s.

#[export, refine] Instance asciiLowerInstance : UnicodeLower :=
  {| toLowerCase := asciiLowerCase |}.
Proof.
  intros s Hs. unfold asciiLowerCase. apply map_ext_Forall.
  eapply Forall_impl; [exact Hs|]. cbn. intros c Hc.
  destruct (N.ltb_spec c 128) as [_|Hge]; [reflexivity | lia].
Defined.

(** A conversion to numbers for aliases: blank text and text made of the
    digit zero convert to zero, no other text does (exact on text that
    holds a letter). *)
Definition blankOrZero (s : jsstring) : bool :=
  forallb (fun c => (c =? 48)%N) (trim s).

#[export, refine] Instance plainLoose : LooseEquality :=
  {| String_equalsFalse := blankOrZero |}.
Proof. reflexivity. Defined.

(** The Teams library on payloads that carry no mention entity: the
    message activity is the payload, nothing is stripped and no account
    is mentioned. *)
Definition payloadText (activity : JSON) : TextField :=
  match activity with
  | JObject members =>
      match JSON_member (js "text") members with
      | None | Some JNull => TextNullish
      | Some (JString s) => TextString s
      | Some (JBool b) => TextOther b
      | Some (JNumber lexeme) => TextOther (negb (blankOrZero lexeme))
      | Some (JArray _) | Some (JObject _) => TextOther true
      end
  | _ => TextNullish
  end.

Definition payloadRecipientId (activity : JSON) : option jsstring :=
  match activity with
  | JObject members =>
      match JSON_member (js "recipient") members with
      | Some (JObject account) =>
          match JSON_member (js "id") account with
          | Some (JString (c :: id)) => Some (c :: id)
          | _ => None
          end
      | _ => None
      end
  | _ => None
  end.

Definition plainTeams : TeamsApi :=
  {| TeamsMessageActivity := JSON;
     AccountId := jsstring;
     MessageActivity_from := fun activity => activity;
     recipient_id := payloadRecipientId;
     message_text := payloadText;
     stripMentionsText := fun _ messageActivity => messageActivity;
     getAccountMention := fun _ _ => false |}.

Fixpoint dropLastSegment (reversed : jsstring) : jsstring :=
  match reversed with
  | c :: reversed' => if (c =? 47)%N then reversed' else dropLastSegment reversed'
  | [] => []
  end.

(** A disk as a map from paths to contents and modes; directories are
    implicit, and a new file gets the mode [0o644]. *)
Definition mapDisk_chmod (p : jsstring) (m : N)
    (d : gmap jsstring (jsstring * N)) : gmap jsstring (jsstring * N) :=
  match d !! p with
  | Some (c, _) => <[p := (c, m)]> d
  | None => d
  end.

Definition mapDisk_writeFile (p c : jsstring)
    (d : gmap jsstring (jsstring * N)) : gmap jsstring (jsstring * N) :=
  <[p := (c, match d !! p with Some (_, m) => m | None => 420%N end)]> d.

#[export, refine] Instance mapDisk : FileSystem :=
  {| Disk := gmap jsstring (jsstring * N);
     path_join := fun a b => a ++ js "/" ++ b;
     path_dirname := fun p => reverse (dropLastSegment (reverse p));
     pathExists := fun p d => bool_decide (is_Some (d !! p));
     readFile := fun p d => match d !! p with Some (c, _) => c | None => [] end;
     fileMode := fun p d => match d !! p with Some (_, m) => m | None => 0%N end;
     ensureDir := fun _ d => d;
     writeFile := mapDisk_writeFile;
     chmod := mapDisk_chmod |}.
Proof.
  - intros p c d. unfold mapDisk_writeFile. rewrite lookup_insert_eq. reflexivity.
  - intros p c d. unfold mapDisk_writeFile. rewrite lookup_insert_eq.
    apply bool_decide_eq_true. eauto.
  - intros p q c d Hne. unfold mapDisk_writeFile.
    rewrite lookup_insert_ne by congruence. reflexivity.
  - reflexivity.
  - reflexivity.
  - intros p q m d. unfold mapDisk_chmod.
    destruct (d !! p) as [[c m0]|] eqn:Hp; [|reflexivity].
    destruct (decide (p = q)) as [<-|Hne].
    + rewrite lookup_insert_eq, Hp. reflexivity.
    + rewrite lookup_insert_ne by exact Hne. reflexivity.
  - intros p q m d. unfold mapDisk_chmod.
    destruct (d !! p) as [[c m0]|] eqn:Hp; [|reflexivity].
    destruct (decide (p = q)) as [<-|Hne].
    + rewrite lookup_insert_eq, Hp. apply bool_decide_ext. split; eauto.
    + rewrite lookup_insert_ne by exact Hne. reflexivity.
  - intros p m d. unfold mapDisk_chmod. intros Hp.
    apply bool_decide_eq_true in Hp as [[c m0] Hp]. rewrite Hp.
    rewrite lookup_insert_eq. reflexivity.
Defined.

(** ** Scenarios, continued *)

(** A platform that fails to resume any conversation. *)
Definition unreachablePlatform : Platform :=
  {| sendActivity_outcome := sendActivity_outcome (Platform := channelPlatform);
     createConversationAsync_outcome :=
       createConversationAsync_outcome (Platform := channelPlatform);
     continueConversation_outcome := fun _ _ => NoTurn (Throw serverError);
     process_outcome := process_outcome (Platform := channelPlatform);
     getConversationReference :=
       getConversationReference (Platform := channelPlatform);
     member_truthy := storedMember |}.

(** A platform that resumes a conversation, runs the callback, accepts
    every send and then fails. *)
Definition latePlatform : Platform :=
  {| sendActivity_outcome := sendActivity_outcome (Platform := channelPlatform);
     createConversationAsync_outcome :=
       createConversationAsync_outcome (Platform := channelPlatform);
     continueConversation_outcome := fun _ _ =>
       InTurn (turnOn 2 "resumed" roomConversation)
         (fun _ => Throw serverError);
     process_outcome := process_outcome (Platform := channelPlatform);
     getConversationReference :=
       getConversationReference (Platform := channelPlatform);
     member_truthy := storedMember |}.

(** A message of a personal conversation, and one of a channel. *)
Definition personalMembers : list (jsstring * JSON) :=
  [(js "text", JString (js " deploy now "));
   (js "conversation",
    JObject [(js "id", JString (js "a:1"));
             (js "conversationType", JString (js "personal"))])].

Definition personalPayload : JSON := JObject personalMembers.



(** A payload whose text is a number. *)
Definition numberPayload : JSON :=
  JObject [(js "text", JNumber (js "5"))].

Definition numberRequest : Request :=
  {| url := js "/api/messages"; body := numberPayload |}.

(** The normaliser of the robot [hubot], which has no alias, on payloads
    without mention entities. *)
Definition normalizePlain (payload : JSON) : Completion JSON :=
  match normalizeIncomingActivity (T := plainTeams) hubot AliasFalse payload with
  | Some c => c
  | None => Normal payload
  end.

(** A mention in mixed casing before plain text. *)
Definition taggedText : list Piece :=
  [Tagged (js "<at>") (js "Hubot") (js "</AT>"); Plain (js " deploy")].

(** * Properties *)

(** ** Code units *)

Ltac bool_prop :=
  repeat (rewrite ?orb_true_iff, ?andb_true_iff, ?orb_false_iff,
            ?andb_false_iff, ?negb_true_iff, ?negb_false_iff,
            ?N.eqb_eq, ?N.eqb_neq, ?N.leb_le, ?N.leb_gt,
            ?N.ltb_lt, ?N.ltb_ge in *).

Lemma js_at : js "@" = [64%N].
Proof. reflexivity. Qed.

Lemma isWordChar_not_trimmable (c : N) :
  isWordChar c = true -> isTrimmable c = false.
Proof.
  unfold isWordChar, isTrimmable, isWhiteSpace, isLineTerminator, unit_in.
  intros Hw. bool_prop. lia.
Qed.

Lemma isWordChar_ascii (c : N) : isWordChar c = true -> (c < 128)%N.
Proof. unfold isWordChar, unit_in. intros Hw. bool_prop. lia. Qed.

Lemma isWordChar_asciiUpper (c : N) :
  isWordChar (asciiUpper c) = isWordChar c.
Proof.
  unfold asciiUpper. destruct (unit_in c 97 122) eqn:E; [|reflexivity].
  unfold isWordChar. rewrite E.
  assert (unit_in (c - 32) 65 90 = true) as ->.
  { unfold unit_in in *. bool_prop. lia. }
  rewrite ?orb_true_r. reflexivity.
Qed.

Lemma isSyntaxCharacter_true (c : N) :
  isSyntaxCharacter c = true ->
  c <> 98%N /\ In c syntaxCharacters.
Proof.
  unfold isSyntaxCharacter. rewrite existsb_exists.
  intros (x & Hin & Heq). apply N.eqb_eq in Heq. subst x. split; [|done].
  intros ->. vm_compute in Hin. intuition discriminate.
Qed.

Lemma isSyntaxCharacter_false (c : N) :
  isSyntaxCharacter c = false -> c <> 92%N /\ c <> 94%N.
Proof.
  intros Hc. split; intros ->; vm_compute in Hc; discriminate.
Qed.

(** ** Trimming *)

Lemma trimStart_head (s : jsstring) (c : N) :
  head (trimStart s) = Some c -> isTrimmable c = false.
Proof.
  induction s as [|a s IH]; simpl; [done|].
  destruct (isTrimmable a) eqn:E; [exact IH|].
  simpl. intros [= <-]. exact E.
Qed.

Lemma trimStart_fixed (s : jsstring) :
  (forall c, head s = Some c -> isTrimmable c = false) -> trimStart s = s.
Proof.
  destruct s as [|a s]; simpl; [done|].
  intros Hh. rewrite (Hh a eq_refl). reflexivity.
Qed.

Lemma trimStart_snoc (s : jsstring) (c : N) :
  isTrimmable c = false -> trimStart (s ++ [c]) = trimStart s ++ [c].
Proof.
  intros Hc. induction s as [|a s IH]; simpl.
  - rewrite Hc. reflexivity.
  - destruct (isTrimmable a); [exact IH | reflexivity].
Qed.

Lemma trimEnd_cons (c : N) (s : jsstring) :
  isTrimmable c = false -> trimEnd (c :: s) = c :: trimEnd s.
Proof.
  intros Hc. unfold trimEnd.
  rewrite reverse_cons, trimStart_snoc by exact Hc.
  rewrite reverse_snoc. reflexivity.
Qed.

Lemma trimEnd_last (s : jsstring) (c : N) :
  last (trimEnd s) = Some c -> isTrimmable c = false.
Proof. unfold trimEnd. rewrite last_reverse. apply trimStart_head. Qed.

Lemma trimEnd_fixed (s : jsstring) :
  (forall c, last s = Some c -> isTrimmable c = false) -> trimEnd s = s.
Proof.
  intros Hl. unfold trimEnd. rewrite trimStart_fixed.
  - apply reverse_involutive.
  - intros c. rewrite head_reverse. apply Hl.
Qed.

Lemma trim_clean (s : jsstring) : clean (trim s).
Proof.
  unfold trim. split; [|apply trimEnd_last].
  destruct (trimStart s) as [|a x] eqn:E; [done|].
  assert (isTrimmable a = false) as Ha.
  { apply (trimStart_head s). rewrite E. reflexivity. }
  rewrite trimEnd_cons by exact Ha. simpl. intros c [= <-]. exact Ha.
Qed.

Lemma clean_trim (s : jsstring) : clean s -> trim s = s.
Proof.
  intros [Hh Hl]. unfold trim.
  rewrite (trimStart_fixed s Hh). apply trimEnd_fixed, Hl.
Qed.

Lemma trim_idempotent (s : jsstring) : trim (trim s) = trim s.
Proof. apply clean_trim, trim_clean. Qed.

Lemma lastIsWord_cons (c : N) (s : jsstring) :
  s <> [] -> lastIsWord (c :: s) = lastIsWord s.
Proof.
  intros Hs. unfold lastIsWord. rewrite last_cons.
  destruct (last s) eqn:E; [reflexivity|].
  apply last_None in E. contradiction.
Qed.

Lemma lastIsWord_nonempty (s : jsstring) : lastIsWord s = true -> s <> [].
Proof. intros Hs ->. discriminate. Qed.

(** [@name] followed by the tail of a trimmed text is trimmed. *)
Lemma clean_mention (r rest : jsstring) :
  lastIsWord r = true ->
  (forall c, last rest = Some c -> isTrimmable c = false) ->
  clean (js "@" ++ r ++ rest).
Proof.
  intros Hr Hrest. rewrite js_at. split; simpl.
  - intros c [= <-]. reflexivity.
  - intros c. rewrite last_cons, last_app.
    destruct (last rest) as [y|] eqn:Ey.
    + intros [= <-]. auto.
    + unfold lastIsWord in Hr. destruct (last r) as [z|]; [|discriminate].
      intros [= <-]. apply isWordChar_not_trimmable, Hr.
Qed.

Lemma clean_suffix (m rest : jsstring) (c : N) :
  clean (m ++ rest) -> last rest = Some c -> isTrimmable c = false.
Proof.
  intros [_ Hl] Hc. apply Hl. rewrite last_app, Hc. reflexivity.
Qed.

(** ** Patterns *)

Lemma parsePattern_escapeRegex (r tail : jsstring) :
  parsePattern (escapeRegex r ++ tail)
  = (fun ts => literal r ++ ts) <$> parsePattern tail.
Proof.
  induction r as [|c r IH]; simpl.
  - destruct (parsePattern tail); reflexivity.
  - destruct (isSyntaxCharacter c) eqn:Ec.
    + destruct (isSyntaxCharacter_true c Ec) as [Hb _].
      cbn [app parsePattern]. rewrite N.eqb_refl.
      apply N.eqb_neq in Hb. rewrite Hb, Ec, IH.
      destruct (parsePattern tail); reflexivity.
    + destruct (isSyntaxCharacter_false c Ec) as [H92 H94].
      cbn [app parsePattern].
      apply N.eqb_neq in H92, H94. rewrite H92, H94, Ec, IH.
      destruct (parsePattern tail); reflexivity.
Qed.

(** The pattern [#ensureMentionPrefix] builds from a name is the name,
    taken literally, between [^] and [\b]: escaping leaves no character of
    the name with a meaning of its own. *)
Lemma RegExp_new_mention (r : jsstring) :
  RegExp_new (js "^@" ++ escapeRegex r ++ js "\b") true
  = Some (mkRegExp (TAssertStart :: literal (js "@" ++ r) ++ [TWordBoundary]) true).
Proof.
  unfold RegExp_new.
  change (js "^@" ++ escapeRegex r ++ js "\b")
    with (94%N :: 64%N :: (escapeRegex r ++ js "\b")).
  cbn [parsePattern]. change (94 =? 92)%N with false.
  change (94 =? 94)%N with true. change (64 =? 92)%N with false.
  change (64 =? 94)%N with false. change (isSyntaxCharacter 64) with false.
  cbn iota. rewrite parsePattern_escapeRegex. reflexivity.
Qed.

Lemma RegExp_new_bare (r : jsstring) :
  RegExp_new (js "^" ++ escapeRegex r ++ js "\b") true
  = Some (mkRegExp (TAssertStart :: literal r ++ [TWordBoundary]) true).
Proof.
  unfold RegExp_new.
  change (js "^" ++ escapeRegex r ++ js "\b")
    with (94%N :: (escapeRegex r ++ js "\b")).
  cbn [parsePattern]. change (94 =? 92)%N with false.
  change (94 =? 94)%N with true.
  cbn iota. rewrite parsePattern_escapeRegex. reflexivity.
Qed.

Section PatternFacts.
Context {U : UnicodeCase}.

Lemma Canonicalize_ascii (c : N) : (c < 128)%N -> Canonicalize c = asciiUpper c.
Proof.
  intros Hc. unfold Canonicalize. rewrite toUpperCase_ascii by exact Hc.
  destruct (N.leb_spec 128 c); [lia | reflexivity].
Qed.

Lemma Canonicalize_high (c : N) : (128 <= c)%N -> (128 <= Canonicalize c)%N.
Proof.
  intros Hc. unfold Canonicalize.
  destruct (toUpperCase_unit c) as [cu|]; [|exact Hc].
  destruct (N.leb_spec 128 c); [|lia].
  destruct (N.ltb_spec cu 128); simpl; lia.
Qed.

Lemma asciiUpper_ascii (c : N) : (c < 128)%N -> (asciiUpper c < 128)%N.
Proof.
  unfold asciiUpper, unit_in. intros Hc.
  destruct (_ && _)%bool; lia.
Qed.

(** Case folding never turns a word character into another kind. *)
Lemma isWordChar_Canonicalize (a b : N) :
  Canonicalize a = Canonicalize b -> isWordChar a = true ->
  isWordChar b = true.
Proof.
  intros Hab Ha. pose proof (isWordChar_ascii a Ha) as Hlt.
  rewrite (Canonicalize_ascii a Hlt) in Hab.
  destruct (N.lt_ge_cases b 128) as [Hb|Hb].
  - rewrite (Canonicalize_ascii b Hb) in Hab.
    rewrite <- (isWordChar_asciiUpper b), <- Hab, isWordChar_asciiUpper.
    exact Ha.
  - pose proof (Canonicalize_high b Hb). pose proof (asciiUpper_ascii a Hlt).
    lia.
Qed.

Lemma sameIgnoringCase_refl (s : jsstring) : sameIgnoringCase s s.
Proof. induction s; constructor; auto. Qed.

Lemma sameIgnoringCase_lastIsWord (a b : jsstring) :
  sameIgnoringCase a b -> lastIsWord a = true -> lastIsWord b = true.
Proof.
  unfold lastIsWord. induction 1 as [|x y a b Hxy Hab IH]; [done|].
  destruct Hab as [|x' y' a b Hxy' Hab].
  - simpl. apply isWordChar_Canonicalize, Hxy.
  - rewrite !last_cons_cons. exact IH.
Qed.

Lemma literalPrefix_Some (p input m rest : jsstring) :
  literalPrefix p input = Some (m, rest) ->
  input = m ++ rest /\ sameIgnoringCase p m.
Proof.
  revert input m rest.
  induction p as [|a p IH]; intros input m rest; simpl.
  - intros [= <- <-]. split; [reflexivity | constructor].
  - destruct input as [|c input]; [done|].
    destruct (N.eqb_spec (Canonicalize a) (Canonicalize c)) as [Hac|]; [|done].
    destruct (literalPrefix p input) as [[m' rest']|] eqn:E; [|done].
    simpl. intros [= <- <-]. destruct (IH _ _ _ E) as [-> Hs].
    split; [reflexivity | constructor; assumption].
Qed.

Lemma literalPrefix_app (p m rest : jsstring) :
  sameIgnoringCase p m -> literalPrefix p (m ++ rest) = Some (m, rest).
Proof.
  induction 1 as [|a c p m Hac Hpm IH]; simpl; [reflexivity|].
  rewrite Hac, N.eqb_refl, IH. reflexivity.
Qed.

Lemma matchHere_star (ic : bool) (a : Atom) (ts : list Term)
    (prev : option N) (input : jsstring) :
  matchHere ic (TStar a :: ts) prev input
  = match input with
    | c :: rest =>
        if atomMatches ic a c
        then match matchHere ic (TStar a :: ts) (Some c) rest with
             | Some (m, r) => Some (c :: m, r)
             | None => matchHere ic ts prev input
             end
        else matchHere ic ts prev input
    | [] => matchHere ic ts prev input
    end.
Proof. destruct input; reflexivity. Qed.

Lemma matchHere_literal (p : jsstring) (ts : list Term) (prev : option N)
    (input : jsstring) :
  matchHere true (literal p ++ ts) prev input
  = match literalPrefix p input with
    | Some (m, rest) =>
        match matchHere true ts
                (match last m with Some c => Some c | None => prev end) rest with
        | Some (m', r) => Some (m ++ m', r)
        | None => None
        end
    | None => None
    end.
Proof.
  revert prev input. induction p as [|a p IH]; intros prev input.
  - simpl. destruct (matchHere true ts prev input) as [[m' r]|]; reflexivity.
  - cbn [literal map app matchHere literalPrefix atomMatches].
    destruct input as [|c input]; [reflexivity|].
    destruct (Canonicalize a =? Canonicalize c)%N; [|reflexivity].
    fold (literal p). rewrite IH.
    destruct (literalPrefix p input) as [[m rest]|]; [|reflexivity].
    cbn [consFst]. rewrite last_cons.
    destruct (last m); destruct (matchHere true ts _ rest) as [[m' r]|];
      reflexivity.
Qed.

Lemma searchFrom_anchored (re : RegExp) (ts : list Term)
    (before : jsstring) (p : N) (input : jsstring) :
  terms re = TAssertStart :: ts ->
  searchFrom re before (Some p) input = None.
Proof.
  intros Hre. revert before p.
  induction input as [|c input IH]; intros before p;
    simpl; rewrite Hre; simpl; auto.
Qed.

(** A pattern that starts with [^] matches at index 0 or nowhere. *)
Lemma RegExp_exec_anchored (re : RegExp) (ts : list Term) (s : jsstring) :
  terms re = TAssertStart :: ts ->
  RegExp_exec re s
  = match matchHere (ignoreCase re) ts None s with
    | Some (m, r) => Some ([], m, r)
    | None => None
    end.
Proof.
  intros Hre. unfold RegExp_exec.
  destruct s as [|c s]; simpl; rewrite Hre; simpl.
  - destruct (matchHere _ ts None []) as [[m r]|]; reflexivity.
  - destruct (matchHere _ ts None (c :: s)) as [[m r]|]; [reflexivity|].
    apply (searchFrom_anchored re ts); exact Hre.
Qed.

Lemma RegExp_exec_prefix (p s : jsstring) :
  RegExp_exec (mkRegExp (TAssertStart :: literal p ++ [TWordBoundary]) true) s
  = (fun '(m, rest) => ([], m, rest)) <$> prefixMatch p s.
Proof.
  rewrite (RegExp_exec_anchored _ (literal p ++ [TWordBoundary])) by reflexivity.
  cbn [ignoreCase]. rewrite matchHere_literal. unfold prefixMatch.
  destruct (literalPrefix p s) as [[m rest]|]; [|reflexivity].
  cbn [matchHere]. unfold boundaryBetween, lastIsWord, wordBefore, wordAfter.
  destruct (last m) as [c|]; destruct rest as [|d rest]; simpl;
    repeat match goal with
           | |- context [isWordChar ?x] => destruct (isWordChar x)
           end; simpl; rewrite ?app_nil_r; reflexivity.
Qed.

End PatternFacts.

(** ** The mention normaliser *)

Section MentionFacts.
Context {U : UnicodeCase}.

Lemma getSubstitution_cons (m b a : jsstring) (c : N) (t : jsstring) :
  getSubstitution m b a (c :: t)
  = if (c =? 36)%N then
      match t with
      | d :: t'' =>
          if (d =? 36)%N then 36%N :: getSubstitution m b a t''
          else if (d =? 38)%N then m ++ getSubstitution m b a t''
          else if (d =? 96)%N then b ++ getSubstitution m b a t''
          else if (d =? 39)%N then a ++ getSubstitution m b a t''
          else c :: getSubstitution m b a t
      | [] => [c]
      end
    else c :: getSubstitution m b a t.
Proof. reflexivity. Qed.

Lemma getSubstitution_plain (m b a t : jsstring) :
  plainTemplate t = true -> getSubstitution m b a t = t.
Proof.
  induction t as [|c t IH]; [reflexivity|].
  destruct t as [|d t].
  - intros _. simpl. destruct (c =? 36)%N; reflexivity.
  - cbn [plainTemplate]. intros Hp. apply andb_true_iff in Hp as [Hc Ht].
    specialize (IH Ht). rewrite getSubstitution_cons, IH.
    destruct (c =? 36)%N; [|reflexivity].
    simpl in Hc. apply negb_true_iff in Hc.
    repeat apply orb_false_elim in Hc as [Hc ?].
    rewrite Hc.
    repeat match goal with
           | Hx : (d =? _)%N = false |- _ => rewrite Hx; clear Hx
           end.
    reflexivity.
Qed.

Lemma plainTemplate_mention (r : jsstring) :
  plainTemplate r = true -> plainTemplate (js "@" ++ r) = true.
Proof. rewrite js_at. destruct r; intros Hr; [reflexivity | exact Hr]. Qed.

Lemma prefixMatch_Some (p s m rest : jsstring) :
  prefixMatch p s = Some (m, rest) ->
  s = m ++ rest /\ sameIgnoringCase p m /\ boundaryBetween m rest = true.
Proof.
  unfold prefixMatch.
  destruct (literalPrefix p s) as [[m' rest']|] eqn:E; [|done].
  destruct (boundaryBetween m' rest') eqn:Eb; [|done].
  intros [= <- <-]. destruct (literalPrefix_Some _ _ _ _ E). auto.
Qed.

Lemma prefixMatch_app (p m rest : jsstring) :
  sameIgnoringCase p m -> boundaryBetween m rest = true ->
  prefixMatch p (m ++ rest) = Some (m, rest).
Proof.
  intros Hs Hb. unfold prefixMatch.
  rewrite (literalPrefix_app p m rest Hs), Hb. reflexivity.
Qed.

(** What [#ensureMentionPrefix] computes for a non-empty name: it always
    yields a string, decided by the two prefix tests in order. *)
Lemma ensureMentionPrefix_name (text : value) (c : N) (r : jsstring) :
  let name := c :: r in
  let trimmed := trim (textOf text) in
  ensureMentionPrefix text (VStr name)
  = Some (VStr
      match trimmed with
      | [] => js "@" ++ name
      | _ :: _ =>
          match prefixMatch (js "@" ++ name) trimmed with
          | Some (m, rest) =>
              getSubstitution m [] rest (js "@" ++ name) ++ rest
          | None =>
              match prefixMatch name trimmed with
              | Some (m, rest) =>
                  getSubstitution m [] rest (js "@" ++ name) ++ rest
              | None => js "@" ++ name ++ js " " ++ trimmed
              end
          end
      end).
Proof.
  intros name trimmed. unfold ensureMentionPrefix.
  fold name. change (trim match text with VStr t => t | _ => [] end) with trimmed.
  destruct trimmed as [|d trimmed'] eqn:Et; [reflexivity|].
  rewrite RegExp_new_mention, RegExp_new_bare. cbn [mbind option_bind].
  unfold RegExp_test, String_replace. rewrite !RegExp_exec_prefix.
  destruct (prefixMatch (js "@" ++ name) (d :: trimmed')) as [[m rest]|];
    [reflexivity|].
  destruct (prefixMatch name (d :: trimmed')) as [[m rest]|]; reflexivity.
Qed.

(** The normaliser always answers: the patterns it builds stay inside the
    fragment, whatever the name. *)
Lemma ensureMentionPrefix_total (text robotName : value) :
  exists v, ensureMentionPrefix text robotName = Some v.
Proof.
  destruct robotName as [| |[|c r]]; try (eexists; reflexivity).
  rewrite ensureMentionPrefix_name. eexists. reflexivity.
Qed.

(** The shape of the result for a name that ends in a word character and
    is a plain template. *)
Lemma ensureMentionPrefix_shape (text : value) (r : jsstring) :
  wordName r ->
  exists rest,
    ensureMentionPrefix text (VStr r) = Some (VStr (js "@" ++ r ++ rest))
    /\ clean (js "@" ++ r ++ rest)
    /\ boundaryBetween (js "@" ++ r) rest = true
    /\ (forall m rest',
          trim (textOf text) = m ++ rest' ->
          sameIgnoringCase (js "@" ++ r) m ->
          boundaryBetween m rest' = true -> rest = rest').
Proof.
  intros [Hw Hp].
  pose proof (lastIsWord_nonempty r Hw) as Hne.
  assert (lastIsWord (js "@" ++ r) = true) as Hw'.
  { rewrite js_at. simpl. rewrite lastIsWord_cons; assumption. }
  assert (forall rest, boundaryBetween (js "@" ++ r) rest = true
                       <-> match rest with c :: _ => isWordChar c | [] => false end = false) as Hbd.
  { intros rest. unfold boundaryBetween. rewrite Hw'.
    destruct (match rest with [] => false | c :: _ => isWordChar c end); simpl;
      split; congruence. }
  destruct r as [|c r]; [done|].
  rewrite ensureMentionPrefix_name.
  pose proof (trim_clean (textOf text)) as Hclean.
  destruct (trim (textOf text)) as [|d T] eqn:ET.
  - exists []. rewrite app_nil_r. split; [reflexivity|].
    split; [|split].
    + rewrite <- (app_nil_r (c :: r)). apply clean_mention; [exact Hw | done].
    + apply Hbd. reflexivity.
    + intros m rest' Hsplit Hs. symmetry in Hsplit.
      apply app_eq_nil in Hsplit as [-> ->]. rewrite js_at in Hs. inversion Hs.
  - destruct (prefixMatch (js "@" ++ c :: r) (d :: T)) as [[m rest]|] eqn:E1.
    + destruct (prefixMatch_Some _ _ _ _ E1) as (Hsplit & Hs & Hb).
      exists rest.
      rewrite getSubstitution_plain by (apply plainTemplate_mention, Hp).
      rewrite <- app_assoc. split; [reflexivity|]. split; [|split].
      * apply clean_mention; [exact Hw|].
        intros x Hx. rewrite Hsplit in Hclean. eapply clean_suffix; eassumption.
      * apply Hbd. unfold boundaryBetween in Hb.
        rewrite (sameIgnoringCase_lastIsWord _ _ Hs Hw') in Hb.
        destruct (match rest with [] => false | x :: _ => isWordChar x end);
          [discriminate | reflexivity].
      * intros m2 rest2 Hsplit2 Hs2 Hb2.
        rewrite Hsplit2, (prefixMatch_app _ _ _ Hs2 Hb2) in E1. congruence.
    + assert (forall m rest', d :: T = m ++ rest' ->
                sameIgnoringCase (js "@" ++ c :: r) m ->
                boundaryBetween m rest' = true -> False) as Hno.
      { intros m2 rest2 Hsplit2 Hs2 Hb2.
        rewrite Hsplit2, (prefixMatch_app _ _ _ Hs2 Hb2) in E1. discriminate. }
      destruct (prefixMatch (c :: r) (d :: T)) as [[m rest]|] eqn:E2.
      * destruct (prefixMatch_Some _ _ _ _ E2) as (Hsplit & Hs & Hb).
        exists rest.
        rewrite getSubstitution_plain by (apply plainTemplate_mention, Hp).
        rewrite <- app_assoc. split; [reflexivity|]. split; [|split].
        -- apply clean_mention; [exact Hw|].
           intros x Hx. rewrite Hsplit in Hclean.
           eapply clean_suffix; eassumption.
        -- apply Hbd. unfold boundaryBetween in Hb.
           rewrite (sameIgnoringCase_lastIsWord _ _ Hs Hw) in Hb.
           destruct (match rest with [] => false | x :: _ => isWordChar x end);
             [discriminate | reflexivity].
        -- intros m2 rest2 Hsplit2 Hs2 Hb2. destruct (Hno _ _ Hsplit2 Hs2 Hb2).
      * exists (js " " ++ d :: T). split; [reflexivity|]. split; [|split].
        -- apply clean_mention; [exact Hw|].
           intros x Hx. apply (proj2 Hclean).
           change (js " " ++ d :: T) with ([32%N] ++ d :: T) in Hx.
           rewrite last_app in Hx.
           destruct (last (d :: T)) eqn:El; [exact Hx|].
           apply last_None in El. discriminate.
        -- apply Hbd. reflexivity.
        -- intros m2 rest2 Hsplit2 Hs2 Hb2. destruct (Hno _ _ Hsplit2 Hs2 Hb2).
Qed.

End MentionFacts.

(** ** The dispatcher loops *)

Section DispatchFacts.
Context {U : UnicodeCase} {J : JsonParser} {P : Platform}.
Variable robot : Robot.
Variable env : Env.

Lemma logSendFailure_entry (e : Error) :
  logSendFailure robot e = log (failureEntry robot e).
Proof.
  unfold logSendFailure, failureEntry.
  destruct (statusCode e) as [code|]; [|reflexivity].
  destruct (code =? 401)%N; reflexivity.
Qed.

Lemma isFailureEntry_failureEntry (e : Error) :
  isFailureEntry (failureEntry robot e) = true.
Proof.
  unfold failureEntry. destruct (statusCode e) as [code|]; [|reflexivity].
  destruct (code =? 401)%N; reflexivity.
Qed.

(** One iteration of the loop of the resumed-conversation path. *)
Lemma sendToRoom_loop_cons (context : TurnContext) (msg : jsstring)
    (strings : list jsstring) (responses : list ResourceResponse) (w : World) :
  sendToRoom_loop robot context (msg :: strings) responses w
  = let w0 := match JSON_parse msg with
              | Some _ => w
              | None => snd (log (DebugNotACard msg) w)
              end in
    let o := sendActivity_outcome (calls w0) context (classify msg) in
    let w1 := record (CallSendActivity context (classify msg) o) w0 in
    match o with
    | Normal (Some r) => sendToRoom_loop robot context strings (responses ++ [r]) w1
    | Normal None => sendToRoom_loop robot context strings responses w1
    | Throw e =>
        sendToRoom_loop robot context strings responses
          (snd (logSendFailure robot e w1))
    end.
Proof.
  cbn [sendToRoom_loop]. unfold classify, cardPayload, textPayload,
    TurnContext_sendActivity, set_textFormat, MessageFactory_text.
  destruct (JSON_parse msg) as [card|];
    [|destruct (RegExp_test closingTagPattern msg)]; cbn [text speak];
    match goal with
    | |- context [sendActivity_outcome ?h ?c ?p] =>
        destruct (sendActivity_outcome h c p) as [[r|]|e]
    end; reflexivity.
Qed.

(** With a turn context as delegate, the loop of [sendWithDelegate] is the
    loop of the resumed-conversation path: the rule is applied identically
    on both. *)
Lemma sendWithDelegate_loop_Some (context : TurnContext)
    (strings : list jsstring) (responses : list ResourceResponse) (w : World) :
  sendWithDelegate_loop robot (Some context) strings responses w
  = sendToRoom_loop robot context strings responses w.
Proof.
  revert responses w. induction strings as [|msg strings IH];
    intros responses w; [reflexivity|].
  cbn [sendWithDelegate_loop sendToRoom_loop delegate_sendActivity].
  destruct (JSON_parse msg) as [card|];
    match goal with
    | |- context [TurnContext_sendActivity ?c ?p ?w] =>
        destruct (TurnContext_sendActivity c p w) as [[[r|]|e] w']
    end; apply IH.
Qed.

(** The loop sends every string, in order, whatever the earlier sends did;
    it collects the responses of the sends that gave one, logs one failure
    for each send that threw, and touches neither the cache, nor the
    events, nor the HTTP responses. *)
Lemma sendToRoom_loop_trace (context : TurnContext) (strings : list jsstring)
    (responses : list ResourceResponse) (w : World) :
  exists new entries,
    calls (snd (sendToRoom_loop robot context strings responses w))
    = calls w ++ new
    /\ payloads new = map classify strings
    /\ length new = length strings
    /\ answered context (calls w) new
    /\ fst (sendToRoom_loop robot context strings responses w)
       = responses ++ acceptedResponses new
    /\ conversationReferences
         (snd (sendToRoom_loop robot context strings responses w))
       = conversationReferences w
    /\ emitted (snd (sendToRoom_loop robot context strings responses w))
       = emitted w
    /\ responded (snd (sendToRoom_loop robot context strings responses w))
       = responded w
    /\ logged (snd (sendToRoom_loop robot context strings responses w))
       = logged w ++ entries
    /\ List.filter isFailureEntry entries
       = map (failureEntry robot) (thrownErrors new).
Proof.
  revert responses w. induction strings as [|msg strings IH];
    intros responses w.
  - exists [], []. simpl. rewrite !app_nil_r. repeat split.
    intros pre c post Heq. destruct pre; discriminate.
  - rewrite sendToRoom_loop_cons. cbv zeta.
    set (w0 := match JSON_parse msg with
               | Some _ => w
               | None => snd (log (DebugNotACard msg) w)
               end).
    assert (exists e0,
              logged w0 = logged w ++ e0
              /\ List.filter isFailureEntry e0 = []
              /\ calls w0 = calls w
              /\ conversationReferences w0 = conversationReferences w
              /\ emitted w0 = emitted w /\ responded w0 = responded w)
      as (e0 & Hl0 & Hf0 & Hc0 & Hr0 & He0 & Hp0).
    { unfold w0. destruct (JSON_parse msg);
        [exists [] | exists [DebugNotACard msg]];
        simpl; rewrite ?app_nil_r; repeat split. }
    set (o := sendActivity_outcome (calls w0) context (classify msg)).
    set (call := CallSendActivity context (classify msg) o).
    assert (exists w2 rs e1,
              match o with
              | Normal (Some r) =>
                  sendToRoom_loop robot context strings (responses ++ [r])
                    (record call w0)
              | Normal None =>
                  sendToRoom_loop robot context strings responses (record call w0)
              | Throw e =>
                  sendToRoom_loop robot context strings responses
                    (snd (logSendFailure robot e (record call w0)))
              end = sendToRoom_loop robot context strings rs w2
              /\ calls w2 = calls w ++ [call]
              /\ conversationReferences w2 = conversationReferences w
              /\ emitted w2 = emitted w /\ responded w2 = responded w
              /\ rs = responses ++ acceptedResponses [call]
              /\ logged w2 = logged w0 ++ e1
              /\ List.filter isFailureEntry e1
                 = map (failureEntry robot) (thrownErrors [call]))
      as (w2 & rs & e1 & -> & Hc2 & Hr2 & He2 & Hp2 & -> & Hl2 & Hf2).
    { unfold call. destruct o as [[r|]|e].
      - eexists _, _, []. split; [reflexivity|]. simpl.
        rewrite Hc0, Hr0, He0, Hp0, app_nil_r. repeat split.
      - eexists _, _, []. split; [reflexivity|]. simpl.
        rewrite Hc0, Hr0, He0, Hp0, !app_nil_r. repeat split.
      - rewrite logSendFailure_entry.
        eexists _, _, [failureEntry robot e]. split; [reflexivity|]. simpl.
        rewrite Hc0, Hr0, He0, Hp0, app_nil_r, isFailureEntry_failureEntry.
        repeat split. }
    destruct (IH (responses ++ acceptedResponses [call]) w2)
      as (new & entries & Hcalls & Hpay & Hlen & Hall & Hres & Hrefs & Hem
          & Hresp & Hlog & Hfail).
    exists (call :: new), (e0 ++ e1 ++ entries).
    rewrite Hcalls, Hres, Hrefs, Hem, Hresp, Hlog, Hc2, Hr2, He2, Hp2, Hl2, Hl0.
    rewrite <- !app_assoc. repeat split.
    + change (payloads (call :: new)) with (classify msg :: payloads new).
      rewrite Hpay. reflexivity.
    + simpl. rewrite Hlen. reflexivity.
    + intros pre c post Heq. destruct pre as [|x pre].
      * injection Heq as <- _. exists (classify msg).
        unfold call, o. rewrite Hc0, app_nil_r. reflexivity.
      * injection Heq as <- Heq. destruct (Hall pre c post Heq) as [p ->].
        exists p. rewrite Hc2, <- app_assoc. reflexivity.
    + f_equal. unfold acceptedResponses. rewrite <- omap_app. reflexivity.
    + rewrite !List.filter_app, Hf0, Hf2, Hfail.
      change (call :: new) with ([call] ++ new).
      unfold thrownErrors. rewrite omap_app, map_app. reflexivity.
Qed.

Lemma answered_sends (context : TurnContext)
    (history new : list PlatformCall) :
  answered context history new ->
  Forall (fun c => isSendActivity c = true) new.
Proof.
  intros Hall. apply Forall_forall. intros c Hin.
  apply list_elem_of_split in Hin as (pre & post & ->).
  destruct (Hall pre c post eq_refl) as [p ->]. reflexivity.
Qed.

(** Without a delegate no send reaches the platform: each attempt fails on
    the missing handle and is logged. *)
Lemma sendWithDelegate_loop_None (strings : list jsstring)
    (responses : list ResourceResponse) (w : World) :
  sendWithDelegate_loop robot None strings responses w
  = (responses,
     {| conversationReferences := conversationReferences w;
        calls := calls w;
        logged := logged w
          ++ flat_map (fun s =>
               match JSON_parse s with
               | Some _ => []
               | None => [DebugNotACard s]
               end ++ [ErrorSendFailed (robot_name robot) TypeError]) strings;
        emitted := emitted w;
        responded := responded w |}).
Proof.
  revert w. induction strings as [|msg strings IH]; intros w.
  - simpl. rewrite app_nil_r. destruct w; reflexivity.
  - cbn [sendWithDelegate_loop delegate_sendActivity flat_map].
    destruct (JSON_parse msg) as [card|]; cbn; rewrite IH; cbn;
      rewrite <- ?app_assoc; reflexivity.
Qed.

(** Reading the cache: a stored entry is what is read under its key; a
    read that finds nothing means that nothing is stored. *)
Lemma readReference_own (cache : gmap jsstring CacheEntry) (key : jsstring)
    (entry : CacheEntry) :
  cache !! key = Some entry -> readReference cache key = Some entry.
Proof. intros H. unfold readReference. rewrite H. reflexivity. Qed.

Lemma readReference_None (cache : gmap jsstring CacheEntry) (key : jsstring) :
  readReference cache key = None -> cache !! key = None.
Proof. unfold readReference. destruct (cache !! key); [discriminate | auto]. Qed.

Lemma readReference_insert_other (cache : gmap jsstring CacheEntry)
    (key other : jsstring) (entry : CacheEntry) :
  other <> key -> key <> js "__proto__" ->
  readReference (<[key := entry]> cache) other = readReference cache other.
Proof.
  intros Hother Hproto. unfold readReference.
  rewrite !lookup_insert_ne by congruence. reflexivity.
Qed.

Lemma newCalls_app {A} (m : Action A) (w : World) (new : list PlatformCall) :
  calls (snd (m w)) = calls w ++ new -> newCalls m w = new.
Proof. intros Hc. unfold newCalls. rewrite Hc. apply drop_app_length. Qed.

End DispatchFacts.

(** ** The closing-tag test *)

Section ClosingTag.
Context {U : UnicodeCase}.

Lemma matchHere_close (prev : option N) (input : jsstring) :
  matchHere false [TGroupClose; TAtom (AChar 62)] prev input
  = match input with
    | c :: r => if (62 =? c)%N then Some ([c], r) else None
    | [] => None
    end.
Proof.
  destruct input as [|c r]; [reflexivity|].
  simpl. destruct (62 =? c)%N; reflexivity.
Qed.

Lemma matchHere_run (prev : option N) (input : jsstring) :
  is_Some (matchHere false [TStar ADot; TGroupClose; TAtom (AChar 62)]
             prev input)
  <-> exists mid post,
        input = mid ++ 62%N :: post
        /\ Forall (fun c => isLineTerminator c = false) mid.
Proof.
  revert prev. induction input as [|c input IH]; intros prev;
    rewrite matchHere_star, matchHere_close.
  - split; [intros [? [=]]|].
    intros (mid & post & Heq & _). destruct mid; discriminate.
  - cbn [atomMatches]. destruct (isLineTerminator c) eqn:Elt; cbn [negb].
    + destruct (N.eqb_spec 62 c) as [<-|Hne]; [discriminate Elt|].
      split; [intros [? [=]]|].
      intros (mid & post & Heq & Hall). destruct mid as [|d mid].
      * injection Heq as ->. contradiction.
      * injection Heq as <- _. inversion Hall; congruence.
    + destruct (matchHere false _ (Some c) input) as [[m r]|] eqn:Es.
      * split; [intros _ | intros _; eexists; reflexivity].
        destruct (proj1 (IH (Some c))) as (mid & post & -> & Hall).
        { rewrite Es. eexists; reflexivity. }
        exists (c :: mid), post. split; [reflexivity|].
        constructor; assumption.
      * destruct (N.eqb_spec 62 c) as [<-|Hne].
        -- split; [intros _ | intros _; eexists; reflexivity].
           exists [], input. split; [reflexivity | constructor].
        -- split; [intros [? [=]]|].
           intros (mid & post & Heq & Hall). destruct mid as [|d mid].
           ++ injection Heq as ->. contradiction.
           ++ injection Heq as <- ->. inversion Hall; subst.
              destruct (proj2 (IH (Some c))) as [x Hx]; [eauto|].
              rewrite Es in Hx. discriminate.
Qed.

Lemma matchHere_atom (ic : bool) (a : Atom) (ts : list Term)
    (prev : option N) (c : N) (rest : jsstring) :
  matchHere ic (TAtom a :: ts) prev (c :: rest)
  = if atomMatches ic a c
    then match matchHere ic ts (Some c) rest with
         | Some (m, r) => Some (c :: m, r)
         | None => None
         end
    else None.
Proof. reflexivity. Qed.

Lemma matchHere_groupOpen (ic : bool) (ts : list Term) (prev : option N)
    (input : jsstring) :
  matchHere ic (TGroupOpen :: ts) prev input = matchHere ic ts prev input.
Proof. destruct ts; reflexivity. Qed.

Lemma matchHere_closingTag (prev : option N) (input : jsstring) :
  is_Some (matchHere false (terms closingTagPattern) prev input)
  <-> exists mid post,
        input = js "</" ++ mid ++ js ">" ++ post
        /\ Forall (fun c => isLineTerminator c = false) mid.
Proof.
  change (js "</") with [60%N; 47%N]. change (js ">") with [62%N].
  cbn [terms closingTagPattern].
  assert (forall P : Prop, (P -> False) -> is_Some (@None (jsstring * jsstring)) <-> P)
    as Hnone.
  { intros P HP. split; [intros [? [=]] | intros HP'; destruct (HP HP')]. }
  destruct input as [|a [|b input]].
  - refine (Hnone _ _). intros (? & ? & Heq & _). simpl in Heq. congruence.
  - cbn [matchHere atomMatches]. destruct (60 =? a)%N;
      refine (Hnone _ _); intros (? & ? & Heq & _); simpl in Heq; congruence.
  - rewrite !matchHere_atom, matchHere_groupOpen. cbn [atomMatches].
    pose proof (matchHere_run (Some b) input) as Hrun.
    destruct (N.eqb_spec 60 a) as [<-|Ha].
    + destruct (N.eqb_spec 47 b) as [<-|Hb].
      * destruct (matchHere false [TStar ADot; TGroupClose; TAtom (AChar 62)]
                    (Some 47%N) input) as [[m r]|].
        -- split; [intros _ | intros _; eexists; reflexivity].
           destruct (proj1 Hrun) as (mid & post & -> & Hall);
             [eexists; reflexivity|].
           exists mid, post. split; [reflexivity | exact Hall].
        -- refine (Hnone _ _). intros (mid & post & Heq & Hall).
           simpl in Heq. injection Heq as ->.
           destruct (proj2 Hrun) as [x Hx]; [eauto | discriminate].
      * refine (Hnone _ _). intros (? & ? & Heq & _). simpl in Heq. congruence.
    + refine (Hnone _ _). intros (? & ? & Heq & _). simpl in Heq. congruence.
Qed.

Lemma searchFrom_closingTag (before : jsstring) (prev : option N)
    (input : jsstring) :
  is_Some (searchFrom closingTagPattern before prev input)
  <-> hasClosingTag input.
Proof.
  unfold hasClosingTag. revert before prev.
  induction input as [|c input IH]; intros before prev; cbn [searchFrom];
    change (ignoreCase closingTagPattern) with false.
  - pose proof (matchHere_closingTag prev []) as Hhere.
    destruct (matchHere false (terms closingTagPattern) prev []) as [[m r]|].
    + destruct (proj1 Hhere) as (mid & post & [=] & _); eauto.
    + split; [intros [? [=]]|].
      intros (pre & mid & post & Heq & _). destruct pre; discriminate.
  - pose proof (matchHere_closingTag prev (c :: input)) as Hhere.
    destruct (matchHere false (terms closingTagPattern) prev (c :: input))
      as [[m r]|].
    + split; [intros _ | intros _; eexists; reflexivity].
      destruct (proj1 Hhere) as (mid & post & Heq & Hall); [eauto|].
      exists [], mid, post. split; [exact Heq | exact Hall].
    + rewrite IH. split.
      * intros (pre & mid & post & -> & Hall).
        exists (c :: pre), mid, post. split; [reflexivity | exact Hall].
      * intros (pre & mid & post & Heq & Hall). destruct pre as [|d pre].
        -- destruct (proj2 Hhere) as [x Hx]; [eauto | discriminate].
        -- injection Heq as <- ->. eauto.
Qed.

(** The test of the dispatcher succeeds exactly on the strings that hold
    [</], then characters of one line, then [>]. *)
Lemma RegExp_test_closingTag (s : jsstring) :
  RegExp_test closingTagPattern s = true <-> hasClosingTag s.
Proof.
  rewrite <- (searchFrom_closingTag [] None s).
  unfold RegExp_test, RegExp_exec.
  destruct (searchFrom closingTagPattern [] None s).
  - split; [eauto | reflexivity].
  - split; [discriminate | intros [? [=]]].
Qed.

End ClosingTag.

(** * The claims *)

(** ** Mention normaliser *)

(** C5, as amended. For a robot name that ends in a word character and
    holds none of the replacement patterns [$$], [$&], [$`], [$'], and for
    every input string: the result is a string that trimming leaves
    unchanged, and it is [@name] alone or [@name] followed by a word
    boundary. Moreover, if the trimmed input starts with [@name] in any
    casing, followed by a word boundary, only that prefix is rewritten, to
    [@name] exactly, and what follows it is kept. *)
Theorem ensureMentionPrefix_prefix {U : UnicodeCase} (r t : jsstring) :
  wordName r ->
  exists out,
    ensureMentionPrefix (VStr t) (VStr r) = Some (VStr out)
    /\ trim out = out
    /\ (trim out = js "@" ++ r
        \/ exists rest,
             trim out = js "@" ++ r ++ rest
             /\ boundaryBetween (js "@" ++ r) rest = true)
    /\ (forall m rest,
          trim t = m ++ rest ->
          sameIgnoringCase (js "@" ++ r) m ->
          boundaryBetween m rest = true ->
          out = js "@" ++ r ++ rest).
Proof.
  intros Hr.
  destruct (ensureMentionPrefix_shape (VStr t) r Hr)
    as (rest & Hout & Hclean & Hb & Hkeep).
  exists (js "@" ++ r ++ rest).
  rewrite (clean_trim _ Hclean).
  split; [exact Hout|]. split; [reflexivity|]. split.
  - right. exists rest. split; [reflexivity | exact Hb].
  - intros m rest' Hsplit Hs Hb'.
    rewrite (Hkeep m rest' Hsplit Hs Hb'). reflexivity.
Qed.

Lemma ensureMentionPrefix_prefix_witness :
  wordName (js "Bot")
  /\ exists out,
       ensureMentionPrefix (VStr (js "  @BOT hi ")) (VStr (js "Bot"))
       = Some (VStr out)
       /\ trim out = out
       /\ (trim out = js "@" ++ js "Bot"
           \/ exists rest,
                trim out = js "@" ++ js "Bot" ++ rest
                /\ boundaryBetween (js "@" ++ js "Bot") rest = true)
       /\ (forall m rest,
             trim (js "  @BOT hi ") = m ++ rest ->
             sameIgnoringCase (js "@" ++ js "Bot") m ->
             boundaryBetween m rest = true ->
             out = js "@" ++ js "Bot" ++ rest).
Proof.
  assert (wordName (js "Bot")) as Hr by (split; reflexivity).
  split; [exact Hr|].
  exact (ensureMentionPrefix_prefix (js "Bot") (js "  @BOT hi ") Hr).
Defined.

(** The boundary fails for the name [!], a usual Hubot alias: [help] becomes
    [@! help], where no word boundary follows [@!]. *)
Lemma bang_alias_has_no_boundary :
  ensureMentionPrefix (VStr (js "help")) (VStr (js "!"))
  = Some (VStr (js "@! help"))
  /\ trim (js "@! help") <> js "@" ++ js "!"
  /\ ~ (exists rest,
          trim (js "@! help") = js "@" ++ js "!" ++ rest
          /\ boundaryBetween (js "@" ++ js "!") rest = true).
Proof.
  split; [vm_compute; reflexivity|]. split; [vm_compute; discriminate|].
  intros (rest & Heq & Hb). vm_compute in Heq. injection Heq as <-.
  vm_compute in Hb. discriminate.
Qed.

(** C6, as amended. Applying the normaliser to its own result changes
    nothing, for a falsy robot name and for a name that ends in a word
    character and holds none of the replacement patterns. *)
Theorem ensureMentionPrefix_idempotent {U : UnicodeCase}
    (text robotName : value) :
  (truthy robotName = false
   \/ exists r, robotName = VStr r /\ wordName r) ->
  exists out,
    ensureMentionPrefix text robotName = Some out
    /\ ensureMentionPrefix out robotName = Some out.
Proof.
  intros [Hfalsy | (r & -> & Hr)].
  - assert (forall v, ensureMentionPrefix v robotName
                      = Some match v with VStr t => VStr (trim t) | _ => v end)
      as Hpass.
    { intros v. destruct robotName as [| |[|c r]]; try reflexivity.
      discriminate Hfalsy. }
    rewrite Hpass. eexists. split; [reflexivity|].
    rewrite Hpass. destruct text; try reflexivity.
    rewrite trim_idempotent. reflexivity.
  - destruct (ensureMentionPrefix_shape text r Hr)
      as (rest & Hout & Hclean & Hb & _).
    exists (VStr (js "@" ++ r ++ rest)). split; [exact Hout|].
    destruct (ensureMentionPrefix_shape (VStr (js "@" ++ r ++ rest)) r Hr)
      as (rest2 & Hout2 & _ & _ & Hkeep).
    rewrite Hout2.
    rewrite (Hkeep (js "@" ++ r) rest); [reflexivity | | | exact Hb].
    + cbn [textOf]. rewrite (clean_trim _ Hclean). apply app_assoc.
    + apply sameIgnoringCase_refl.
Qed.

Lemma ensureMentionPrefix_idempotent_witness :
  (truthy (VStr (js "Bot")) = false
   \/ exists r, VStr (js "Bot") = VStr r /\ wordName r)
  /\ exists out,
       ensureMentionPrefix (VStr (js "bot, deploy")) (VStr (js "Bot")) = Some out
       /\ ensureMentionPrefix out (VStr (js "Bot")) = Some out.
Proof.
  assert (truthy (VStr (js "Bot")) = false
          \/ exists r, VStr (js "Bot") = VStr r /\ wordName r) as Hr.
  { right. exists (js "Bot"). split; [reflexivity | split; reflexivity]. }
  split; [exact Hr|].
  exact (ensureMentionPrefix_idempotent (VStr (js "bot, deploy"))
           (VStr (js "Bot")) Hr).
Defined.

(** Idempotence fails for the name [!]: [help] becomes [@! help], and that becomes
    [@! @! help]. *)
Lemma bang_alias_is_prefixed_twice :
  ensureMentionPrefix (VStr (js "help")) (VStr (js "!"))
  = Some (VStr (js "@! help"))
  /\ ensureMentionPrefix (VStr (js "@! help")) (VStr (js "!"))
     = Some (VStr (js "@! @! help"))
  /\ js "@! @! help" <> js "@! help".
Proof.
  split; [vm_compute; reflexivity|]. split; [vm_compute; reflexivity|].
  vm_compute. discriminate.
Qed.

(** ** Outbound dispatcher *)

Section DispatcherClaims.
Context {U : UnicodeCase} {J : JsonParser} {P : Platform}.
Variable robot : Robot.
Variable env : Env.

(** What a direct delivery on a turn context does. *)
Lemma sendWithDelegate_trace (context : TurnContext) (envelope : Envelope)
    (strings : list jsstring) (w : World) :
  exists new entries w',
    sendWithDelegate robot (Some context) envelope strings w
    = (Normal (acceptedResponses new), w')
    /\ calls w' = calls w ++ new
    /\ payloads new = map classify strings
    /\ length new = length strings
    /\ answered context (calls w) new
    /\ conversationReferences w' = conversationReferences w
    /\ emitted w' = emitted w
    /\ responded w' = responded w
    /\ logged w' = logged w ++ entries
    /\ List.filter isFailureEntry entries
       = map (failureEntry robot) (thrownErrors new).
Proof.
  destruct (sendToRoom_loop_trace robot context strings [] w)
    as (new & entries & Hc & Hp & Hl & Ha & Hr & Hrefs & He & Hresp & Hlog
        & Hfail).
  unfold sendWithDelegate. rewrite sendWithDelegate_loop_Some.
  destruct (sendToRoom_loop robot context strings [] w) as [rs w'].
  simpl in *. subst rs. exists new, entries, w'. repeat split; assumption.
Qed.

(** What the push into a cached conversation does once the platform has
    resumed it. *)
Lemma sendToRoom_resumed_trace (r : Room) (entry : CacheEntry)
    (context : TurnContext) (settle : Completion unit -> Completion unit)
    (strings : list jsstring) (w : World) :
  readReference (conversationReferences w) (channel_id (channel (channelData r)))
  = Some entry ->
  continueConversation_outcome (calls w) entry = InTurn context settle ->
  exists new entries w',
    sendToRoom robot env r strings w
    = (match settle (Normal tt) with
       | Normal _ => Normal (acceptedResponses new)
       | Throw e => Throw e
       end, w')
    /\ calls w' = calls w ++ CallContinueConversation entry :: new
    /\ payloads new = map classify strings
    /\ length new = length strings
    /\ answered context (calls w ++ [CallContinueConversation entry]) new
    /\ conversationReferences w' = conversationReferences w
    /\ emitted w'
       = emitted w
         ++ match settle (Normal tt) with
            | Normal _ =>
                [EventSend {| room := Some r; user := None |}
                   (acceptedResponses new)]
            | Throw _ => []
            end
    /\ logged w' = logged w ++ entries
    /\ List.filter isFailureEntry entries
       = map (failureEntry robot) (thrownErrors new).
Proof.
  intros Hhit Hresume. unfold sendToRoom. rewrite Hhit, Hresume.
  destruct (sendToRoom_loop_trace robot context strings []
              (record (CallContinueConversation entry) w))
    as (new & entries & Hc & Hp & Hl & Ha & Hr & Hrefs & He & Hresp & Hlog
        & Hfail).
  destruct (sendToRoom_loop robot context strings []
              (record (CallContinueConversation entry) w)) as [rs w2].
  simpl in Hc, Hr, Hrefs, He, Hresp, Hlog. subst rs.
  rewrite <- app_assoc in Hc. simpl in Hc.
  destruct (settle (Normal tt)) as [[]|e].
  - eexists new, entries, _. split; [reflexivity|]. simpl.
    rewrite Hc, Hrefs, He, Hlog. repeat split; assumption.
  - exists new, entries, w2. rewrite app_nil_r. repeat split; assumption.
Qed.

Lemma payloads_lookup (new : list PlatformCall) (strings : list jsstring)
    (i : nat) (msg : jsstring) :
  payloads new = map classify strings -> strings !! i = Some msg ->
  payloads new !! i = Some (classify msg).
Proof.
  intros -> Hi. rewrite list_lookup_fmap, Hi. reflexivity.
Qed.

(** Every delivery path sends the strings it is given in their order,
    each as the rule classifies it. *)
Lemma delivery_paths (strings : list jsstring) :
  (forall context envelope w,
      payloads (newCalls (sendWithDelegate robot (Some context) envelope strings) w)
      = map classify strings)
  /\ (forall envelope u context w,
        user envelope = Some u -> message u = Some context ->
        payloads (newCalls (send robot env envelope strings) w)
        = map classify strings)
  /\ (forall envelope u context w,
        user envelope = Some u -> message u = Some context ->
        payloads (newCalls (reply robot envelope strings) w)
        = map classify strings)
  /\ (forall r entry context settle w,
        conversationReferences w !! channel_id (channel (channelData r))
        = Some entry ->
        continueConversation_outcome (calls w) entry = InTurn context settle ->
        payloads (newCalls (sendToRoom robot env r strings) w)
        = map classify strings)
  /\ (forall envelope r entry context settle w,
        room envelope = Some r -> user envelope = None ->
        conversationReferences w !! channel_id (channel (channelData r))
        = Some entry ->
        continueConversation_outcome (calls w) entry = InTurn context settle ->
        payloads (newCalls (send robot env envelope strings) w)
        = map classify strings).
Proof.
  assert (forall r entry context settle w,
            conversationReferences w !! channel_id (channel (channelData r))
            = Some entry ->
            continueConversation_outcome (calls w) entry
            = InTurn context settle ->
            payloads (newCalls (sendToRoom robot env r strings) w)
            = map classify strings) as Hroom.
  { intros r entry context settle w Hhit Hresume.
    destruct (sendToRoom_resumed_trace r entry context settle strings w
                (readReference_own _ _ _ Hhit) Hresume)
      as (new & entries & w' & Heq & Hc & Hp & _).
    rewrite (newCalls_app _ w (CallContinueConversation entry :: new));
      [exact Hp|].
    rewrite Heq. exact Hc. }
  split; [|split; [|split; [|split]]];
    [| | | exact Hroom
     | intros envelope r entry context settle w Hr Hu Hhit Hresume;
       unfold newCalls, send; rewrite Hr, Hu;
       exact (Hroom r entry context settle w Hhit Hresume)].
  - intros context envelope w.
    destruct (sendWithDelegate_trace context envelope strings w)
      as (new & entries & w' & Heq & Hc & Hp & _).
    rewrite (newCalls_app _ w new); [exact Hp|]. rewrite Heq. exact Hc.
  - intros envelope u context w Hu Hm.
    destruct (sendWithDelegate_trace context envelope strings w)
      as (new & entries & w' & Heq & Hc & Hp & _).
    rewrite (newCalls_app _ w new); [exact Hp|].
    unfold send, envelope_user_message, bind. rewrite Hu.
    destruct (room envelope); cbn; rewrite Hm, Heq; cbn; exact Hc.
  - intros envelope u context w Hu Hm.
    destruct (sendWithDelegate_trace context envelope strings w)
      as (new & entries & w' & Heq & Hc & Hp & _).
    rewrite (newCalls_app _ w new); [exact Hp|].
    unfold reply, envelope_user_message, bind. rewrite Hu.
    cbn. rewrite Hm, Heq. cbn. exact Hc.
Qed.

(** C1. A string that parses as JSON is handed to the platform as one
    adaptive-card attachment holding the parsed value, on every delivery
    path: a direct delivery on a turn context, [send] and [reply] on an
    envelope with a live turn, the push of [sendToRoom] into a cached
    conversation, and [send] on an envelope that leads there. The payload
    sent for the i-th string is that card, so it is no text message,
    whatever the string looks like. *)
Theorem json_string_sent_as_card (msg : jsstring) (card : JSON)
    (strings : list jsstring) (i : nat) :
  JSON_parse msg = Some card ->
  strings !! i = Some msg ->
  (forall context envelope w,
      payloads (newCalls (sendWithDelegate robot (Some context) envelope strings) w)
        !! i = Some (OutAttachments [adaptiveCard card]))
  /\ (forall envelope u context w,
        user envelope = Some u -> message u = Some context ->
        payloads (newCalls (send robot env envelope strings) w) !! i
        = Some (OutAttachments [adaptiveCard card]))
  /\ (forall envelope u context w,
        user envelope = Some u -> message u = Some context ->
        payloads (newCalls (reply robot envelope strings) w) !! i
        = Some (OutAttachments [adaptiveCard card]))
  /\ (forall r entry context settle w,
        conversationReferences w !! channel_id (channel (channelData r))
        = Some entry ->
        continueConversation_outcome (calls w) entry = InTurn context settle ->
        payloads (newCalls (sendToRoom robot env r strings) w) !! i
        = Some (OutAttachments [adaptiveCard card]))
  /\ (forall envelope r entry context settle w,
        room envelope = Some r -> user envelope = None ->
        conversationReferences w !! channel_id (channel (channelData r))
        = Some entry ->
        continueConversation_outcome (calls w) entry = InTurn context settle ->
        payloads (newCalls (send robot env envelope strings) w) !! i
        = Some (OutAttachments [adaptiveCard card])).
Proof.
  intros Hcard Hi.
  assert (classify msg = OutAttachments [adaptiveCard card]) as Hclass.
  { unfold classify. rewrite Hcard. reflexivity. }
  destruct (delivery_paths strings) as (Hd & Hs & Hr & Hroom & Hpush).
  rewrite <- Hclass.
  split; [|split; [|split; [|split]]]; intros.
  - rewrite Hd. rewrite list_lookup_fmap, Hi. reflexivity.
  - erewrite Hs by eassumption. rewrite list_lookup_fmap, Hi. reflexivity.
  - erewrite Hr by eassumption. rewrite list_lookup_fmap, Hi. reflexivity.
  - erewrite Hroom by eassumption. rewrite list_lookup_fmap, Hi. reflexivity.
  - erewrite Hpush by eassumption. rewrite list_lookup_fmap, Hi. reflexivity.
Qed.

(** C2. A string that does not parse as JSON is handed to the platform as
    a text message, on every delivery path; its format is XML exactly when
    the string holds [</], then characters of one line, then [>], and
    Markdown otherwise. *)
Theorem text_string_format (msg : jsstring) (strings : list jsstring)
    (i : nat) :
  JSON_parse msg = None ->
  strings !! i = Some msg ->
  exists format,
    (format = Xml <-> hasClosingTag msg)
    /\ (format = Markdown <-> ~ hasClosingTag msg)
    /\ (forall context envelope w,
          payloads (newCalls (sendWithDelegate robot (Some context) envelope strings) w)
            !! i = Some (textPayload msg format))
    /\ (forall envelope u context w,
          user envelope = Some u -> message u = Some context ->
          payloads (newCalls (send robot env envelope strings) w) !! i
          = Some (textPayload msg format))
    /\ (forall envelope u context w,
          user envelope = Some u -> message u = Some context ->
          payloads (newCalls (reply robot envelope strings) w) !! i
          = Some (textPayload msg format))
    /\ (forall r entry context settle w,
          conversationReferences w !! channel_id (channel (channelData r))
          = Some entry ->
          continueConversation_outcome (calls w) entry = InTurn context settle ->
          payloads (newCalls (sendToRoom robot env r strings) w) !! i
          = Some (textPayload msg format))
    /\ (forall envelope r entry context settle w,
          room envelope = Some r -> user envelope = None ->
          conversationReferences w !! channel_id (channel (channelData r))
          = Some entry ->
          continueConversation_outcome (calls w) entry = InTurn context settle ->
          payloads (newCalls (send robot env envelope strings) w) !! i
          = Some (textPayload msg format)).
Proof.
  intros Hjson Hi.
  exists (if RegExp_test closingTagPattern msg then Xml else Markdown).
  pose proof (RegExp_test_closingTag msg) as Htest.
  assert (classify msg
          = textPayload msg
              (if RegExp_test closingTagPattern msg then Xml else Markdown))
    as Hclass.
  { unfold classify. rewrite Hjson. reflexivity. }
  destruct (delivery_paths strings) as (Hd & Hs & Hr & Hroom & Hpush).
  rewrite <- Hclass.
  split; [|split; [|split; [|split; [|split; [|split]]]]]; intros.
  - destruct (RegExp_test closingTagPattern msg).
    + split; [intros _; apply Htest; reflexivity | reflexivity].
    + split; [discriminate | intros Ht; apply Htest in Ht; discriminate].
  - destruct (RegExp_test closingTagPattern msg).
    + split; [discriminate|]. intros Hn. destruct Hn. apply Htest. reflexivity.
    + split; [|reflexivity]. intros _ Ht. apply Htest in Ht. discriminate.
  - rewrite Hd. rewrite list_lookup_fmap, Hi. reflexivity.
  - erewrite Hs by eassumption. rewrite list_lookup_fmap, Hi. reflexivity.
  - erewrite Hr by eassumption. rewrite list_lookup_fmap, Hi. reflexivity.
  - erewrite Hroom by eassumption. rewrite list_lookup_fmap, Hi. reflexivity.
  - erewrite Hpush by eassumption. rewrite list_lookup_fmap, Hi. reflexivity.
Qed.

(** C3. A failed delivery does not stop the others. On a direct delivery
    and on the push into a cached conversation, every string is sent, in
    order, whatever the platform answered to the earlier sends; every send
    that throws is logged and nothing else comes of it; the call completes
    normally; and the responses returned are, in order, those the platform
    gave to the sends that succeeded. Without a delegate every attempt
    fails before it reaches the platform, and the call still completes,
    with no response. *)
Theorem failed_delivery_does_not_abort (strings : list jsstring) :
  (forall context envelope w,
      exists new entries w',
        sendWithDelegate robot (Some context) envelope strings w
        = (Normal (acceptedResponses new), w')
        /\ calls w' = calls w ++ new
        /\ payloads new = map classify strings
        /\ length new = length strings
        /\ answered context (calls w) new
        /\ logged w' = logged w ++ entries
        /\ List.filter isFailureEntry entries
           = map (failureEntry robot) (thrownErrors new))
  /\ (forall envelope w,
        exists w',
          sendWithDelegate robot None envelope strings w = (Normal [], w')
          /\ calls w' = calls w
          /\ length (List.filter isFailureEntry
                       (drop (length (logged w)) (logged w')))
             = length strings)
  /\ (forall r entry context settle w,
        conversationReferences w !! channel_id (channel (channelData r))
        = Some entry ->
        continueConversation_outcome (calls w) entry = InTurn context settle ->
        settle (Normal tt) = Normal tt ->
        exists new entries w',
          sendToRoom robot env r strings w
          = (Normal (acceptedResponses new), w')
          /\ calls w' = calls w ++ CallContinueConversation entry :: new
          /\ payloads new = map classify strings
          /\ length new = length strings
          /\ answered context (calls w ++ [CallContinueConversation entry]) new
          /\ logged w' = logged w ++ entries
          /\ List.filter isFailureEntry entries
             = map (failureEntry robot) (thrownErrors new)
          /\ emitted w'
             = emitted w
               ++ [EventSend {| room := Some r; user := None |}
                     (acceptedResponses new)]).
Proof.
  split; [|split].
  - intros context envelope w.
    destruct (sendWithDelegate_trace context envelope strings w)
      as (new & entries & w' & Heq & Hc & Hp & Hl & Ha & _ & _ & _ & Hlog
          & Hfail).
    exists new, entries, w'. repeat split; assumption.
  - intros envelope w. unfold sendWithDelegate.
    rewrite sendWithDelegate_loop_None. eexists. split; [reflexivity|].
    cbn [calls logged]. split; [reflexivity|].
    rewrite drop_app_length. clear w.
    induction strings as [|msg strings' IH]; [reflexivity|].
    cbn [flat_map]. rewrite !List.filter_app, !length_app, IH.
    destruct (JSON_parse msg); reflexivity.
  - intros r entry context settle w Hhit Hresume Hsettle.
    destruct (sendToRoom_resumed_trace r entry context settle strings w
                (readReference_own _ _ _ Hhit) Hresume)
      as (new & entries & w' & Heq & Hc & Hp & Hl & Ha & _ & He & Hlog & Hfail).
    rewrite Hsettle in Heq, He. exists new, entries, w'.
    repeat split; assumption.
Qed.

(** What the first push into a room without a cached conversation does,
    once the platform has created the conversation. *)
Lemma sendToRoom_created_trace (r : Room) (strings : list jsstring)
    (created : TurnContext) (settle : Completion unit -> Completion unit)
    (w : World) :
  let id := channel_id (channel (channelData r)) in
  let parameters := conversationParametersFor robot env r strings in
  let create :=
    CallCreateConversation (TEAMS_BOT_APP_ID env) (js "msteams")
      (serviceUrl env) parameters in
  let seed := OutString (join (js newline) strings) in
  let answer := sendActivity_outcome (calls w ++ [create]) created seed in
  let completed :=
    match answer with Normal _ => Normal tt | Throw e => Throw e end in
  readReference (conversationReferences w) id = None ->
  createConversationAsync_outcome (calls w) parameters = InTurn created settle ->
  exists w',
    sendToRoom robot env r strings w
    = (match settle completed with
       | Normal _ => Normal []
       | Throw e => Throw e
       end, w')
    /\ calls w' = calls w ++ [create; CallSendActivity created seed answer]
    /\ conversationReferences w'
       = <[conversation_id (conversation (activity created))
           := EntryConversation (conversation (activity created))]>
           (conversationReferences w)
    /\ emitted w' = emitted w.
Proof.
  intros id parameters create seed answer completed Hmiss Hcreate.
  unfold sendToRoom. fold id. rewrite Hmiss.
  unfold bind at 1. cbn [log]. unfold bind at 1.
  unfold client_createConversationAsync. cbn [calls].
  fold parameters. rewrite Hcreate.
  cbn [awaitSdk]. unfold onConversationCreated, bind, storeReference,
    TurnContext_sendActivity, record, ret. cbn [calls conversationReferences].
  fold create. fold seed. fold answer.
  destruct answer as [resp|e]; cbn; fold completed;
    destruct (settle _) as [[]|e']; cbn;
    eexists; (split; [reflexivity|]); cbn; rewrite <- app_assoc; auto.
Qed.

(** What a push into a room without a cache entry does, whatever the
    platform answers. *)
Lemma sendToRoom_missed (r : Room) (strings : list jsstring) (w : World) :
  let id := channel_id (channel (channelData r)) in
  let create :=
    CallCreateConversation (TEAMS_BOT_APP_ID env) (js "msteams")
      (serviceUrl env) (conversationParametersFor robot env r strings) in
  let seed := OutString (join (js newline) strings) in
  readReference (conversationReferences w) id = None ->
  exists c w' sent,
    sendToRoom robot env r strings w = (c, w')
    /\ (c = Normal [] \/ exists e, c = Throw e)
    /\ calls w' = calls w ++ create :: sent
    /\ (sent = []
        /\ conversationReferences w' = conversationReferences w
        \/ exists created answer,
             sent = [CallSendActivity created seed answer]
             /\ conversationReferences w'
                = <[conversation_id (conversation (activity created))
                    := EntryConversation (conversation (activity created))]>
                    (conversationReferences w))
    /\ emitted w' = emitted w
    /\ responded w' = responded w.
Proof.
  intros id create seed Hmiss.
  destruct (createConversationAsync_outcome (calls w)
              (conversationParametersFor robot env r strings))
    as [[[]|e]|created settle] eqn:Hcreate.
  - unfold sendToRoom. fold id. rewrite Hmiss.
    unfold bind at 1. cbn [log]. unfold bind at 1.
    unfold client_createConversationAsync. cbn [calls]. rewrite Hcreate.
    cbn. eexists _, _, []. split; [reflexivity|]. cbn. fold create.
    repeat split; auto.
  - unfold sendToRoom. fold id. rewrite Hmiss.
    unfold bind at 1. cbn [log]. unfold bind at 1.
    unfold client_createConversationAsync. cbn [calls]. rewrite Hcreate.
    cbn. eexists _, _, []. split; [reflexivity|]. cbn. fold create.
    repeat split; eauto.
  - destruct (sendToRoom_created_trace r strings created settle w
                Hmiss Hcreate) as (w' & Heq & Hc & Hrefs & He).
    unfold sendToRoom in Heq |- *. fold id in Heq |- *.
    rewrite Hmiss in Heq |- *.
    eexists _, w', _. split; [exact Heq|].
    split; [destruct (settle _) as [[]|e]; eauto|].
    split; [exact Hc|]. split; [right; eauto|]. split; [exact He|].
    revert Heq.
    unfold bind at 1. cbn [log]. unfold bind at 1.
    unfold client_createConversationAsync. cbn [calls]. rewrite Hcreate.
    cbn [awaitSdk]. unfold onConversationCreated, bind, storeReference,
      TurnContext_sendActivity, record, ret, log.
    cbn [calls conversationReferences].
    destruct (sendActivity_outcome _ _ _) as [resp|e]; cbn;
      destruct (settle _) as [[]|e']; cbn; intros [= <-]; reflexivity.
Qed.

(** C4, as amended. For a room whose channel id reads nothing from the
    cache (no entry stored under it, and nothing inherited under that
    name), when the platform creates a conversation and confirms it: the
    call asks for a conversation seeded with the joined text, the callback
    stores the new conversation under its own id and sends the joined text
    into it, and the call returns the empty list. A second push for the
    same room reads that entry if and only if the id of the new
    conversation is the channel id of the room. When the two differ (and
    the new id is not [__proto__]) the second push reads nothing again: it
    asks for another conversation and returns the empty list or throws.
    When they are the same, a second push of one string resumes the
    conversation with that entry and, when the platform accepts the send
    with a response, returns exactly that response. *)
Theorem sendToRoom_creates_then_resumes (r : Room) (strings : list jsstring)
    (again : jsstring) (created : TurnContext)
    (settle : Completion unit -> Completion unit) (w : World) :
  let id := channel_id (channel (channelData r)) in
  let created_id := conversation_id (conversation (activity created)) in
  let parameters := conversationParametersFor robot env r strings in
  let create :=
    CallCreateConversation (TEAMS_BOT_APP_ID env) (js "msteams")
      (serviceUrl env) parameters in
  let seed := OutString (join (js newline) strings) in
  let answer := sendActivity_outcome (calls w ++ [create]) created seed in
  let entry := EntryConversation (conversation (activity created)) in
  readReference (conversationReferences w) id = None ->
  createConversationAsync_outcome (calls w) parameters = InTurn created settle ->
  settle (match answer with Normal _ => Normal tt | Throw e => Throw e end)
  = Normal tt ->
  exists w1,
    sendToRoom robot env r strings w = (Normal [], w1)
    /\ parameters_activity parameters
       = MessageFactory_text (join (js newline) strings) None
    /\ calls w1 = calls w ++ [create; CallSendActivity created seed answer]
    /\ conversationReferences w1
       = <[created_id := entry]> (conversationReferences w)
    /\ (readReference (conversationReferences w1) id = Some entry
        <-> created_id = id)
    /\ (created_id <> id -> created_id <> js "__proto__" ->
        readReference (conversationReferences w1) id = None
        /\ exists c w2 sent,
             sendToRoom robot env r [again] w1 = (c, w2)
             /\ (c = Normal [] \/ exists e, c = Throw e)
             /\ calls w2
                = calls w1
                  ++ CallCreateConversation (TEAMS_BOT_APP_ID env)
                       (js "msteams") (serviceUrl env)
                       (conversationParametersFor robot env r [again])
                     :: sent)
    /\ (created_id = id ->
        forall resumed settle2 response,
          continueConversation_outcome (calls w1) entry
          = InTurn resumed settle2 ->
          sendActivity_outcome (calls w1 ++ [CallContinueConversation entry])
            resumed (classify again) = Normal (Some response) ->
          settle2 (Normal tt) = Normal tt ->
          exists w2,
            sendToRoom robot env r [again] w1 = (Normal [response], w2)
            /\ calls w2
               = calls w1 ++ [CallContinueConversation entry;
                              CallSendActivity resumed (classify again)
                                (Normal (Some response))]).
Proof.
  intros id created_id parameters create seed answer entry Hmiss Hcreate
    Hsettle.
  destruct (sendToRoom_created_trace r strings created settle w Hmiss Hcreate)
    as (w1 & Heq & Hc & Hrefs & _).
  fold id parameters create seed answer created_id entry in Heq, Hc, Hrefs.
  rewrite Hsettle in Heq. exists w1.
  pose proof (readReference_None _ _ Hmiss) as Hown.
  split; [exact Heq|]. split; [reflexivity|]. split; [exact Hc|].
  split; [exact Hrefs|]. split; [|split].
  - rewrite Hrefs. split.
    + intros Hread. destruct (decide (created_id = id)) as [|Hne]; [done|].
      exfalso. revert Hread. unfold readReference.
      rewrite (lookup_insert_ne _ created_id id) by exact Hne. rewrite Hown.
      destruct (<[created_id := entry]> (conversationReferences w)
                  !! js "__proto__") as [prototype|].
      * destruct (member_truthy prototype id); discriminate.
      * destruct (isObjectPrototypeKey id); discriminate.
    + intros <-. apply readReference_own, lookup_insert_eq.
  - intros Hne Hproto.
    assert (readReference (conversationReferences w1) id = None) as Hagain.
    { rewrite Hrefs, readReference_insert_other by congruence. exact Hmiss. }
    split; [exact Hagain|].
    destruct (sendToRoom_missed r [again] w1 Hagain)
      as (c & w2 & sent & Heq2 & Hc2 & Hcalls2 & _).
    exists c, w2, sent. auto.
  - intros Hid resumed settle2 response Hresume Hsend Hsettle2.
    assert (readReference (conversationReferences w1) id = Some entry) as Hhit.
    { rewrite Hrefs, Hid. apply readReference_own, lookup_insert_eq. }
    destruct (sendToRoom_resumed_trace r entry resumed settle2 [again] w1
                Hhit Hresume)
      as (new & entries & w2 & Heq2 & Hc2 & Hp & Hl & Ha & _).
    rewrite Hsettle2 in Heq2.
    destruct new as [|c [|c' new]]; try discriminate Hl.
    destruct (Ha [] c [] eq_refl) as [p ->].
    injection Hp as ->. rewrite app_nil_r, Hsend in Heq2, Hc2.
    exists w2. split; [exact Heq2 | exact Hc2].
Qed.

(** C7, as amended. [send] is the room push exactly on an envelope with a
    room and without a user. On an envelope with a user it makes no
    conversation call: it sends every string on [user.message], each as the
    rule classifies it, logging one error for every send that throws,
    returns the accepted responses and emits [send] with the envelope and
    those responses. When that handle is missing nothing reaches the
    platform: every attempt fails on the missing handle and is logged, in
    the order of the strings, after the debug line of a string that is
    not a card, and the list returned is empty. On an envelope with
    neither room nor user it throws and does nothing else. *)
Theorem send_routing (envelope : Envelope) (strings : list jsstring)
    (w : World) :
  (forall r, room envelope = Some r -> user envelope = None ->
     send robot env envelope strings w = sendToRoom robot env r strings w)
  /\ (forall u, user envelope = Some u ->
      exists new w',
        send robot env envelope strings w
        = (Normal (acceptedResponses new), w')
        /\ calls w' = calls w ++ new
        /\ Forall (fun c => isSendActivity c = true) new
        /\ emitted w'
           = emitted w ++ [EventSend envelope (acceptedResponses new)]
        /\ conversationReferences w' = conversationReferences w
        /\ match message u with
           | Some context =>
               payloads new = map classify strings
               /\ length new = length strings
               /\ answered context (calls w) new
               /\ exists entries,
                    logged w' = logged w ++ entries
                    /\ List.filter isFailureEntry entries
                       = map (failureEntry robot) (thrownErrors new)
           | None =>
               new = []
               /\ logged w'
                  = logged w
                    ++ flat_map (fun s =>
                         match JSON_parse s with
                         | Some _ => []
                         | None => [DebugNotACard s]
                         end ++ [ErrorSendFailed (robot_name robot) TypeError])
                       strings
           end)
  /\ (room envelope = None -> user envelope = None ->
      send robot env envelope strings w = (Throw TypeError, w)).
Proof.
  unfold send, envelope_user_message. split; [|split].
  - intros r -> ->. reflexivity.
  - intros u Hu. rewrite Hu.
    assert (match room envelope with
            | Some _ | None =>
                bind (ret (message u))
                  (fun delegate =>
                     bind (sendWithDelegate robot delegate envelope strings)
                       (fun responses =>
                          bind (emit (EventSend envelope responses))
                            (fun _ => ret responses)))
            end
            = bind (ret (message u))
                (fun delegate =>
                   bind (sendWithDelegate robot delegate envelope strings)
                     (fun responses =>
                        bind (emit (EventSend envelope responses))
                          (fun _ => ret responses)))) as ->
      by (destruct (room envelope); reflexivity).
    unfold bind at 1. cbn [ret].
    destruct (message u) as [context|].
    + destruct (sendWithDelegate_trace context envelope strings w)
        as (new & entries & w' & Heq & Hc & Hp & Hl & Ha & Hrefs & He & _
          & Hlog & Hfail).
      exists new. unfold bind at 1. rewrite Heq. cbn.
      eexists. split; [reflexivity|]. cbn. rewrite He.
      split; [exact Hc|]. split; [eapply answered_sends, Ha|].
      split; [reflexivity|]. split; [exact Hrefs|].
      split; [exact Hp|]. split; [exact Hl|]. split; [exact Ha|].
      exists entries. split; [exact Hlog | exact Hfail].
    + exists []. unfold bind at 1, sendWithDelegate.
      rewrite sendWithDelegate_loop_None. cbn.
      eexists. split; [reflexivity|]. cbn. rewrite app_nil_r.
      repeat split. constructor.
  - intros -> ->. reflexivity.
Qed.

(** C10, as amended. [reply] has no room fallback: on an envelope without
    a user it throws on reading [user.message], before anything else
    happens, also where [send] pushes into the room. On an envelope whose
    user has no message handle it does not throw: every delivery attempt
    fails on the missing handle and is logged, nothing reaches the
    platform, and [reply] returns the empty list and emits [reply]. *)
Theorem reply_without_turn (envelope : Envelope) (strings : list jsstring)
    (w : World) :
  (user envelope = None ->
   reply robot envelope strings w = (Throw TypeError, w)
   /\ forall r, room envelope = Some r ->
        send robot env envelope strings w = sendToRoom robot env r strings w)
  /\ (forall u, user envelope = Some u -> message u = None ->
      exists w',
        reply robot envelope strings w = (Normal [], w')
        /\ calls w' = calls w
        /\ conversationReferences w' = conversationReferences w
        /\ emitted w' = emitted w ++ [EventReply envelope []]
        /\ logged w'
           = logged w
             ++ flat_map (fun s =>
                  match JSON_parse s with
                  | Some _ => []
                  | None => [DebugNotACard s]
                  end ++ [ErrorSendFailed (robot_name robot) TypeError])
                strings).
Proof.
  split.
  - intros Hu. unfold reply, send, envelope_user_message, bind.
    rewrite Hu. split; [reflexivity|]. intros r ->. reflexivity.
  - intros u Hu Hm. unfold reply, envelope_user_message.
    rewrite Hu. unfold bind at 1. cbn [ret]. rewrite Hm.
    unfold bind at 1, sendWithDelegate.
    rewrite sendWithDelegate_loop_None. cbn.
    eexists. split; [reflexivity|]. cbn. auto.
Qed.

End DispatcherClaims.

(** ** Ingress endpoint *)

Lemma finishTurn_cases (settle : Completion unit -> Completion unit)
    (c : Completion unit) (w : World) :
  let ok := match c with Normal _ => [(200%N, js "ok")] | Throw _ => [] end in
  let turn := match c with Normal _ => Normal tt | Throw e => Throw e end in
  fst (finishTurn settle (c, w)) = Normal tt
  /\ responded (snd (finishTurn settle (c, w)))
     = responded w ++ ok
       ++ match settle turn with
          | Normal _ => []
          | Throw _ => [(500%N, js "service error")]
          end
  /\ logged (snd (finishTurn settle (c, w)))
     = logged w
       ++ match settle turn with
          | Normal _ => []
          | Throw e => [ErrorService e]
          end
  /\ conversationReferences (snd (finishTurn settle (c, w)))
     = conversationReferences w.
Proof.
  unfold finishTurn, respond, bind, log.
  destruct c as [[]|e]; cbn [fst snd];
    destruct (settle _) as [[]|e'];
    cbn [fst snd responded logged conversationReferences];
    rewrite ?app_nil_r, <- ?app_assoc; auto.
Qed.

Section IngressClaims.
Context {U : UnicodeCase} {J : JsonParser} {P : Platform}.
Variable robot : Robot.
Variable env : Env.
Variable normalizeIncomingActivity : JSON -> Completion JSON.

(** A push into a room that has a cache entry starts by resuming the
    cached conversation, whatever the platform does next. *)
Lemma sendToRoom_cached_call (r : Room) (entry : CacheEntry)
    (strings : list jsstring) (w : World) :
  readReference (conversationReferences w) (channel_id (channel (channelData r)))
  = Some entry ->
  exists rest,
    calls (snd (sendToRoom robot env r strings w))
    = calls w ++ CallContinueConversation entry :: rest.
Proof.
  intros Hhit.
  destruct (continueConversation_outcome (calls w) entry)
    as [[[]|e]|context settle] eqn:Hresume.
  - exists []. unfold sendToRoom. rewrite Hhit, Hresume. reflexivity.
  - exists []. unfold sendToRoom. rewrite Hhit, Hresume. reflexivity.
  - destruct (sendToRoom_resumed_trace robot env r entry context settle
                strings w Hhit Hresume) as (new & entries & w' & Heq & Hc & _).
    exists new. rewrite Heq. exact Hc.
Qed.

(** The POST route on a request whose turn the platform runs. *)
Lemma postMessages_turn (activityHandler : TurnContext -> Action unit)
    (req : Request) (body' : JSON) (context : TurnContext)
    (settle : Completion unit -> Completion unit) (w : World) :
  let req' := {| url := url req; body := body' |} in
  let key := conversation_id (conversation (activity context)) in
  let entry := EntryReference (getConversationReference (activity context)) in
  let w1 :=
    {| conversationReferences := <[key := entry]> (conversationReferences w);
       calls := calls w ++ [CallProcess req'];
       logged := logged w; emitted := emitted w; responded := responded w |} in
  normalizeIncomingActivity (body req) = Normal body' ->
  process_outcome (calls w) req' = InTurn context settle ->
  postMessages normalizeIncomingActivity activityHandler req w
  = finishTurn settle (activityHandler context w1).
Proof.
  intros req' key entry w1 Hbody Hturn.
  unfold postMessages, bind at 1. rewrite Hbody. fold req'.
  unfold tryCatch, client_process. rewrite Hturn. cbn [awaitSdk].
  change (onTurn activityHandler context (record (CallProcess req') w))
    with (bind (activityHandler context)
            (fun _ => respond 200 (js "ok")) w1).
  unfold bind at 1, finishTurn.
  destruct (activityHandler context w1) as [[[]|e] w2];
    [destruct (respond 200 (js "ok") w2) as [c w3]|];
    destruct (settle _) as [[]|e']; reflexivity.
Qed.

(** C8. When the platform runs the turn of a posted activity, the
    reference extracted from that activity is in the cache, under the
    conversation id of the activity, in the world the activity handler
    starts from: the handler is called once, on that world, and nothing
    but the recorded [process] call and the cache entry separates it from
    the world of the request. A push from inside the handler into a room
    whose channel id is that conversation id therefore resumes the
    conversation with this reference. *)
Theorem reference_cached_before_handler
    (activityHandler : TurnContext -> Action unit) (req : Request)
    (body' : JSON) (context : TurnContext)
    (settle : Completion unit -> Completion unit) (w : World) :
  let req' := {| url := url req; body := body' |} in
  let key := conversation_id (conversation (activity context)) in
  let entry := EntryReference (getConversationReference (activity context)) in
  let w1 :=
    {| conversationReferences := <[key := entry]> (conversationReferences w);
       calls := calls w ++ [CallProcess req'];
       logged := logged w; emitted := emitted w; responded := responded w |} in
  normalizeIncomingActivity (body req) = Normal body' ->
  process_outcome (calls w) req' = InTurn context settle ->
  postMessages normalizeIncomingActivity activityHandler req w
  = finishTurn settle (activityHandler context w1)
  /\ conversationReferences w1 !! key = Some entry
  /\ forall r strings,
       channel_id (channel (channelData r)) = key ->
       exists rest,
         calls (snd (sendToRoom robot env r strings w1))
         = calls w1 ++ CallContinueConversation entry :: rest.
Proof.
  intros req' key entry w1 Hbody Hturn.
  assert (conversationReferences w1 !! key = Some entry) as Hhit
    by apply lookup_insert_eq.
  split; [|split; [exact Hhit|]].
  - apply postMessages_turn; assumption.
  - intros r strings Hr. apply sendToRoom_cached_call, readReference_own.
    rewrite Hr. exact Hhit.
Qed.


End IngressClaims.

(** * Scenarios and witnesses *)

(** A card text after [hello], sent on a live turn: the second payload is
    the card. *)
Lemma json_string_sent_as_card_witness :
  JSON_parse cardText = Some cardValue
  /\ [js "hello"; cardText] !! 1%nat = Some cardText
  /\ payloads
       (newCalls
          (sendWithDelegate (P := channelPlatform) hubot (Some liveTurn)
             liveEnvelope [js "hello"; cardText]) emptyWorld) !! 1%nat
     = Some (OutAttachments [adaptiveCard cardValue]).
Proof.
  split; [reflexivity|]. split; [reflexivity|].
  exact (proj1 (json_string_sent_as_card (P := channelPlatform) hubot noEnv
                  cardText cardValue [js "hello"; cardText] 1%nat
                  eq_refl eq_refl)
           liveTurn liveEnvelope emptyWorld).
Defined.

(** The text of a bold tag: no JSON, sent as XML. *)
Lemma text_string_format_witness :
  JSON_parse (js "<b>hi</b>") = None
  /\ [js "<b>hi</b>"] !! 0%nat = Some (js "<b>hi</b>")
  /\ payloads
       (newCalls
          (sendWithDelegate (P := channelPlatform) hubot (Some liveTurn)
             liveEnvelope [js "<b>hi</b>"]) emptyWorld) !! 0%nat
     = Some (textPayload (js "<b>hi</b>") Xml).
Proof.
  assert (JSON_parse (js "<b>hi</b>") = None) as Hjson by reflexivity.
  split; [exact Hjson|]. split; [reflexivity|].
  destruct (text_string_format (P := channelPlatform) hubot noEnv
              (js "<b>hi</b>") [js "<b>hi</b>"] 0%nat Hjson eq_refl)
    as (format & Hxml & _ & Hdirect & _).
  assert (format = Xml) as Hformat.
  { apply Hxml. exists (js "<b>hi"), (js "b"), [].
    split; [reflexivity|]. repeat constructor. }
  rewrite <- Hformat. apply Hdirect.
Defined.

(** The two examples of C2, evaluated. *)
Example scenario_formats :
  payloads
    (newCalls
       (sendWithDelegate (P := channelPlatform) hubot (Some liveTurn)
          liveEnvelope [js "<b>hi</b>"; js "hello"]) emptyWorld)
  = [textPayload (js "<b>hi</b>") Xml; textPayload (js "hello") Markdown].
Proof. vm_compute. reflexivity. Qed.

(** Three strings pushed into a cached conversation, on a platform
    where the second send throws. *)
Lemma failed_delivery_does_not_abort_witness :
  conversationReferences cachedWorld
    !! channel_id (channel (channelData (roomOf "19:room")))
  = Some (EntryConversation roomConversation)
  /\ exists new w',
       sendToRoom (P := flakyPlatform) hubot noEnv (roomOf "19:room")
         [js "one"; js "two"; js "three"] cachedWorld
       = (Normal (acceptedResponses new), w')
       /\ calls w'
          = calls cachedWorld
            ++ CallContinueConversation (EntryConversation roomConversation)
               :: new
       /\ payloads new = map classify [js "one"; js "two"; js "three"]
       /\ length new = 3%nat.
Proof.
  split; [reflexivity|].
  destruct (proj2 (proj2 (failed_delivery_does_not_abort (P := flakyPlatform)
                            hubot noEnv [js "one"; js "two"; js "three"]))
              (roomOf "19:room") (EntryConversation roomConversation)
              (turnOn 2 "resumed" roomConversation) (fun c => c) cachedWorld
              eq_refl eq_refl eq_refl)
    as (new & entries & w' & Heq & Hc & Hp & Hl & _).
  exists new, w'. auto.
Defined.

(** The scenario of C3, evaluated: the first and the third response come
    back. *)
Example scenario_three_messages :
  fst (sendToRoom (P := flakyPlatform) hubot noEnv (roomOf "19:room")
         [js "one"; js "two"; js "three"] cachedWorld)
  = Normal [ {| response_id := js "response-0" |};
             {| response_id := js "response-2" |} ].
Proof. vm_compute. reflexivity. Qed.

(** Two pushes on a platform that names the new conversation after
    the channel: the first push returns nothing, the second one response. *)
Lemma sendToRoom_creates_then_resumes_witness :
  readReference (P := channelPlatform) (conversationReferences emptyWorld)
    (channel_id (channel (channelData (roomOf "19:room")))) = None
  /\ exists w1 w2,
       sendToRoom (P := channelPlatform) hubot noEnv (roomOf "19:room")
         [js "hi"] emptyWorld = (Normal [], w1)
       /\ readReference (P := channelPlatform) (conversationReferences w1)
            (js "19:room")
          = Some (EntryConversation roomConversation)
       /\ sendToRoom (P := channelPlatform) hubot noEnv (roomOf "19:room")
            [js "again"] w1
          = (Normal [ {| response_id := js "response-1" |} ], w2).
Proof.
  split; [reflexivity|].
  destruct (sendToRoom_creates_then_resumes (P := channelPlatform)
              hubot noEnv (roomOf "19:room") [js "hi"] (js "again")
              (turnOn 1 "created" roomConversation) (fun c => c) emptyWorld
              eq_refl eq_refl eq_refl)
    as (w1 & Hfirst & _ & Hc & _ & Hread & _ & Hsecond).
  destruct (Hsecond eq_refl (turnOn 2 "resumed" roomConversation) (fun c => c)
              {| response_id := js "response-1" |} eq_refl)
    as (w2 & Hagain & _); [rewrite Hc; reflexivity | reflexivity |].
  exists w1, w2. split; [exact Hfirst|].
  split; [apply Hread; reflexivity | exact Hagain].
Defined.

(** Two pushes on a platform that gives the new conversation an id of its
    own: the callback runs and stores the conversation under that id, the
    room id stays without an entry, a read under it finds nothing, and the
    second push returns nothing. *)
Lemma second_push_misses_own_id :
  fst (sendToRoom (P := threadPlatform) hubot noEnv (roomOf "19:room")
         [js "hi"] emptyWorld) = Normal []
  /\ conversationReferences afterFirstPush !! js "19:room;messageid=1"
     = Some (EntryConversation
               {| conversation_id := js "19:room;messageid=1";
                  conversationType := Some (js "channel") |})
  /\ conversationReferences afterFirstPush !! js "19:room" = None
  /\ readReference (P := threadPlatform) (conversationReferences afterFirstPush)
       (js "19:room") = None
  /\ fst (sendToRoom (P := threadPlatform) hubot noEnv (roomOf "19:room")
            [js "again"] afterFirstPush) = Normal [].
Proof. repeat split; vm_compute; reflexivity. Qed.

(** [send] on an envelope with a live turn. *)
Lemma send_routing_witness :
  user liveEnvelope = Some {| message := Some liveTurn |}
  /\ exists new w',
       send (P := channelPlatform) hubot noEnv liveEnvelope [js "hello"]
         emptyWorld
       = (Normal (acceptedResponses new), w')
       /\ payloads new = map classify [js "hello"]
       /\ emitted w' = [EventSend liveEnvelope (acceptedResponses new)].
Proof.
  split; [reflexivity|].
  destruct (proj1 (proj2 (send_routing (P := channelPlatform) hubot noEnv
                            liveEnvelope [js "hello"] emptyWorld))
              {| message := Some liveTurn |} eq_refl)
    as (new & w' & Heq & _ & _ & He & _ & Hp & _).
  exists new, w'. auto.
Defined.

(** On an envelope with neither room nor user [send] throws, and
    neither delivers nor emits anything. *)
Lemma empty_envelope_throws :
  send (P := channelPlatform) hubot noEnv emptyEnvelope [js "hi"] emptyWorld
  = (Throw TypeError, emptyWorld).
Proof. reflexivity. Qed.

(** [reply] on an envelope with only a room. *)
Lemma reply_without_turn_witness :
  user roomOnlyEnvelope = None
  /\ reply (P := channelPlatform) hubot roomOnlyEnvelope [js "hi"] emptyWorld
     = (Throw TypeError, emptyWorld).
Proof.
  split; [reflexivity|].
  exact (proj1 (proj1 (reply_without_turn (P := channelPlatform) hubot noEnv
                         roomOnlyEnvelope [js "hi"] emptyWorld) eq_refl)).
Defined.

(** On an envelope whose user has no message handle [reply]
    does not throw, it returns the empty list, having logged the failed
    attempt and emitted [reply]. *)
Lemma stale_envelope_reply_returns :
  reply (P := channelPlatform) hubot staleEnvelope [js "hi"] emptyWorld
  = (Normal [],
     {| conversationReferences := ∅; calls := [];
        logged := [DebugNotACard (js "hi");
                   ErrorSendFailed (js "hubot") TypeError];
        emitted := [EventReply staleEnvelope []];
        responded := [] |}).
Proof. vm_compute. reflexivity. Qed.

(** A posted activity of the conversation [19:room]: its reference is in
    the cache afterwards. *)
Lemma reference_cached_before_handler_witness :
  keepBody (body postedActivity) = Normal (body postedActivity)
  /\ conversationReferences
       (snd (postMessages (P := channelPlatform) keepBody quietHandler
               postedActivity emptyWorld)) !! js "19:room"
     = Some (EntryReference
               {| reference_activityId := js "inbound";
                  reference_conversation := roomConversation;
                  reference_serviceUrl := js "https://service.example/" |}).
Proof.
  split; [reflexivity|].
  rewrite (proj1 (reference_cached_before_handler (P := channelPlatform)
                    hubot noEnv keepBody quietHandler postedActivity
                    (body postedActivity)
                    (turnOn 3 "inbound" roomConversation) (fun c => c)
                    emptyWorld eq_refl eq_refl)).
  reflexivity.
Defined.



(** A string that parses as JSON and is pushed into a room without a
    cached conversation takes the creation path, which does not classify:
    the joined text seeds the new conversation and is sent as it is. *)
Example scenario_first_push_is_raw_text :
  newCalls (sendToRoom (P := channelPlatform) hubot noEnv (roomOf "19:room")
              [cardText]) emptyWorld
  = [ CallCreateConversation None (js "msteams")
        (js "https://smba.trafficmanager.net/amer/undefined/")
        (conversationParametersFor hubot noEnv (roomOf "19:room") [cardText]);
      CallSendActivity (turnOn 1 "created" roomConversation)
        (OutString cardText)
        (Normal (Some {| response_id := js "response-0" |})) ].
Proof. vm_compute. reflexivity. Qed.

(** A room named after a member that every object inherits: the read
    finds the inherited member, so the push resumes with it and asks for
    no new conversation. *)
Example scenario_inherited_name :
  newCalls (sendToRoom (P := channelPlatform) hubot noEnv
              (roomOf "constructor") [js "hi"]) emptyWorld
  = [CallContinueConversation (EntryBuiltin (js "constructor"))].
Proof. vm_compute. reflexivity. Qed.

(** A request that the platform settles by itself, without running a
    turn, gets no response from the route: what is answered then is the
    platform's business. *)
Example scenario_no_turn :
  postMessages (P := idlePlatform) keepBody quietHandler postedActivity
    emptyWorld
  = (Normal tt,
     {| conversationReferences := ∅;
        calls := [CallProcess postedActivity];
        logged := []; emitted := []; responded := [] |}).
Proof. reflexivity. Qed.

(** The branches of the mention normaliser, evaluated for the name [Bot]:
    a mention in another casing, the bare name, any other text, no text,
    and a word that only starts like the name. *)
Example scenario_mention_branches :
  ensureMentionPrefix (VStr (js "  @BOT hi ")) (VStr (js "Bot"))
  = Some (VStr (js "@Bot hi"))
  /\ ensureMentionPrefix (VStr (js "bot: deploy")) (VStr (js "Bot"))
     = Some (VStr (js "@Bot: deploy"))
  /\ ensureMentionPrefix (VStr (js "deploy")) (VStr (js "Bot"))
     = Some (VStr (js "@Bot deploy"))
  /\ ensureMentionPrefix (VStr (js "   ")) (VStr (js "Bot"))
     = Some (VStr (js "@Bot"))
  /\ ensureMentionPrefix (VStr (js "botany")) (VStr (js "Bot"))
     = Some (VStr (js "@Bot botany"))
  /\ ensureMentionPrefix (VStr (js " hi ")) VUndefined = Some (VStr (js "hi")).
Proof. repeat split; vm_compute; reflexivity. Qed.

(** A name is escaped for the pattern but not for the replacement
    template: in a name that holds [$$] the rewritten prefix loses one
    dollar sign. *)
Example scenario_dollar_name :
  ensureMentionPrefix (VStr (js "@a$$b go")) (VStr (js "a$$b"))
  = Some (VStr (js "@a$b go")).
Proof. vm_compute. reflexivity. Qed.

(** * Further properties

    Properties of the code beside those the specification states: of the
    same dispatcher, mention normaliser and endpoint, of the activity
    normaliser, and of the helpers of the bootstrap command. *)

(** ** Delivery *)

Section DeliveryFacts.
Context {U : UnicodeCase} {J : JsonParser} {P : Platform}.
Variable robot : Robot.
Variable env : Env.

Lemma acceptedResponses_length (new : list PlatformCall) :
  length (acceptedResponses new) <= length new.
Proof.
  unfold acceptedResponses.
  induction new as [|c new IH]; [reflexivity|].
  cbn [omap list_omap].
  destruct c as [? ? [[?|]|?]| | |]; cbn [length]; lia.
Qed.

(** The loop carries the responses it was given and appends its own. *)
Lemma sendWithDelegate_loop_responses (delegate : option TurnContext)
    (strings : list jsstring) (responses : list ResourceResponse) (w : World) :
  sendWithDelegate_loop robot delegate strings responses w
  = (responses ++ fst (sendWithDelegate_loop robot delegate strings [] w),
     snd (sendWithDelegate_loop robot delegate strings [] w)).
Proof.
  revert responses w.
  induction strings as [|msg strings IH]; intros responses w.
  - cbn. rewrite app_nil_r. reflexivity.
  - cbn [sendWithDelegate_loop].
    destruct (JSON_parse msg) as [card|];
      destruct (delegate_sendActivity delegate _ _) as [[[resp|]|e] w1];
      rewrite IH; try rewrite (IH [resp]); cbn [fst snd];
      rewrite ?app_assoc; reflexivity.
Qed.

Lemma sendWithDelegate_loop_app (delegate : option TurnContext)
    (first second : list jsstring) (responses : list ResourceResponse)
    (w : World) :
  sendWithDelegate_loop robot delegate (first ++ second) responses w
  = let '(responses1, w1) :=
      sendWithDelegate_loop robot delegate first responses w in
    sendWithDelegate_loop robot delegate second responses1 w1.
Proof.
  revert responses w.
  induction first as [|msg first IH]; intros responses w; [reflexivity|].
  cbn [app sendWithDelegate_loop].
  destruct (JSON_parse msg) as [card|];
    destruct (delegate_sendActivity delegate _ _) as [[[resp|]|e] w1];
    apply IH.
Qed.

Lemma sendWithDelegate_loop_length (delegate : option TurnContext)
    (strings : list jsstring) (w : World) :
  length (fst (sendWithDelegate_loop robot delegate strings [] w))
  <= length strings.
Proof.
  destruct delegate as [context|].
  - rewrite sendWithDelegate_loop_Some.
    destruct (sendToRoom_loop_trace robot context strings [] w)
      as (new & entries & _ & _ & Hl & _ & Hr & _).
    rewrite Hr. cbn [app]. rewrite <- Hl. apply acceptedResponses_length.
  - rewrite sendWithDelegate_loop_None. cbn. lia.
Qed.

(** X1. No delivery returns more responses than it was given strings:
    whenever [sendWithDelegate] (with or without a delegate),
    [sendToRoom], [send] or [reply] returns, the list it returns is at
    most as long as the list of strings. *)
Theorem results_bounded_by_strings (strings : list jsstring) :
  (forall delegate envelope w results w',
      sendWithDelegate robot delegate envelope strings w = (Normal results, w') ->
      length results <= length strings)
  /\ (forall r w results w',
        sendToRoom robot env r strings w = (Normal results, w') ->
        length results <= length strings)
  /\ (forall envelope w results w',
        send robot env envelope strings w = (Normal results, w') ->
        length results <= length strings)
  /\ (forall envelope w results w',
        reply robot envelope strings w = (Normal results, w') ->
        length results <= length strings).
Proof.
  assert (forall delegate envelope w results w',
            sendWithDelegate robot delegate envelope strings w
            = (Normal results, w') ->
            length results <= length strings) as Hdirect.
  { intros delegate envelope w results w'. unfold sendWithDelegate.
    pose proof (sendWithDelegate_loop_length delegate strings w) as Hlen.
    destruct (sendWithDelegate_loop robot delegate strings [] w) as [rs w1].
    intros [= <- _]. exact Hlen. }
  assert (forall r w results w',
            sendToRoom robot env r strings w = (Normal results, w') ->
            length results <= length strings) as Hroom.
  { intros r w results w' Heq.
    destruct (readReference (conversationReferences w)
                (channel_id (channel (channelData r))))
      as [entry|] eqn:Hlookup.
    - destruct (continueConversation_outcome (calls w) entry)
        as [[[]|e]|context settle] eqn:Hresume.
      + unfold sendToRoom in Heq. rewrite Hlookup, Hresume in Heq.
        injection Heq as <- _. cbn. lia.
      + unfold sendToRoom in Heq. rewrite Hlookup, Hresume in Heq.
        discriminate Heq.
      + destruct (sendToRoom_resumed_trace robot env r entry context settle
                    strings w Hlookup Hresume)
          as (new & entries & w1 & Heq1 & _ & _ & Hl & _).
        rewrite Heq1 in Heq. destruct (settle (Normal tt)); [|discriminate Heq].
        injection Heq as <- _. rewrite <- Hl. apply acceptedResponses_length.
    - destruct (sendToRoom_missed robot env r strings w Hlookup)
        as (c & w1 & sent & Heq1 & [->|[e ->]] & _); rewrite Heq1 in Heq.
      + injection Heq as <- _. cbn. lia.
      + discriminate Heq. }
  split; [exact Hdirect|]. split; [exact Hroom|]. split.
  - intros envelope w results w'. unfold send, envelope_user_message.
    destruct (room envelope) as [r|], (user envelope) as [u|];
      try apply Hroom; unfold bind at 1; cbn [ret throw];
      try discriminate;
      unfold bind at 1;
      destruct (sendWithDelegate robot (message u) envelope strings w)
        as [[rs|e] w1] eqn:Heq; cbn; try discriminate;
      intros [= <- _]; eapply Hdirect, Heq.
  - intros envelope w results w'. unfold reply, envelope_user_message.
    destruct (user envelope) as [u|];
      unfold bind at 1; cbn [ret throw]; try discriminate.
    unfold bind at 1.
    destruct (sendWithDelegate robot (message u) envelope strings w)
      as [[rs|e] w1] eqn:Heq; cbn; try discriminate.
    intros [= <- _]. eapply Hdirect, Heq.
Qed.

(** X2. On an envelope that has a user, [reply] delivers exactly as
    [send] does: the same result, the same platform calls, log and cache;
    the two differ only in the event they emit, [reply] against [send],
    each carrying the envelope and the returned responses. *)
Theorem reply_delivers_as_send (envelope : Envelope) (u : User)
    (strings : list jsstring) (w : World) :
  user envelope = Some u ->
  exists responses w',
    sendWithDelegate robot (message u) envelope strings w
    = (Normal responses, w')
    /\ send robot env envelope strings w
       = (Normal responses,
          {| conversationReferences := conversationReferences w';
             calls := calls w'; logged := logged w';
             emitted := emitted w' ++ [EventSend envelope responses];
             responded := responded w' |})
    /\ reply robot envelope strings w
       = (Normal responses,
          {| conversationReferences := conversationReferences w';
             calls := calls w'; logged := logged w';
             emitted := emitted w' ++ [EventReply envelope responses];
             responded := responded w' |}).
Proof.
  intros Hu. unfold send, reply, envelope_user_message. rewrite Hu.
  destruct (sendWithDelegate robot (message u) envelope strings w)
    as [[responses|e] w'] eqn:Heq.
  - exists responses, w'. split; [reflexivity|].
    split; [destruct (room envelope)|];
      unfold bind at 1; cbn [ret]; unfold bind at 1; rewrite Heq; reflexivity.
  - unfold sendWithDelegate in Heq.
    destruct (sendWithDelegate_loop _ _ _ _ _); discriminate Heq.
Qed.

(** X3. Delivering a batch is delivering its parts one after the other:
    for every split of the strings, [sendWithDelegate] on the whole list
    ends in the same world as a call on the first part followed by a call
    on the second, and returns the responses of the first followed by
    those of the second. *)
Theorem sendWithDelegate_in_batches (delegate : option TurnContext)
    (envelope : Envelope) (first second : list jsstring) (w : World) :
  sendWithDelegate robot delegate envelope (first ++ second) w
  = bind (sendWithDelegate robot delegate envelope first)
      (fun responses1 =>
         bind (sendWithDelegate robot delegate envelope second)
           (fun responses2 => ret (responses1 ++ responses2))) w.
Proof.
  unfold sendWithDelegate, bind, ret.
  rewrite sendWithDelegate_loop_app.
  destruct (sendWithDelegate_loop robot delegate first [] w) as [rs1 w1].
  rewrite sendWithDelegate_loop_responses.
  destruct (sendWithDelegate_loop robot delegate second [] w1) as [rs2 w2].
  reflexivity.
Qed.

(** X4. A push into a room whose channel id reads nothing from the cache
    (no entry stored under it, and nothing inherited under that name)
    never classifies its strings and never reports a delivery. Whatever
    the platform does with the request: the first call is the request for
    a new conversation;
    the only thing ever sent is the raw text of the strings joined by
    line feeds, as a bare string, so also for strings that are cards; the
    call returns the empty list or throws; no event is emitted; and the
    cache is unchanged or gains the entry of the conversation created. *)
Theorem room_push_without_reference (r : Room) (strings : list jsstring)
    (w : World) :
  let id := channel_id (channel (channelData r)) in
  let create :=
    CallCreateConversation (TEAMS_BOT_APP_ID env) (js "msteams")
      (serviceUrl env) (conversationParametersFor robot env r strings) in
  let raw := OutString (join (js newline) strings) in
  let push := sendToRoom robot env r strings in
  readReference (conversationReferences w) id = None ->
  head (newCalls push w) = Some create
  /\ (payloads (newCalls push w) = [] \/ payloads (newCalls push w) = [raw])
  /\ (fst (push w) = Normal [] \/ exists e, fst (push w) = Throw e)
  /\ emitted (snd (push w)) = emitted w
  /\ (conversationReferences (snd (push w)) = conversationReferences w
      \/ exists c,
           conversationReferences (snd (push w))
           = <[conversation_id c := EntryConversation c]>
               (conversationReferences w)).
Proof.
  intros id create raw push Hmiss.
  destruct (sendToRoom_missed robot env r strings w Hmiss)
    as (c & w' & sent & Heq & Hc & Hcalls & Hsent & He & _).
  fold id create raw push in Heq, Hcalls, Hsent.
  rewrite (newCalls_app push w (create :: sent))
    by (rewrite Heq; exact Hcalls).
  rewrite Heq. cbn [fst snd].
  split; [reflexivity|].
  split; [destruct Hsent as [[-> _]|(created & answer & -> & _)];
          [left | right]; reflexivity|].
  split; [exact Hc|]. split; [exact He|].
  destruct Hsent as [[_ Hrefs]|(created & answer & _ & Hrefs)];
    [left; exact Hrefs | right; eexists; exact Hrefs].
Qed.

(** X5. Only the per-message failures are absorbed: a failure of the
    resumed conversation itself reaches the caller. If the platform fails
    to resume a cached conversation, [sendToRoom] throws that error, sends
    nothing and emits nothing. If it resumes the conversation, runs the
    callback and then fails, [sendToRoom] throws that error after every
    string has been sent, and still emits nothing. If the platform returns
    without running the callback, [sendToRoom] sends nothing, returns the
    empty list and yet emits [send], with no responses. *)
Theorem room_push_platform_failure (r : Room) (entry : CacheEntry)
    (strings : list jsstring) (e : Error) (w : World) :
  conversationReferences w !! channel_id (channel (channelData r)) = Some entry ->
  (continueConversation_outcome (calls w) entry = NoTurn (Throw e) ->
   sendToRoom robot env r strings w
   = (Throw e, record (CallContinueConversation entry) w))
  /\ (forall context settle,
        continueConversation_outcome (calls w) entry = InTurn context settle ->
        settle (Normal tt) = Throw e ->
        exists w',
          sendToRoom robot env r strings w = (Throw e, w')
          /\ payloads (drop (length (calls w)) (calls w'))
             = map classify strings
          /\ emitted w' = emitted w)
  /\ (continueConversation_outcome (calls w) entry = NoTurn (Normal tt) ->
      exists w',
        sendToRoom robot env r strings w = (Normal [], w')
        /\ calls w' = calls w ++ [CallContinueConversation entry]
        /\ emitted w'
           = emitted w ++ [EventSend {| room := Some r; user := None |} []]).
Proof.
  intros Hown. pose proof (readReference_own _ _ _ Hown) as Hhit.
  split; [|split].
  - intros Hresume. unfold sendToRoom. rewrite Hhit, Hresume. reflexivity.
  - intros context settle Hresume Hsettle.
    destruct (sendToRoom_resumed_trace robot env r entry context settle
                strings w Hhit Hresume)
      as (new & entries & w' & Heq & Hc & Hp & _ & _ & _ & He & _).
    rewrite Hsettle in Heq, He. exists w'. split; [exact Heq|].
    rewrite Hc, drop_app_length, app_nil_r in *.
    split; [exact Hp | exact He].
  - intros Hresume. unfold sendToRoom. rewrite Hhit, Hresume.
    eexists. split; [reflexivity|]. split; reflexivity.
Qed.

(** X6. Nothing the adapter sends removes a cache entry. A key that is in
    the cache is still there after [sendToRoom] and after [send]; after
    [reply] and after [sendWithDelegate] the cache is the one they
    started with. *)
Theorem outbound_calls_keep_cache_entries (envelope : Envelope) (r : Room)
    (delegate : option TurnContext) (strings : list jsstring) (w : World)
    (key : jsstring) :
  is_Some (conversationReferences w !! key) ->
  is_Some (conversationReferences (snd (sendToRoom robot env r strings w)) !! key)
  /\ is_Some (conversationReferences (snd (send robot env envelope strings w))
                !! key)
  /\ conversationReferences (snd (reply robot envelope strings w))
     = conversationReferences w
  /\ conversationReferences
       (snd (sendWithDelegate robot delegate envelope strings w))
     = conversationReferences w.
Proof.
  intros Hkey.
  assert (forall delegate envelope w,
            conversationReferences
              (snd (sendWithDelegate robot delegate envelope strings w))
            = conversationReferences w) as Hdirect.
  { intros [context|] envelope' w0.
    - destruct (sendWithDelegate_trace robot context envelope' strings w0)
        as (new & entries & w' & Heq & _ & _ & _ & _ & Hrefs & _).
      rewrite Heq. exact Hrefs.
    - unfold sendWithDelegate. rewrite sendWithDelegate_loop_None.
      reflexivity. }
  assert (forall r,
            is_Some (conversationReferences
                       (snd (sendToRoom robot env r strings w)) !! key))
    as Hroom.
  { intros r0.
    destruct (readReference (conversationReferences w)
                (channel_id (channel (channelData r0))))
      as [entry|] eqn:Hlookup.
    - destruct (continueConversation_outcome (calls w) entry)
        as [[[]|e]|context settle] eqn:Hresume.
      + unfold sendToRoom. rewrite Hlookup, Hresume. exact Hkey.
      + unfold sendToRoom. rewrite Hlookup, Hresume. exact Hkey.
      + destruct (sendToRoom_resumed_trace robot env r0 entry context settle
                    strings w Hlookup Hresume)
          as (new & entries & w' & Heq & _ & _ & _ & _ & Hrefs & _).
        rewrite Heq. cbn [snd]. rewrite Hrefs. exact Hkey.
    - destruct (sendToRoom_missed robot env r0 strings w Hlookup)
        as (c & w' & sent & Heq & _ & _ & Hsent & _).
      rewrite Heq. cbn [snd].
      destruct Hsent as [[_ ->]|(created & answer & _ & ->)]; [exact Hkey|].
      destruct (decide (conversation_id (conversation (activity created)) = key))
        as [<-|Hne].
      + rewrite lookup_insert_eq. eauto.
      + rewrite lookup_insert_ne by exact Hne. exact Hkey. }
  split; [apply Hroom|]. split; [|split; [|apply Hdirect]].
  - unfold send, envelope_user_message.
    destruct (room envelope) as [r0|], (user envelope) as [u|];
      try apply Hroom; try exact Hkey;
      unfold bind at 1; cbn [ret]; unfold bind at 1;
      pose proof (Hdirect (message u) envelope w) as Hrefs;
      destruct (sendWithDelegate robot (message u) envelope strings w)
        as [[rs|e] w']; cbn in *; rewrite Hrefs; exact Hkey.
  - unfold reply, envelope_user_message.
    destruct (user envelope) as [u|]; [|reflexivity].
    unfold bind at 1. cbn [ret]. unfold bind at 1.
    pose proof (Hdirect (message u) envelope w) as Hrefs.
    destruct (sendWithDelegate robot (message u) envelope strings w)
      as [[rs|e] w']; cbn in *; exact Hrefs.
Qed.

End DeliveryFacts.

(** ** Mentions *)

Section MentionBranches.
Context {U : UnicodeCase}.

Lemma sameIgnoringCase_sym (a b : jsstring) :
  sameIgnoringCase a b -> sameIgnoringCase b a.
Proof.
  unfold sameIgnoringCase. induction 1; constructor; [congruence | assumption].
Qed.

Lemma sameIgnoringCase_length (a b : jsstring) :
  sameIgnoringCase a b -> length a = length b.
Proof. apply Forall2_length. Qed.

(** Only [@] equals [@] up to case. *)
Lemma Canonicalize_at (c : N) :
  Canonicalize c = Canonicalize 64 -> c = 64%N.
Proof.
  rewrite (Canonicalize_ascii 64) by lia.
  destruct (N.lt_ge_cases c 128) as [Hlt|Hge].
  - rewrite (Canonicalize_ascii c Hlt). unfold asciiUpper, unit_in. cbn.
    destruct (N.leb_spec 97 c), (N.leb_spec c 122); cbn; lia.
  - pose proof (Canonicalize_high c Hge). unfold asciiUpper. cbn. lia.
Qed.

Lemma literalPrefix_cons (a : N) (p : jsstring) (c : N) (rest : jsstring) :
  literalPrefix (a :: p) (c :: rest)
  = if (Canonicalize a =? Canonicalize c)%N
    then consFst c (literalPrefix p rest) else None.
Proof. reflexivity. Qed.

Lemma consFst_is_Some (c : N) (o : option (jsstring * jsstring)) :
  is_Some (consFst c o) -> is_Some o.
Proof. destruct o; [eauto | intros [? [=]]]. Qed.

(** A text cannot start both with [c] and the name and with the name
    alone, unless the name repeats [c]. *)
Lemma literalPrefix_shifted (c : N) (r s : jsstring) :
  is_Some (literalPrefix (c :: r) s) -> is_Some (literalPrefix r s) ->
  Forall (fun x => Canonicalize x = Canonicalize c) r.
Proof.
  revert c s. induction r as [|a r IH]; intros c s H1 H2; [constructor|].
  destruct s as [|x s]; [destruct H2 as [? [=]]|].
  rewrite literalPrefix_cons in H1, H2. revert H1 H2.
  destruct (N.eqb_spec (Canonicalize c) (Canonicalize x)) as [Hcx|];
    [|intros [? [=]]].
  destruct (N.eqb_spec (Canonicalize a) (Canonicalize x)) as [Hax|];
    [|intros _ [? [=]]].
  intros H1%consFst_is_Some H2%consFst_is_Some.
  constructor; [congruence|].
  eapply Forall_impl; [exact (IH a s H1 H2)|].
  cbn. intros y Hy. congruence.
Qed.

Lemma prefixMatch_is_literalPrefix (p s m rest : jsstring) :
  prefixMatch p s = Some (m, rest) -> is_Some (literalPrefix p s).
Proof.
  unfold prefixMatch. destruct (literalPrefix p s); [eauto | discriminate].
Qed.

(** For a name that ends in a word character, a text that starts with the
    bare name does not start with the name behind [@]. *)
Lemma prefixMatch_bare_not_mention (r s m rest : jsstring) :
  lastIsWord r = true ->
  prefixMatch r s = Some (m, rest) ->
  prefixMatch (js "@" ++ r) s = None.
Proof.
  intros Hw Hbare.
  destruct (prefixMatch (js "@" ++ r) s) as [[m' rest']|] eqn:Hmention;
    [exfalso | reflexivity].
  apply prefixMatch_is_literalPrefix in Hbare, Hmention.
  rewrite js_at in Hmention.
  pose proof (literalPrefix_shifted 64 r s Hmention Hbare) as Hall.
  unfold lastIsWord in Hw. destruct (last r) as [c|] eqn:Hlast; [|discriminate].
  apply last_Some in Hlast as [r' ->].
  apply Forall_app in Hall as [_ Hc]. inversion Hc as [|? ? Hc' _]; subst.
  apply Canonicalize_at in Hc'. subst c. discriminate Hw.
Qed.

(** The third branch: neither pattern matches. *)
Lemma ensureMentionPrefix_unmatched (text : value) (r : jsstring) :
  r <> [] -> trim (textOf text) <> [] ->
  prefixMatch (js "@" ++ r) (trim (textOf text)) = None ->
  prefixMatch r (trim (textOf text)) = None ->
  ensureMentionPrefix text (VStr r)
  = Some (VStr (js "@" ++ r ++ js " " ++ trim (textOf text))).
Proof.
  intros Hr Ht H1 H2. destruct r as [|c r]; [done|].
  rewrite ensureMentionPrefix_name.
  destruct (trim (textOf text)) as [|d T]; [done|].
  rewrite H1, H2. reflexivity.
Qed.

Lemma prefixMatch_None (p s : jsstring) :
  (forall m rest,
      s = m ++ rest -> sameIgnoringCase p m -> boundaryBetween m rest = false) ->
  prefixMatch p s = None.
Proof.
  intros Hno. destruct (prefixMatch p s) as [[m rest]|] eqn:E; [|reflexivity].
  destruct (prefixMatch_Some _ _ _ _ E) as (Hsplit & Hs & Hb).
  rewrite (Hno m rest Hsplit Hs) in Hb. discriminate.
Qed.

End MentionBranches.

(** X7. Escaping makes the name a literal: for every robot name, whatever
    characters it holds, the two patterns built from the escaped name are
    valid, and each matches a text exactly when the text starts with the
    name itself (behind [@] for the first pattern), compared up to case,
    and a word boundary follows. No character of the name acts as a
    pattern operator. *)
Theorem escaped_name_is_matched_literally {U : UnicodeCase}
    (name s : jsstring) :
  exists mentionPattern barePattern,
    RegExp_new (js "^@" ++ escapeRegex name ++ js "\b") true = Some mentionPattern
    /\ RegExp_new (js "^" ++ escapeRegex name ++ js "\b") true = Some barePattern
    /\ (RegExp_test mentionPattern s = true
        <-> exists m rest,
              s = m ++ rest /\ sameIgnoringCase (js "@" ++ name) m
              /\ boundaryBetween m rest = true)
    /\ (RegExp_test barePattern s = true
        <-> exists m rest,
              s = m ++ rest /\ sameIgnoringCase name m
              /\ boundaryBetween m rest = true).
Proof.
  assert (forall p,
            RegExp_test
              (mkRegExp (TAssertStart :: literal p ++ [TWordBoundary]) true) s
            = true
            <-> exists m rest,
                  s = m ++ rest /\ sameIgnoringCase p m
                  /\ boundaryBetween m rest = true) as Htest.
  { intros p. unfold RegExp_test. rewrite RegExp_exec_prefix. split.
    - destruct (prefixMatch p s) as [[m rest]|] eqn:E; [|discriminate].
      intros _. exists m, rest. eapply prefixMatch_Some, E.
    - intros (m & rest & -> & Hs & Hb).
      rewrite (prefixMatch_app _ _ _ Hs Hb). reflexivity. }
  eexists _, _. split; [apply RegExp_new_mention|].
  split; [apply RegExp_new_bare|]. split; apply Htest.
Qed.

(** X8. A text that starts with the bare robot name gets the [@]: for a
    name that ends in a word character and holds no replacement pattern,
    if the trimmed text starts with the name in any casing, followed by a
    word boundary, the result is [@name], in the configured casing,
    followed by the rest of the text. *)
Theorem bare_name_gets_mention_prefix {U : UnicodeCase}
    (r t m rest : jsstring) :
  wordName r ->
  trim t = m ++ rest ->
  sameIgnoringCase r m ->
  boundaryBetween m rest = true ->
  ensureMentionPrefix (VStr t) (VStr r) = Some (VStr (js "@" ++ r ++ rest)).
Proof.
  intros [Hw Hp] Hsplit Hs Hb.
  pose proof (lastIsWord_nonempty r Hw) as Hne.
  destruct r as [|c r]; [done|].
  rewrite ensureMentionPrefix_name. cbn [textOf]. rewrite Hsplit.
  pose proof (prefixMatch_app _ _ _ Hs Hb) as Hbare.
  rewrite (prefixMatch_bare_not_mention _ _ _ _ Hw Hbare), Hbare.
  rewrite getSubstitution_plain by (apply plainTemplate_mention, Hp).
  destruct (m ++ rest) as [|d T] eqn:E.
  - apply app_eq_nil in E as [-> _]. inversion Hs.
  - rewrite <- app_assoc. reflexivity.
Qed.

(** X9. Any other text gets the whole prefix: for every non-empty robot
    name, if the trimmed text is not empty and starts neither with the
    name nor with [@] and the name (in any casing, before a word
    boundary), the result is [@name], a space, and the trimmed text. *)
Theorem unaddressed_text_is_prefixed {U : UnicodeCase} (r t : jsstring) :
  r <> [] ->
  trim t <> [] ->
  (forall m rest,
      trim t = m ++ rest ->
      sameIgnoringCase r m \/ sameIgnoringCase (js "@" ++ r) m ->
      boundaryBetween m rest = false) ->
  ensureMentionPrefix (VStr t) (VStr r)
  = Some (VStr (js "@" ++ r ++ js " " ++ trim t)).
Proof.
  intros Hr Ht Hno.
  apply (ensureMentionPrefix_unmatched (VStr t) r Hr Ht);
    apply prefixMatch_None; intros m rest Hsplit Hs;
    apply (Hno m rest Hsplit); auto.
Qed.

(** X10. A name that ends in a character that is no word character is
    not recognised in a text that already addresses it: if the trimmed
    text is [@name] followed by the end of the text or by a character that
    is no word character (a space, say), the text is prefixed again. *)
Theorem punctuation_name_is_prefixed_again {U : UnicodeCase}
    (r t rest : jsstring) :
  r <> [] ->
  lastIsWord r = false ->
  trim t = js "@" ++ r ++ rest ->
  match rest with c :: _ => isWordChar c | [] => false end = false ->
  ensureMentionPrefix (VStr t) (VStr r)
  = Some (VStr (js "@" ++ r ++ js " @" ++ r ++ rest)).
Proof.
  intros Hr Hw Ht Hrest.
  assert (trim t <> []) as Hne by (rewrite Ht, js_at; discriminate).
  assert (js "@" ++ r ++ js " @" ++ r ++ rest
          = js "@" ++ r ++ js " " ++ trim t) as -> by (rewrite Ht; reflexivity).
  apply (ensureMentionPrefix_unmatched (VStr t) r Hr Hne);
    apply prefixMatch_None; cbn [textOf]; rewrite Ht;
    intros m rest' Hsplit Hs; unfold boundaryBetween.
  - (* the text behind [@name] does not start a word *)
    pose proof (sameIgnoringCase_length _ _ Hs) as Hlen.
    rewrite app_assoc in Hsplit.
    apply app_inj_1 in Hsplit as [<- <-]; [|exact Hlen].
    rewrite js_at. cbn [app]. rewrite lastIsWord_cons by exact Hr.
    rewrite Hw, Hrest. reflexivity.
  - (* what follows the first characters is the end of the name *)
    pose proof (sameIgnoringCase_length _ _ Hs) as Hlen.
    destruct (lastIsWord m) eqn:Hm.
    { rewrite (sameIgnoringCase_lastIsWord _ _ (sameIgnoringCase_sym _ _ Hs) Hm)
        in Hw. discriminate. }
    destruct r as [|c0 r0] using rev_ind; [done|]. clear IHr0.
    rewrite js_at in Hsplit.
    assert ([64%N] ++ (r0 ++ [c0]) ++ rest = (64%N :: r0) ++ c0 :: rest)
      as Hshape by (cbn; rewrite <- app_assoc; reflexivity).
    rewrite Hshape in Hsplit.
    apply app_inj_1 in Hsplit as [_ <-];
      [|rewrite <- Hlen, length_app; cbn; lia].
    unfold lastIsWord in Hw. rewrite last_snoc in Hw. rewrite Hw. reflexivity.
Qed.

(** ** The activity normaliser *)

Lemma JSON_member_set (key : jsstring) (v : JSON)
    (members : list (jsstring * JSON)) :
  JSON_member key (JSON_set key v members) = Some v.
Proof.
  induction members as [|[k x] members IH]; cbn.
  - rewrite decide_True by reflexivity. reflexivity.
  - destruct (decide (k = key)) as [->|Hne]; cbn.
    + rewrite decide_True by reflexivity. reflexivity.
    + rewrite decide_False by exact Hne. exact IH.
Qed.

Lemma JSON_member_set_other (key other : jsstring) (v : JSON)
    (members : list (jsstring * JSON)) :
  other <> key ->
  JSON_member other (JSON_set key v members) = JSON_member other members.
Proof.
  intros Hne. induction members as [|[k x] members IH]; cbn.
  - rewrite decide_False by congruence. reflexivity.
  - destruct (decide (k = key)) as [->|Hk]; cbn.
    + rewrite !decide_False by congruence. reflexivity.
    + destruct (decide (k = other)); [reflexivity | exact IH].
Qed.

Section NormalizerFacts.
Context {U : UnicodeCase} {L : LooseEquality} {T : TeamsApi}.
Variable robot : Robot.
Variable alias : Alias.

(** The normaliser on an object, in the vocabulary of the statements. *)
Lemma normalizeIncomingActivity_object (members : list (jsstring * JSON)) :
  let activity := JObject members in
  let name := robotName robot alias in
  let collapsed :=
    if includes (cleanedText activity) (js "<at>")
    then collapseAtTags (cleanedText activity) else cleanedText activity in
  let addressed :=
    isPersonalConversation activity
    || (includes (cleanedText activity) (js "<at>") || botMentioned activity) in
  normalizeIncomingActivity robot alias activity
  = match message_text (strippedMessage activity) with
    | TextOther _ => Some (Throw TypeError)
    | _ =>
        normalizedText ←
          (if addressed && truthy (VStr name) && (0 <? length collapsed)
           then
             match ensureMentionPrefix (VStr collapsed) (VStr name) with
             | Some (VStr prefixed) => Some prefixed
             | _ => None
             end
           else Some collapsed);
        Some (Normal (JObject (JSON_set (js "text") (JString normalizedText)
                                 members)))
    end.
Proof.
  intros activity name collapsed addressed.
  unfold normalizeIncomingActivity. fold activity.
  change (if TextField_truthy (message_text (MessageActivity_from activity))
          then stripMentionsText (recipient_id (MessageActivity_from activity))
                 (MessageActivity_from activity)
          else MessageActivity_from activity)
    with (strippedMessage activity).
  unfold collapsed, addressed, cleanedText, botMentioned, name.
  destruct (message_text (strippedMessage activity)); reflexivity.
Qed.

(** For a truthy name the mention prefix is a string. *)
Lemma ensureMentionPrefix_string (text : value) (r : jsstring) :
  r <> [] -> exists out, ensureMentionPrefix text (VStr r) = Some (VStr out).
Proof.
  intros Hr. destruct r as [|c r]; [done|].
  rewrite ensureMentionPrefix_name. eauto.
Qed.

Lemma normalizeIncomingActivity_outcome (members : list (jsstring * JSON)) :
  let activity := JObject members in
  match message_text (strippedMessage activity) with
  | TextOther _ =>
      normalizeIncomingActivity robot alias activity = Some (Throw TypeError)
  | _ =>
      exists out,
        normalizeIncomingActivity robot alias activity
        = Some (Normal (JObject (JSON_set (js "text") (JString out) members)))
  end.
Proof.
  intros activity. unfold activity.
  rewrite normalizeIncomingActivity_object.
  destruct (message_text (strippedMessage (JObject members))) eqn:Htext;
    [|  |reflexivity].
  all: match goal with
       | |- context [if ?b then _ else _] => destruct b eqn:Hb
       end; [|eexists; reflexivity].
  all: apply andb_prop in Hb as [Hb _]; apply andb_prop in Hb as [_ Hname].
  all: assert (robotName robot alias <> []) as Hne
         by (intros E; rewrite E in Hname; discriminate).
  all: match goal with
       | |- context [ensureMentionPrefix ?t _] =>
           destruct (ensureMentionPrefix_string t _ Hne) as [out ->]
       end; eexists; reflexivity.
Qed.

(** X11. Normalising a payload changes nothing but its text. A payload
    that is no object is returned as it is. For an object, when the
    normaliser returns, the result is the same object with its [text]
    set to a string: every other member is what it was. *)
Theorem normalisation_rewrites_only_text (payload result : JSON) :
  normalizeIncomingActivity robot alias payload = Some (Normal result) ->
  match payload with
  | JObject members =>
      exists out members',
        result = JObject members'
        /\ JSON_member (js "text") members' = Some (JString out)
        /\ forall key,
             key <> js "text" ->
             JSON_member key members' = JSON_member key members
  | _ => result = payload
  end.
Proof.
  destruct payload as [|b|n|s|items|members];
    [intros [= <-]; reflexivity .. | discriminate |].
  intros Hresult.
  pose proof (normalizeIncomingActivity_outcome members) as Hout.
  cbn zeta in Hout.
  destruct (message_text (strippedMessage (JObject members)));
    [| |rewrite Hout in Hresult; discriminate Hresult].
  all: destruct Hout as [out Hout]; rewrite Hout in Hresult;
    injection Hresult as <-; eexists out, _; split; [reflexivity|];
    split; [apply JSON_member_set|];
    intros key Hkey; apply JSON_member_set_other; exact Hkey.
Qed.

(** X12. Where the calls into the Teams library return, as [TeamsApi]
    takes them to, the normaliser fails exactly on a text it cannot read.
    It handles every object payload, and of its own it throws, a
    TypeError, if and only if the text of the message, once the mentions
    are stripped, is neither absent, [null] nor a string. An exception of
    [MessageActivity.from], [stripMentionsText] or [getAccountMention],
    which the source does not guard either, is outside this statement. *)
Theorem normalisation_throws_on_unreadable_text
    (members : list (jsstring * JSON)) :
  let activity := JObject members in
  (exists c, normalizeIncomingActivity robot alias activity = Some c)
  /\ (normalizeIncomingActivity robot alias activity = Some (Throw TypeError)
      <-> exists b, message_text (strippedMessage activity) = TextOther b)
  /\ forall e,
       normalizeIncomingActivity robot alias activity = Some (Throw e) ->
       e = TypeError.
Proof.
  intros activity.
  pose proof (normalizeIncomingActivity_outcome members) as Hout.
  cbn zeta in Hout. fold activity in Hout.
  destruct (message_text (strippedMessage activity)) as [|s|b] eqn:Htext.
  - destruct Hout as [out Hout]. rewrite Hout.
    split; [eauto|]. split; [|discriminate].
    split; [discriminate | intros [b [=]]].
  - destruct Hout as [out Hout]. rewrite Hout.
    split; [eauto|]. split; [|discriminate].
    split; [discriminate | intros [b' [=]]].
  - rewrite Hout. split; [eauto|]. split; [split; eauto|].
    intros e [= <-]. reflexivity.
Qed.

(** X13. A message that addresses the robot carries the prefix. For a
    robot name (the alias when there is one, the name otherwise) that ends
    in a word character and holds no replacement pattern: when the
    conversation is personal, or the bot account is mentioned, or the
    cleaned text holds [<at>], the normalised text is empty or it is
    [@name] followed by a word boundary, and trimming leaves it as it is. *)
Theorem addressed_text_carries_prefix (members : list (jsstring * JSON))
    (result : JSON) :
  let activity := JObject members in
  let name := robotName robot alias in
  wordName name ->
  isPersonalConversation activity = true
  \/ botMentioned activity = true
  \/ includes (cleanedText activity) (js "<at>") = true ->
  normalizeIncomingActivity robot alias activity = Some (Normal result) ->
  exists out,
    result = JObject (JSON_set (js "text") (JString out) members)
    /\ trim out = out
    /\ (out = []
        \/ exists rest,
             out = js "@" ++ name ++ rest
             /\ boundaryBetween (js "@" ++ name) rest = true).
Proof.
  intros activity name Hname Haddressed.
  unfold activity. rewrite normalizeIncomingActivity_object.
  fold activity. fold name.
  assert (isPersonalConversation activity
          || (includes (cleanedText activity) (js "<at>")
              || botMentioned activity) = true) as ->.
  { destruct Haddressed as [->|[->| ->]]; [reflexivity| |];
      rewrite ?orb_true_r; reflexivity. }
  assert (truthy (VStr name) = true) as ->.
  { pose proof (lastIsWord_nonempty name (proj1 Hname)).
    destruct name; [done | reflexivity]. }
  cbn [andb].
  set (collapsed := if includes (cleanedText activity) (js "<at>")
                    then collapseAtTags (cleanedText activity)
                    else cleanedText activity).
  destruct (message_text (strippedMessage activity)); [| |discriminate].
  all: destruct (Nat.ltb_spec 0 (length collapsed)) as [Hlen|Hlen].
  all: try (destruct (ensureMentionPrefix_shape (VStr collapsed) name Hname)
              as (rest & -> & Hclean & Hb & _);
            cbn; intros [= <-]; eexists; split; [reflexivity|];
            split; [apply clean_trim, Hclean | right; eauto]).
  all: destruct collapsed; [|cbn in Hlen; lia];
    cbn; intros [= <-]; exists []; split; [reflexivity|];
    split; [reflexivity | left; reflexivity].
Qed.


End NormalizerFacts.

(** X15. When the normaliser fails, the POST route fails with it. The
    body is normalised before the guarded region, so for a payload whose
    text cannot be read the route throws the TypeError: the platform is
    not called, nothing is logged and no response is written. *)
Theorem post_with_unreadable_text_throws
    {U : UnicodeCase} {L : LooseEquality} {T : TeamsApi} {P : Platform}
    (robot : Robot) (alias : Alias) (normalize : JSON -> Completion JSON)
    (activityHandler : TurnContext -> Action unit) (req : Request)
    (members : list (jsstring * JSON)) (b : bool) (w : World) :
  (forall payload c,
      normalizeIncomingActivity robot alias payload = Some c ->
      normalize payload = c) ->
  body req = JObject members ->
  message_text (strippedMessage (body req)) = TextOther b ->
  postMessages normalize activityHandler req w = (Throw TypeError, w).
Proof.
  intros Hagree Hbody Htext.
  pose proof (normalizeIncomingActivity_outcome robot alias members) as Hout.
  cbn zeta in Hout. rewrite <- Hbody, Htext in Hout.
  unfold postMessages, bind at 1. rewrite (Hagree _ _ Hout). reflexivity.
Qed.

(** ** Mention tags *)

Section TagFacts.
Context {U : UnicodeCase}.

(** A character that is no letter equals only itself up to case. *)
Lemma Canonicalize_symbol (p c : N) :
  (p < 128)%N -> unit_in p 65 90 = false -> unit_in p 97 122 = false ->
  Canonicalize p = Canonicalize c -> c = p.
Proof.
  intros Hp Hupper Hlower.
  rewrite (Canonicalize_ascii p Hp). unfold asciiUpper at 1. rewrite Hlower.
  destruct (N.lt_ge_cases c 128) as [Hlt|Hge].
  - rewrite (Canonicalize_ascii c Hlt). unfold asciiUpper, unit_in in *.
    destruct (N.leb_spec 97 c), (N.leb_spec c 122); cbn; try lia.
    intros ->. revert Hupper.
    destruct (N.leb_spec 65 (c - 32)), (N.leb_spec (c - 32) 90); cbn;
      [discriminate | lia | lia | lia].
  - pose proof (Canonicalize_high c Hge). lia.
Qed.

Lemma literalPrefix_bracket (p : jsstring) (c : N) (s : jsstring) :
  c <> 60%N -> literalPrefix (60%N :: p) (c :: s) = None.
Proof.
  intros Hc. cbn [literalPrefix].
  destruct (N.eqb_spec (Canonicalize 60) (Canonicalize c)) as [E|]; [|reflexivity].
  apply Canonicalize_symbol in E; [congruence | lia | reflexivity | reflexivity].
Qed.

Lemma literalPrefix_length (p input m rest : jsstring) :
  literalPrefix p input = Some (m, rest) ->
  length input = length p + length rest.
Proof.
  intros H. destruct (literalPrefix_Some _ _ _ _ H) as [-> Hs].
  rewrite length_app, (Forall2_length _ _ _ Hs). reflexivity.
Qed.

Lemma lazyUntil_unfold (closing input : jsstring) :
  lazyUntil closing input
  = match literalPrefix closing input with
    | Some (_, rest) => Some ([], rest)
    | None =>
        match input with
        | c :: input' =>
            if isLineTerminator c then None
            else consFst c (lazyUntil closing input')
        | [] => None
        end
    end.
Proof. destruct input; reflexivity. Qed.

Lemma lazyUntil_shorter (closing input run rest : jsstring) :
  lazyUntil closing input = Some (run, rest) ->
  length closing + length rest <= length input.
Proof.
  revert run. induction input as [|c input IH]; intros run;
    rewrite lazyUntil_unfold.
  - destruct (literalPrefix closing []) as [[m r]|] eqn:E; [|discriminate].
    intros [= _ <-]. apply literalPrefix_length in E. lia.
  - destruct (literalPrefix closing (c :: input)) as [[m r]|] eqn:E.
    + intros [= _ <-]. apply literalPrefix_length in E. lia.
    + destruct (isLineTerminator c); [discriminate|].
      destruct (lazyUntil closing input) as [[run' rest']|]; [|discriminate].
      cbn. intros [= _ <-]. specialize (IH run' eq_refl). cbn. lia.
Qed.

Lemma atTagAt_shorter (c : N) (s name rest : jsstring) :
  atTagAt (c :: s) = Some (name, rest) -> length rest <= length s.
Proof.
  unfold atTagAt.
  destruct (literalPrefix (js "<at>") (c :: s)) as [[m afterOpen]|] eqn:E;
    [|discriminate].
  intros H%lazyUntil_shorter. apply literalPrefix_length in E.
  cbn in E, H. cbn. lia.
Qed.

(** The scan does not depend on its fuel, once there is enough of it. *)
Lemma collapseFrom_fuel (fuel fuel' : nat) (s : jsstring) :
  length s <= fuel -> length s <= fuel' ->
  collapseFrom fuel s = collapseFrom fuel' s.
Proof.
  revert fuel' s. induction fuel as [|fuel IH]; intros fuel' s H1 H2.
  - destruct s; [|cbn in H1; lia]. destruct fuel'; reflexivity.
  - destruct s as [|c s]; [destruct fuel'; reflexivity|].
    destruct fuel' as [|fuel']; [cbn in H2; lia|].
    cbn [collapseFrom length] in *.
    destruct (atTagAt (c :: s)) as [[name rest]|] eqn:E.
    + apply atTagAt_shorter in E. f_equal. apply IH; lia.
    + f_equal. apply IH; lia.
Qed.

Lemma collapseAtTags_cons (c : N) (s : jsstring) :
  collapseAtTags (c :: s)
  = match atTagAt (c :: s) with
    | Some (name, rest) => name ++ collapseAtTags rest
    | None => c :: collapseAtTags s
    end.
Proof.
  unfold collapseAtTags. cbn [length collapseFrom].
  destruct (atTagAt (c :: s)) as [[name rest]|] eqn:E; [|reflexivity].
  apply atTagAt_shorter in E. f_equal. apply collapseFrom_fuel; lia.
Qed.

Lemma collapseAtTags_plain (s tail : jsstring) :
  Forall (fun c => c <> 60%N) s ->
  collapseAtTags (s ++ tail) = s ++ collapseAtTags tail.
Proof.
  induction 1 as [|c s Hc _ IH]; [reflexivity|].
  cbn [app]. rewrite collapseAtTags_cons. unfold atTagAt.
  change (js "<at>") with (60%N :: js "at>").
  rewrite literalPrefix_bracket by exact Hc. rewrite IH. reflexivity.
Qed.

Lemma lazyUntil_name (name closing tail : jsstring) :
  sameIgnoringCase (js "</at>") closing ->
  Forall (fun c => c <> 60%N /\ isLineTerminator c = false) name ->
  lazyUntil (js "</at>") (name ++ closing ++ tail) = Some (name, tail).
Proof.
  intros Hclosing. induction 1 as [|c name [Hc Hline] _ IH].
  - cbn [app]. rewrite lazyUntil_unfold.
    rewrite (literalPrefix_app _ _ _ Hclosing). reflexivity.
  - cbn [app]. rewrite lazyUntil_unfold.
    change (js "</at>") with (60%N :: js "/at>") at 1.
    rewrite literalPrefix_bracket by exact Hc. rewrite Hline, IH. reflexivity.
Qed.

Lemma collapseAtTags_tagged (opening name closing tail : jsstring) :
  wellFormed (Tagged opening name closing) ->
  collapseAtTags ((opening ++ name ++ closing) ++ tail)
  = name ++ collapseAtTags tail.
Proof.
  intros (Hopening & Hclosing & Hname).
  destruct opening as [|c opening]; [inversion Hopening|].
  rewrite <- !app_assoc. cbn [app]. rewrite collapseAtTags_cons.
  unfold atTagAt.
  change (c :: opening ++ name ++ closing ++ tail)
    with ((c :: opening) ++ name ++ closing ++ tail).
  rewrite (literalPrefix_app _ _ _ Hopening).
  rewrite (lazyUntil_name _ _ _ Hclosing Hname). reflexivity.
Qed.

(** X16. Well-formed mention tags are unwrapped. For a text made of
    plain pieces without [<] and of names between [<at>] and [</at>], in
    any casing, each name on one line and without [<]: the global
    replacement of the tag pattern yields the same text with every name
    in place of its tagged form, and nothing else changed. *)
Theorem well_formed_tags_are_unwrapped (pieces : list Piece) :
  Forall wellFormed pieces ->
  collapseAtTags (concat (map render pieces))
  = concat (map unwrapped pieces).
Proof.
  induction 1 as [|p pieces Hp _ IH]; [reflexivity|].
  cbn [map concat]. destruct p as [s|opening name closing]; cbn [render unwrapped].
  - rewrite (collapseAtTags_plain _ _ Hp), IH. reflexivity.
  - rewrite (collapseAtTags_tagged _ _ _ _ Hp), IH. reflexivity.
Qed.

End TagFacts.

(** ** Ingress *)


(** X18. A POST writes the cache entry of its own conversation and no
    other. When the platform runs the turn and the activity handler
    leaves the cache alone, the cache after the request is the cache
    before it with the reference of the activity stored under the
    conversation id of the activity, whatever was stored there before
    (an entry of a created conversation, say): the last write wins, and
    a read under that id gives the reference. An entry stored under
    another key is still read. When the id is not [__proto__], a read
    under any other key gives what it gave before. When the id is
    [__proto__], the reference has become the prototype of the cache: a
    read under a name without an entry gives the member of the reference
    of that name, if that is truthy, and nothing otherwise. When the
    platform does not run the turn, the cache is left as it was. *)
Theorem post_caches_only_its_conversation {P : Platform}
    (normalize : JSON -> Completion JSON)
    (activityHandler : TurnContext -> Action unit) (req : Request)
    (body' : JSON) (w : World) :
  let req' := {| url := url req; body := body' |} in
  let posted := postMessages normalize activityHandler req w in
  normalize (body req) = Normal body' ->
  (forall context w0,
      conversationReferences (snd (activityHandler context w0))
      = conversationReferences w0) ->
  match process_outcome (calls w) req' with
  | NoTurn _ => conversationReferences (snd posted) = conversationReferences w
  | InTurn context settle =>
      let key := conversation_id (conversation (activity context)) in
      let entry := EntryReference (getConversationReference (activity context)) in
      conversationReferences (snd posted)
      = <[key := entry]> (conversationReferences w)
      /\ readReference (conversationReferences (snd posted)) key = Some entry
      /\ (forall other stored,
            other <> key ->
            conversationReferences w !! other = Some stored ->
            readReference (conversationReferences (snd posted)) other
            = Some stored)
      /\ (key <> js "__proto__" ->
          forall other,
            other <> key ->
            readReference (conversationReferences (snd posted)) other
            = readReference (conversationReferences w) other)
      /\ (key = js "__proto__" ->
          forall other,
            other <> key ->
            conversationReferences w !! other = None ->
            readReference (conversationReferences (snd posted)) other
            = if member_truthy entry other
              then Some (EntryMember entry other) else None)
  end.
Proof.
  intros req' posted Hbody Hhandler. unfold posted.
  destruct (process_outcome (calls w) req') as [[[]|e]|context settle] eqn:Hturn.
  - unfold postMessages, bind, tryCatch, client_process.
    rewrite Hbody. fold req'. rewrite Hturn. reflexivity.
  - unfold postMessages, bind, tryCatch, client_process.
    rewrite Hbody. fold req'. rewrite Hturn. reflexivity.
  - rewrite (postMessages_turn normalize activityHandler req body' context
               settle w Hbody Hturn).
    cbn zeta. fold req'.
    match goal with
    | |- context [activityHandler context ?w1] =>
        pose proof (Hhandler context w1) as Hkept;
        destruct (activityHandler context w1) as [c w2]
    end.
    destruct (finishTurn_cases settle c w2) as (_ & _ & _ & Hcache).
    rewrite Hcache. cbn [snd conversationReferences] in Hkept. rewrite Hkept.
    split; [reflexivity|].
    split; [apply readReference_own, lookup_insert_eq|].
    split; [|split].
    + intros other stored Hother Hstored. apply readReference_own.
      rewrite lookup_insert_ne by congruence. exact Hstored.
    + intros Hproto other Hother.
      apply readReference_insert_other; assumption.
    + intros Hproto other Hother Hnone. unfold readReference.
      rewrite lookup_insert_ne, Hnone by congruence.
      rewrite Hproto, lookup_insert_eq. reflexivity.
Qed.

(** ** The bootstrap command *)

Lemma isAlphanumeric_ascii (c : N) : isAlphanumeric c = true -> (c < 128)%N.
Proof. unfold isAlphanumeric, unit_in. bool_prop. lia. Qed.

Lemma isAlphanumeric_dash : isAlphanumeric 45 = false.
Proof. reflexivity. Qed.

Lemma isAlphanumeric_asciiLower (c : N) :
  isAlphanumeric (asciiLower c) = isAlphanumeric c.
Proof.
  apply eq_iff_eq_true. unfold asciiLower.
  destruct (unit_in c 65 90) eqn:Hupper; [|reflexivity].
  revert Hupper. unfold isAlphanumeric, unit_in. bool_prop. lia.
Qed.

Lemma isNameChar_asciiLower (c : N) :
  isAlphanumeric c = true \/ c = 45%N -> isNameChar (asciiLower c) = true.
Proof.
  intros [H| ->]; [|reflexivity]. revert H.
  unfold asciiLower, isAlphanumeric, isNameChar, unit_in.
  destruct (N.leb_spec 65 c), (N.leb_spec c 90); cbn [andb orb];
    bool_prop; lia.
Qed.

Lemma asciiLower_nameChar (c : N) : isNameChar c = true -> asciiLower c = c.
Proof.
  unfold asciiLower, isNameChar, unit_in.
  destruct (N.leb_spec 65 c), (N.leb_spec c 90); cbn [andb]; try reflexivity.
  bool_prop. lia.
Qed.

Lemma asciiLower_dash (c : N) : asciiLower c = 45%N <-> c = 45%N.
Proof.
  unfold asciiLower, unit_in.
  destruct (N.leb_spec 65 c), (N.leb_spec c 90); cbn [andb]; lia.
Qed.

Lemma isNameChar_cases (c : N) :
  isNameChar c = true -> isAlphanumeric c = true \/ c = 45%N.
Proof. unfold isNameChar, isAlphanumeric, unit_in. bool_prop. lia. Qed.

(** *** Runs *)

Lemma singleDashes_cons (a : N) (s : jsstring) :
  singleDashes (a :: s)
  = match s with
    | b :: _ => negb ((a =? 45) && (b =? 45))%N && singleDashes s
    | [] => true
    end.
Proof. reflexivity. Qed.

Lemma dashRuns_shape (inRun : bool) (s : jsstring) :
  Forall (fun c => isAlphanumeric c = true \/ c = 45%N) (dashRuns inRun s)
  /\ singleDashes (dashRuns inRun s) = true
  /\ (inRun = true -> head (dashRuns inRun s) <> Some 45%N).
Proof.
  revert inRun. induction s as [|c s IH]; intros inRun.
  - cbn. repeat split; [constructor | discriminate].
  - cbn [dashRuns]. destruct (isAlphanumeric c) eqn:Hc.
    + destruct (IH false) as (Hall & Hsingle & _).
      split; [constructor; auto|]. split.
      * rewrite singleDashes_cons. destruct (dashRuns false s); [reflexivity|].
        rewrite Hsingle, andb_true_r.
        destruct (N.eqb_spec c 45) as [->|]; [discriminate Hc | reflexivity].
      * intros _ [= ->]. discriminate Hc.
    + destruct (IH true) as (Hall & Hsingle & Hhead).
      destruct inRun; [auto|].
      split; [constructor; auto|]. split; [|discriminate].
      rewrite singleDashes_cons. specialize (Hhead eq_refl).
      destruct (dashRuns true s) as [|b t]; [reflexivity|].
      rewrite Hsingle, andb_true_r. cbn.
      destruct (N.eqb_spec b 45) as [->|]; [done | reflexivity].
Qed.

Lemma dashRuns_letters (inRun : bool) (s : jsstring) :
  List.filter isAlphanumeric (dashRuns inRun s) = List.filter isAlphanumeric s.
Proof.
  revert inRun. induction s as [|c s IH]; intros inRun; [reflexivity|].
  cbn [dashRuns List.filter]. destruct (isAlphanumeric c) eqn:Hc.
  - cbn [List.filter]. rewrite Hc, IH. reflexivity.
  - destruct inRun; [apply IH|]. cbn [List.filter].
    rewrite isAlphanumeric_dash. apply IH.
Qed.

Lemma dashRuns_fixed (inRun : bool) (s : jsstring) :
  Forall (fun c => isAlphanumeric c = true \/ c = 45%N) s ->
  singleDashes s = true ->
  (inRun = true -> head s <> Some 45%N) ->
  dashRuns inRun s = s.
Proof.
  intros Hall. revert inRun.
  induction Hall as [|c s Hc _ IH]; intros inRun Hsingle Hhead; [reflexivity|].
  cbn [dashRuns]. rewrite singleDashes_cons in Hsingle.
  assert (singleDashes s = true) as Hs.
  { destruct s; [reflexivity|]. apply andb_prop in Hsingle as [_ H]. exact H. }
  destruct (isAlphanumeric c) eqn:Ha.
  - rewrite IH; [reflexivity | exact Hs | discriminate].
  - destruct Hc as [Hc| ->]; [congruence|].
    destruct inRun; [destruct (Hhead eq_refl); reflexivity|].
    rewrite IH; [reflexivity | exact Hs|].
    intros _. destruct s as [|b t]; [discriminate|].
    apply andb_prop in Hsingle as [Hb _]. cbn in Hb |- *.
    destruct (N.eqb_spec b 45) as [->|]; [discriminate | congruence].
Qed.

(** *** Dashes at the ends *)

Lemma dropDashes_split (s : jsstring) :
  exists dashes,
    s = dashes ++ dropDashes s
    /\ Forall (fun c => c = 45%N) dashes
    /\ head (dropDashes s) <> Some 45%N.
Proof.
  induction s as [|c s (dashes & Hs & Hd & Hh)].
  - exists []. repeat split; [constructor | discriminate].
  - cbn [dropDashes]. destruct (N.eqb_spec c 45) as [->|Hc].
    + exists (45%N :: dashes). split; [cbn; congruence|].
      split; [constructor; auto | exact Hh].
    + exists []. split; [reflexivity|]. split; [constructor|].
      cbn. congruence.
Qed.

Lemma stripDashes_split (s : jsstring) :
  exists before after,
    s = before ++ stripDashes s ++ after
    /\ Forall (fun c => c = 45%N) before
    /\ Forall (fun c => c = 45%N) after
    /\ head (stripDashes s) <> Some 45%N
    /\ last (stripDashes s) <> Some 45%N.
Proof.
  destruct (dropDashes_split s) as (before & Hs & Hbefore & Hhead).
  destruct (dropDashes_split (reverse (dropDashes s)))
    as (after & Hr & Hafter & Hlast).
  exists before, (reverse after). unfold stripDashes.
  set (core := dropDashes (reverse (dropDashes s))) in *.
  assert (dropDashes s = reverse core ++ reverse after) as Hcore.
  { rewrite <- reverse_app, <- Hr, reverse_involutive. reflexivity. }
  split; [rewrite <- Hcore; exact Hs|].
  split; [exact Hbefore|]. split; [apply Forall_reverse, Hafter|].
  split; [|rewrite last_reverse; exact Hlast].
  rewrite Hcore in Hhead. destruct (reverse core) as [|c t] eqn:E.
  - discriminate.
  - exact Hhead.
Qed.

Lemma singleDashes_app_l (s t : jsstring) :
  singleDashes (s ++ t) = true -> singleDashes s = true.
Proof.
  induction s as [|a s IH]; [reflexivity|]. cbn [app].
  rewrite !singleDashes_cons. destruct s as [|b s]; [reflexivity|].
  cbn [app]. intros [-> H]%andb_prop. exact (IH H).
Qed.

Lemma singleDashes_app_r (s t : jsstring) :
  singleDashes (s ++ t) = true -> singleDashes t = true.
Proof.
  induction s as [|a s IH]; [auto|]. cbn [app]. rewrite singleDashes_cons.
  destruct (s ++ t) eqn:E.
  - destruct s, t; try discriminate E. reflexivity.
  - intros [_ H]%andb_prop. exact (IH H).
Qed.

Lemma stripDashes_fixed (s : jsstring) :
  head s <> Some 45%N -> last s <> Some 45%N -> stripDashes s = s.
Proof.
  intros Hhead Hlast.
  assert (forall t, head t <> Some 45%N -> dropDashes t = t) as Hdrop.
  { intros [|c t] H; [reflexivity|]. cbn.
    destruct (N.eqb_spec c 45) as [->|]; [done | reflexivity]. }
  unfold stripDashes. rewrite (Hdrop s Hhead), Hdrop, reverse_involutive;
    [reflexivity|].
  rewrite head_reverse. exact Hlast.
Qed.

Section NameFacts.
Context {C : UnicodeLower}.

Lemma normalizeName_lower (name : jsstring) :
  normalizeName name = map asciiLower (stripDashes (dashRuns false name))
  /\ Forall (fun c => isAlphanumeric c = true \/ c = 45%N)
       (stripDashes (dashRuns false name))
  /\ singleDashes (stripDashes (dashRuns false name)) = true.
Proof.
  destruct (dashRuns_shape false name) as (Hall & Hsingle & _).
  destruct (stripDashes_split (dashRuns false name))
    as (before & after & Hs & _ & _ & _ & _).
  rewrite Hs in Hall, Hsingle.
  apply Forall_app in Hall as [_ Hall]. apply Forall_app in Hall as [Hall _].
  apply singleDashes_app_r, singleDashes_app_l in Hsingle.
  split; [|split; assumption].
  unfold normalizeName. apply toLowerCase_ascii.
  eapply Forall_impl; [exact Hall|]. cbn.
  intros c [Hc| ->]; [apply isAlphanumeric_ascii, Hc | lia].
Qed.

Lemma singleDashes_lower (s : jsstring) :
  singleDashes (map asciiLower s) = singleDashes s.
Proof.
  induction s as [|a s IH]; [reflexivity|]. cbn [map].
  rewrite !singleDashes_cons. destruct s as [|b s]; [reflexivity|].
  cbn [map] in *. rewrite IH. f_equal. f_equal.
  assert (forall c, (asciiLower c =? 45)%N = (c =? 45)%N) as Hd.
  { intros c. destruct (N.eqb_spec c 45) as [->|Hc]; [reflexivity|].
    apply N.eqb_neq. rewrite asciiLower_dash. exact Hc. }
  rewrite !Hd. reflexivity.
Qed.

Lemma normalizeName_normal (name : jsstring) : normalName (normalizeName name).
Proof.
  destruct (normalizeName_lower name) as (-> & Hall & Hsingle).
  destruct (stripDashes_split (dashRuns false name))
    as (before & after & _ & _ & _ & Hhead & Hlast).
  set (core := stripDashes (dashRuns false name)) in *.
  split; [|split; [|split]].
  - apply Forall_fmap. eapply Forall_impl; [exact Hall|]. cbn.
    intros c Hc. apply isNameChar_asciiLower, Hc.
  - rewrite singleDashes_lower. exact Hsingle.
  - destruct core as [|c t]; [discriminate|]. cbn. intros [= E].
    apply (proj1 (asciiLower_dash _)) in E. subst c. done.
  - rewrite fmap_last. destruct (last core) as [c|]; [|discriminate].
    cbn. intros [= E]. apply (proj1 (asciiLower_dash _)) in E. subst c. done.
Qed.

Lemma normalizeName_of_normal (name : jsstring) :
  normalName name -> normalizeName name = name.
Proof.
  intros (Hall & Hsingle & Hhead & Hlast).
  assert (Forall (fun c => isAlphanumeric c = true \/ c = 45%N) name) as Hall'.
  { eapply Forall_impl; [exact Hall|]. cbn. apply isNameChar_cases. }
  destruct (normalizeName_lower name) as (-> & _ & _).
  rewrite dashRuns_fixed by (assumption || discriminate).
  rewrite stripDashes_fixed by assumption.
  clear -Hall. induction Hall as [|c s Hc _ IH]; [reflexivity|].
  cbn. rewrite (asciiLower_nameChar c Hc). f_equal. exact IH.
Qed.

End NameFacts.

(** X19. A normalised name is a name in normal form: for every text,
    [normalizeName] returns lower-case letters, digits and single dashes
    only, with no dash at the start or at the end. The names in normal
    form are exactly the names it leaves as they are, so normalising
    twice is normalising once. *)
Theorem normalizeName_normal_form {C : UnicodeLower} (name : jsstring) :
  normalName (normalizeName name)
  /\ (normalizeName name = name <-> normalName name)
  /\ normalizeName (normalizeName name) = normalizeName name.
Proof.
  pose proof (normalizeName_normal name) as Hnormal.
  split; [exact Hnormal|]. split; [split|].
  - intros Hfixed. rewrite <- Hfixed. exact Hnormal.
  - apply normalizeName_of_normal.
  - apply normalizeName_of_normal, Hnormal.
Qed.

(** X20. Normalising a name keeps its letters and digits: those of the
    result are those of the text, in order, in lower case. Only other
    characters are dropped or become a dash. *)
Theorem normalizeName_keeps_letters_and_digits {C : UnicodeLower}
    (name : jsstring) :
  List.filter isAlphanumeric (normalizeName name)
  = map asciiLower (List.filter isAlphanumeric name).
Proof.
  destruct (normalizeName_lower name) as (-> & _ & _).
  assert (forall s, List.filter isAlphanumeric (map asciiLower s)
                    = map asciiLower (List.filter isAlphanumeric s)) as Hmap.
  { induction s as [|c s IH]; [reflexivity|]. cbn [map List.filter].
    rewrite isAlphanumeric_asciiLower.
    destruct (isAlphanumeric c); cbn [map]; rewrite IH; reflexivity. }
  rewrite Hmap. f_equal.
  destruct (stripDashes_split (dashRuns false name))
    as (before & after & Hs & Hbefore & Hafter & _ & _).
  rewrite <- (dashRuns_letters false name). rewrite Hs at 2.
  assert (forall dashes, Forall (fun c => c = 45%N) dashes ->
                         List.filter isAlphanumeric dashes = []) as Hdashes.
  { induction 1 as [|c t -> _ IH]; [reflexivity | exact IH]. }
  rewrite !List.filter_app, (Hdashes _ Hbefore), (Hdashes _ Hafter).
  rewrite app_nil_r. reflexivity.
Qed.

(** *** Files *)

Lemma includes_cons (c : N) (s needle : jsstring) :
  includes (c :: s) needle
  = match stripPrefix needle (c :: s) with
    | Some _ => true
    | None => includes s needle
    end.
Proof. reflexivity. Qed.

Lemma includes_app_r (s t needle : jsstring) :
  includes t needle = true -> includes (s ++ t) needle = true.
Proof.
  intros Ht. induction s as [|c s IH]; [exact Ht|].
  cbn [app]. rewrite includes_cons, IH.
  destruct (stripPrefix needle (c :: s ++ t)); reflexivity.
Qed.

Section FileFacts.
Context {F : FileSystem}.

Lemma writeTextFile_result (filePath content : jsstring)
    (makeExecutable : bool) (disk : Disk) :
  let result := writeTextFile filePath content makeExecutable disk in
  pathExists filePath (snd result) = true
  /\ readFile filePath (snd result) = content
  /\ (fst result = false
      <-> pathExists filePath disk = true /\ readFile filePath disk = content)
  /\ (makeExecutable = true -> fileMode filePath (snd result) = executable)
  /\ (forall other,
        other <> filePath ->
        readFile other (snd result) = readFile other disk).
Proof.
  unfold writeTextFile.
  set (prepared := ensureDir (path_dirname filePath) disk).
  assert (pathExists filePath prepared = pathExists filePath disk) as Hexists
    by apply pathExists_ensureDir.
  assert (forall q, readFile q prepared = readFile q disk) as Hread
    by (intros q; apply readFile_ensureDir).
  assert (let result :=
            (true,
             if makeExecutable
             then chmod filePath executable (writeFile filePath content prepared)
             else writeFile filePath content prepared) in
          pathExists filePath (snd result) = true
          /\ readFile filePath (snd result) = content
          /\ (makeExecutable = true ->
              fileMode filePath (snd result) = executable)
          /\ (forall other,
                other <> filePath ->
                readFile other (snd result) = readFile other disk))
    as Hwritten.
  { cbn. destruct makeExecutable.
    - rewrite pathExists_chmod, readFile_chmod, pathExists_writeFile,
        readFile_writeFile.
      repeat split; [intros _; apply fileMode_chmod, pathExists_writeFile|].
      intros other Hother.
      rewrite readFile_chmod, readFile_writeFile_other by exact Hother.
      apply Hread.
    - rewrite pathExists_writeFile, readFile_writeFile.
      repeat split; [discriminate|].
      intros other Hother. rewrite readFile_writeFile_other by exact Hother.
      apply Hread. }
  cbn zeta in Hwritten. destruct Hwritten as (Hw1 & Hw2 & Hw3 & Hw4).
  destruct (pathExists filePath prepared) eqn:Hp.
  - destruct (decide (readFile filePath prepared = content)) as [Hsame|Hdiff].
    + cbn [fst snd]. rewrite <- Hexists, <- (Hread filePath).
      destruct makeExecutable.
      * rewrite pathExists_chmod, readFile_chmod.
        repeat split; try assumption; try reflexivity.
        -- intros _. apply fileMode_chmod, Hp.
        -- intros other _. rewrite readFile_chmod. apply Hread.
      * repeat split; try assumption; try reflexivity; [discriminate|].
        intros other _. apply Hread.
    + cbn [fst snd]. split; [exact Hw1|]. split; [exact Hw2|].
      split; [|split; assumption].
      split; [discriminate|]. intros [_ Hsame].
      rewrite <- (Hread filePath) in Hsame. contradiction.
  - cbn [fst snd]. split; [exact Hw1|]. split; [exact Hw2|].
    split; [|split; assumption].
    split; [discriminate|]. rewrite <- Hexists. intros [[=] _].
Qed.

Lemma ensureGitIgnore_written (projectRoot : jsstring) (disk : Disk)
    (changes : list jsstring) :
  let gitignorePath := path_join projectRoot (js ".gitignore") in
  let before := gitIgnoreContent projectRoot disk in
  let suffix :=
    if endsWithLineFeed before || (length before =? 0) then []
    else js newline in
  ensureGitIgnore projectRoot (disk, changes)
  = if includes before (js ".env") then (disk, changes)
    else (writeFile gitignorePath (before ++ suffix ++ gitIgnoreBlock) disk,
          changes ++ [js "Updated .gitignore to ignore env files"]).
Proof.
  cbn zeta. unfold ensureGitIgnore, gitIgnoreContent.
  destruct (includes _ (js ".env")); reflexivity.
Qed.

Lemma gitIgnoreContent_writeFile (projectRoot content : jsstring)
    (disk : Disk) :
  gitIgnoreContent projectRoot
    (writeFile (path_join projectRoot (js ".gitignore")) content disk)
  = content.
Proof.
  unfold gitIgnoreContent.
  rewrite pathExists_writeFile, readFile_writeFile. reflexivity.
Qed.

Lemma includes_gitIgnoreBlock (before suffix : jsstring) :
  includes (before ++ suffix ++ gitIgnoreBlock) (js ".env") = true.
Proof. apply includes_app_r, includes_app_r. reflexivity. Qed.

End FileFacts.

(** X21. [writeTextFile] leaves the file with the content it was given,
    and tells whether it had to write: the result is [false] exactly when
    the file was there with that very content. With [makeExecutable] the
    file ends up with mode [0o755] either way. No other file changes.
    A second call with the same path and content therefore reports
    [false], whatever the disk was at first, and the content stays. *)
Theorem writeTextFile_writes_when_needed {F : FileSystem}
    (filePath content : jsstring) (makeExecutable : bool) (disk : Disk) :
  let result := writeTextFile filePath content makeExecutable disk in
  pathExists filePath (snd result) = true
  /\ readFile filePath (snd result) = content
  /\ (fst result = false
      <-> pathExists filePath disk = true /\ readFile filePath disk = content)
  /\ (makeExecutable = true -> fileMode filePath (snd result) = executable)
  /\ (forall other,
        other <> filePath ->
        readFile other (snd result) = readFile other disk)
  /\ (forall again,
        fst (writeTextFile filePath content again (snd result)) = false
        /\ readFile filePath
             (snd (writeTextFile filePath content again (snd result)))
           = content).
Proof.
  intros result.
  destruct (writeTextFile_result filePath content makeExecutable disk)
    as (Hexists & Hread & Hfalse & Hmode & Hother).
  fold result in Hexists, Hread, Hfalse, Hmode, Hother.
  repeat (split; [assumption|]).
  intros again.
  destruct (writeTextFile_result filePath content again (snd result))
    as (_ & Hread' & Hfalse' & _).
  split; [apply Hfalse'; split; assumption | exact Hread'].
Qed.

(** X22. After [ensureGitIgnore] the file [.gitignore] exists and holds
    the text [.env]. What it held before is kept, at the start; what is
    added is nothing when [.env] was there already, and otherwise the
    block of the environment files, after a line feed if the text did not
    end with one. A change is recorded exactly when the file is written,
    and no other file changes. *)
Theorem ensureGitIgnore_ignores_env_files {F : FileSystem}
    (projectRoot : jsstring) (disk : Disk) (changes : list jsstring) :
  let gitignorePath := path_join projectRoot (js ".gitignore") in
  let before := gitIgnoreContent projectRoot disk in
  let after := ensureGitIgnore projectRoot (disk, changes) in
  pathExists gitignorePath (fst after) = true
  /\ includes (readFile gitignorePath (fst after)) (js ".env") = true
  /\ (exists added,
        readFile gitignorePath (fst after) = before ++ added
        /\ (includes before (js ".env") = true ->
            added = [] /\ snd after = changes)
        /\ (includes before (js ".env") = false ->
            added
            = (if endsWithLineFeed before || (length before =? 0) then []
               else js newline) ++ gitIgnoreBlock
            /\ snd after
               = changes ++ [js "Updated .gitignore to ignore env files"]))
  /\ (forall other,
        other <> gitignorePath ->
        readFile other (fst after) = readFile other disk).
Proof.
  intros gitignorePath before after. unfold after.
  rewrite ensureGitIgnore_written. fold gitignorePath before.
  destruct (includes before (js ".env")) eqn:Hin; cbn [fst snd].
  - assert (pathExists gitignorePath disk = true) as Hexists.
    { unfold before, gitIgnoreContent in Hin. fold gitignorePath in Hin.
      destruct (pathExists gitignorePath disk); [reflexivity | discriminate]. }
    assert (readFile gitignorePath disk = before) as Hread.
    { unfold before, gitIgnoreContent. fold gitignorePath.
      rewrite Hexists. reflexivity. }
    split; [exact Hexists|]. split; [rewrite Hread; exact Hin|].
    split; [|reflexivity].
    exists []. rewrite app_nil_r. split; [exact Hread|].
    split; [auto | discriminate].
  - rewrite pathExists_writeFile, readFile_writeFile.
    split; [reflexivity|]. split; [apply includes_gitIgnoreBlock|].
    split.
    + eexists. split; [reflexivity|]. split; [discriminate | auto].
    + intros other Hother. apply readFile_writeFile_other, Hother.
Qed.

(** X23. [ensureGitIgnore] is idempotent: a second run finds [.env] in
    the file, writes nothing and records nothing, so running it twice
    leaves the disk and the list of changes as one run does. *)
Theorem ensureGitIgnore_idempotent {F : FileSystem}
    (projectRoot : jsstring) (state : Disk * list jsstring) :
  ensureGitIgnore projectRoot (ensureGitIgnore projectRoot state)
  = ensureGitIgnore projectRoot state.
Proof.
  destruct state as [disk changes].
  rewrite (ensureGitIgnore_written projectRoot disk changes).
  destruct (includes (gitIgnoreContent projectRoot disk) (js ".env")) eqn:Hin.
  - rewrite ensureGitIgnore_written, Hin. reflexivity.
  - rewrite ensureGitIgnore_written, gitIgnoreContent_writeFile,
      includes_gitIgnoreBlock. reflexivity.
Qed.

(** ** Witnesses of the further properties *)

(** Three strings on a live turn whose second send fails: two
    responses. *)
Lemma results_bounded_by_strings_witness :
  exists results w',
    send (P := flakyPlatform) hubot noEnv liveEnvelope
      [js "one"; js "two"; js "three"] emptyWorld
    = (Normal results, w')
    /\ length results = 2%nat
    /\ length results <= length [js "one"; js "two"; js "three"].
Proof.
  eexists _, _. split; [vm_compute; reflexivity|]. split; [reflexivity|].
  eapply (proj1 (proj2 (proj2
            (results_bounded_by_strings (P := flakyPlatform) hubot noEnv
               [js "one"; js "two"; js "three"])))
            liveEnvelope emptyWorld).
  vm_compute. reflexivity.
Defined.

Lemma reply_delivers_as_send_witness :
  user liveEnvelope = Some {| message := Some liveTurn |}
  /\ exists responses w',
       send (P := channelPlatform) hubot noEnv liveEnvelope [js "hello"]
         emptyWorld
       = (Normal responses,
          {| conversationReferences := conversationReferences w';
             calls := calls w'; logged := logged w';
             emitted := emitted w' ++ [EventSend liveEnvelope responses];
             responded := responded w' |})
       /\ reply (P := channelPlatform) hubot liveEnvelope [js "hello"]
            emptyWorld
          = (Normal responses,
             {| conversationReferences := conversationReferences w';
                calls := calls w'; logged := logged w';
                emitted := emitted w' ++ [EventReply liveEnvelope responses];
                responded := responded w' |}).
Proof.
  split; [reflexivity|].
  destruct (reply_delivers_as_send (P := channelPlatform) hubot noEnv
              liveEnvelope {| message := Some liveTurn |} [js "hello"]
              emptyWorld eq_refl)
    as (responses & w' & _ & Hsend & Hreply).
  exists responses, w'. split; [exact Hsend | exact Hreply].
Defined.

(** A card pushed into a room that has no cache entry. *)
Lemma room_push_without_reference_witness :
  readReference (P := threadPlatform) (conversationReferences emptyWorld)
    (channel_id (channel (channelData (roomOf "19:room")))) = None
  /\ payloads
       (newCalls (sendToRoom (P := threadPlatform) hubot noEnv
                    (roomOf "19:room") [cardText]) emptyWorld)
     = [OutString cardText]
  /\ emitted (snd (sendToRoom (P := threadPlatform) hubot noEnv
                     (roomOf "19:room") [cardText] emptyWorld)) = [].
Proof.
  split; [reflexivity|].
  destruct (room_push_without_reference (P := threadPlatform) hubot noEnv
              (roomOf "19:room") [cardText] emptyWorld eq_refl)
    as (_ & _ & _ & He & _).
  split; [vm_compute; reflexivity | exact He].
Defined.

Lemma room_push_platform_failure_witness :
  conversationReferences cachedWorld
    !! channel_id (channel (channelData (roomOf "19:room")))
  = Some (EntryConversation roomConversation)
  /\ sendToRoom (P := unreachablePlatform) hubot noEnv (roomOf "19:room")
       [js "hi"] cachedWorld
     = (Throw serverError,
        record (CallContinueConversation (EntryConversation roomConversation))
          cachedWorld)
  /\ exists w',
       sendToRoom (P := latePlatform) hubot noEnv (roomOf "19:room")
         [js "hi"] cachedWorld
       = (Throw serverError, w')
       /\ payloads (drop (length (calls cachedWorld)) (calls w'))
          = map classify [js "hi"]
       /\ emitted w' = emitted cachedWorld.
Proof.
  split; [reflexivity|]. split.
  - exact (proj1 (room_push_platform_failure (P := unreachablePlatform) hubot
                    noEnv (roomOf "19:room")
                    (EntryConversation roomConversation) [js "hi"]
                    serverError cachedWorld eq_refl) eq_refl).
  - exact (proj1 (proj2 (room_push_platform_failure (P := latePlatform) hubot
                           noEnv (roomOf "19:room")
                           (EntryConversation roomConversation) [js "hi"]
                           serverError cachedWorld eq_refl))
             (turnOn 2 "resumed" roomConversation)
             (fun _ => Throw serverError) eq_refl eq_refl).
Defined.

(** The entry of [19:room] outlives a push into another room, which
    creates a conversation. *)
Lemma outbound_calls_keep_cache_entries_witness :
  is_Some (conversationReferences cachedWorld !! js "19:room")
  /\ is_Some (conversationReferences
                (snd (sendToRoom (P := threadPlatform) hubot noEnv
                        (roomOf "19:other") [js "hi"] cachedWorld))
                !! js "19:room").
Proof.
  assert (is_Some (conversationReferences cachedWorld !! js "19:room")) as Hkey
    by (eexists; reflexivity).
  split; [exact Hkey|].
  exact (proj1 (outbound_calls_keep_cache_entries (P := threadPlatform) hubot
                  noEnv liveEnvelope (roomOf "19:other") None [js "hi"]
                  cachedWorld (js "19:room") Hkey)).
Defined.

Lemma bare_name_gets_mention_prefix_witness :
  wordName (js "Bot")
  /\ trim (js " BOT, deploy ") = js "BOT" ++ js ", deploy"
  /\ ensureMentionPrefix (VStr (js " BOT, deploy ")) (VStr (js "Bot"))
     = Some (VStr (js "@Bot, deploy")).
Proof.
  assert (wordName (js "Bot")) as Hname by (split; reflexivity).
  split; [exact Hname|]. split; [reflexivity|].
  apply (bare_name_gets_mention_prefix (js "Bot") (js " BOT, deploy ")
           (js "BOT") (js ", deploy") Hname eq_refl).
  - repeat constructor.
  - reflexivity.
Defined.

Lemma unaddressed_text_is_prefixed_witness :
  ensureMentionPrefix (VStr (js "x")) (VStr (js "Bot"))
  = Some (VStr (js "@Bot x")).
Proof.
  apply (unaddressed_text_is_prefixed (js "Bot") (js "x")).
  - discriminate.
  - discriminate.
  - intros m rest Hsplit Hsame.
    assert (length m <= 1) as Hlen.
    { change (trim (js "x")) with [120%N] in Hsplit.
      apply (f_equal length) in Hsplit. rewrite length_app in Hsplit.
      cbn [length] in Hsplit. lia. }
    destruct Hsame as [Hsame|Hsame];
      apply Forall2_length in Hsame; cbn in Hsame; lia.
Defined.

Lemma punctuation_name_is_prefixed_again_witness :
  lastIsWord (js "!") = false
  /\ trim (js "@! help") = js "@" ++ js "!" ++ js " help"
  /\ ensureMentionPrefix (VStr (js "@! help")) (VStr (js "!"))
     = Some (VStr (js "@! @! help")).
Proof.
  split; [reflexivity|]. split; [reflexivity|].
  apply (punctuation_name_is_prefixed_again (js "!") (js "@! help")
           (js " help")); [discriminate | reflexivity..].
Defined.

(** The personal message [ deploy now ] to the robot [hubot]. *)
Lemma normalisation_rewrites_only_text_witness :
  exists result out members',
    normalizeIncomingActivity (T := plainTeams) hubot AliasFalse personalPayload
    = Some (Normal result)
    /\ result = JObject members'
    /\ JSON_member (js "text") members' = Some (JString out)
    /\ JSON_member (js "conversation") members'
       = Some (JObject [(js "id", JString (js "a:1"));
                        (js "conversationType", JString (js "personal"))]).
Proof.
  assert (exists result,
            normalizeIncomingActivity (T := plainTeams) hubot AliasFalse
              personalPayload = Some (Normal result)) as [result Hresult]
    by (eexists; vm_compute; reflexivity).
  destruct (normalisation_rewrites_only_text (T := plainTeams) hubot
              AliasFalse personalPayload result Hresult)
    as (out & members' & Hobject & Htext & Hother).
  exists result, out, members'. split; [exact Hresult|].
  split; [exact Hobject|]. split; [exact Htext|].
  rewrite (Hother (js "conversation")) by discriminate. reflexivity.
Defined.

Lemma addressed_text_carries_prefix_witness :
  wordName (robotName hubot AliasFalse)
  /\ isPersonalConversation personalPayload = true
  /\ exists out,
       normalizeIncomingActivity (T := plainTeams) hubot AliasFalse
         personalPayload
       = Some (Normal (JObject (JSON_set (js "text") (JString out)
                                  personalMembers)))
       /\ (out = []
           \/ exists rest,
                out = js "@" ++ js "hubot" ++ rest
                /\ boundaryBetween (js "@" ++ js "hubot") rest = true).
Proof.
  assert (wordName (robotName hubot AliasFalse)) as Hname
    by (split; reflexivity).
  split; [exact Hname|]. split; [reflexivity|].
  assert (exists result,
            normalizeIncomingActivity (T := plainTeams) hubot AliasFalse
              personalPayload = Some (Normal result)) as [result Hresult]
    by (eexists; vm_compute; reflexivity).
  destruct (addressed_text_carries_prefix (T := plainTeams) hubot AliasFalse
              personalMembers result Hname (or_introl eq_refl) Hresult)
    as (out & Hout & _ & Hshape).
  exists out. rewrite <- Hout. split; [exact Hresult | exact Hshape].
Defined.


Lemma post_with_unreadable_text_throws_witness :
  body numberRequest = numberPayload
  /\ postMessages (P := channelPlatform) normalizePlain quietHandler
       numberRequest emptyWorld
     = (Throw TypeError, emptyWorld).
Proof.
  split; [reflexivity|].
  apply (post_with_unreadable_text_throws (T := plainTeams) hubot AliasFalse
           normalizePlain quietHandler numberRequest
           [(js "text", JNumber (js "5"))] true emptyWorld).
  - intros payload c Hc. unfold normalizePlain. rewrite Hc. reflexivity.
  - reflexivity.
  - reflexivity.
Defined.

Lemma well_formed_tags_are_unwrapped_witness :
  Forall wellFormed taggedText
  /\ collapseAtTags (js "<at>Hubot</AT> deploy") = js "Hubot deploy".
Proof.
  assert (Forall wellFormed taggedText) as Hpieces.
  { repeat constructor; discriminate. }
  split; [exact Hpieces|].
  exact (well_formed_tags_are_unwrapped taggedText Hpieces).
Defined.


(** An activity of [19:room] posted when the cache holds the entry of a
    created conversation under that id: the reference replaces it. *)
Lemma post_caches_only_its_conversation_witness :
  keepBody (body postedActivity) = Normal (body postedActivity)
  /\ conversationReferences cachedWorld !! js "19:room"
     = Some (EntryConversation roomConversation)
  /\ readReference (P := channelPlatform)
       (conversationReferences
          (snd (postMessages (P := channelPlatform) keepBody quietHandler
                  postedActivity cachedWorld))) (js "19:room")
     = Some (EntryReference
               {| reference_activityId := js "inbound";
                  reference_conversation := roomConversation;
                  reference_serviceUrl := js "https://service.example/" |}).
Proof.
  split; [reflexivity|]. split; [reflexivity|].
  exact (proj1 (proj2 (post_caches_only_its_conversation
                         (P := channelPlatform) keepBody quietHandler
                         postedActivity (body postedActivity) cachedWorld
                         eq_refl (fun _ _ => eq_refl)))).
Defined.

(** The examples of the bootstrap command, evaluated. *)
Example scenario_resource_group :
  normalizeName (js "  My Hubot (v2)! ") = js "my-hubot-v2".
Proof. vm_compute. reflexivity. Qed.

Example scenario_gitignore :
  let disk : Disk := {[ js "bot/.gitignore" := (js "node_modules", 420%N) ]} in
  readFile (js "bot/.gitignore")
    (fst (ensureGitIgnore (js "bot") (disk, [])))
  = js "node_modules" ++ js newline ++ gitIgnoreBlock.
Proof. vm_compute. reflexivity. Qed.

(** The scenario of the specification: a mention of the bot in Teams
    markup, in a channel. *)
Example scenario_mention_markup :
  normalizeIncomingActivity (T := plainTeams) hubot AliasFalse
    (JObject [(js "text", JString (js "<at>Hubot</at> do the thing"))])
  = Some (Normal
            (JObject [(js "text", JString (js "@hubot do the thing"))])).
Proof. vm_compute. reflexivity. Qed.
